(** * chatserver: a multi-room line-based chat relay (server.go)

    Shallow embedding of [server.go] and the properties of its command
    parser, its room registry, its dispatcher and its goroutines.

    - Pointers ([*Client], [*Room]) are addresses into two heaps, so that
      the sharing of a client between the server and the rooms, and the
      identity of a room, are part of the model.
    - Go strings are [string]s of bytes.
    - All channels of the program are unbuffered.  A channel is its closed
      flag together with the values handed over on it so far; sending on a
      closed channel, or closing it again, is a run-time panic.
    - The goroutines are interleaved: one event is one atomic action of one
      goroutine.  The only goroutine that touches rooms and nicknames is the
      dispatcher, and every other action on a client's channels commutes
      with a run of a command or is ordered before or after it, so running
      a command in one event loses no behaviour.
    - The value a goroutine holds between receiving it on one channel and
      sending it on is kept in a slot ([client_msg] for the ingest loop of
      a client, [server_cmd] for the dispatcher). *)

From Stdlib Require Import String Ascii.
From stdpp Require Import base option list gmap strings.

Local Open Scope string_scope.
Local Open Scope list_scope.

(** ** Strings *)

(** The byte ['\n']. *)
Definition newline : ascii := ascii_of_nat 10.

(** The Go string literal ["\n"]. *)
Definition nl : string := String newline EmptyString.

(** [strings.HasPrefix] together with the remainder after the prefix. *)
Fixpoint strip_prefix (p s : string) : option string :=
  match p with
  | EmptyString => Some s
  | String a p' =>
      match s with
      | EmptyString => None
      | String b s' => if Ascii.eqb a b then strip_prefix p' s' else None
      end
  end.

(** The first [n] bytes of [s] ([s[:n]]). *)
Definition prefix_of (n : nat) (s : string) : string := substring 0 n s.

(** ** The regular expressions of the parser

    [regexp.Compile] is library code; its matching discipline (leftmost
    start, then the match a backtracking search finds first) is modelled
    for the operators the three patterns use. *)

Inductive CharClass : Type :=
| ClassWord   (* \w : [0-9A-Za-z_] *)
| ClassDot.   (* .  : any byte but '\n' *)

Inductive Regexp : Type :=
| RLit (l : string)          (* literal text *)
| RPlus (cls : CharClass)    (* cls+ , greedy *)
| RGroup (r : Regexp)        (* ( r ) , capturing *)
| RCat (r1 r2 : Regexp)      (* r1 r2 *)
| REnd.                      (* $ , end of text *)

Definition is_word (c : ascii) : bool :=
  let n := nat_of_ascii c in
  (Nat.leb 48 n && Nat.leb n 57) || (Nat.leb 65 n && Nat.leb n 90)
  || (Nat.leb 97 n && Nat.leb n 122) || Nat.eqb n 95.

Definition is_dot (c : ascii) : bool := negb (Ascii.eqb c newline).

Definition class_test (cls : CharClass) : ascii -> bool :=
  match cls with
  | ClassWord => is_word
  | ClassDot => is_dot
  end.

(** Greedy one-or-more: after a byte of the class, first try to take more,
    and only then hand the rest to the continuation. *)
Fixpoint plus_k {A : Type} (p : ascii -> bool) (s : string)
    (k : string -> option A) : option A :=
  match s with
  | EmptyString => None
  | String c s' =>
      if p c then
        match plus_k p s' k with
        | Some r => Some r
        | None => k s'
        end
      else None
  end.

(** Backtracking matcher anchored at the start of [s]; [caps] collects the
    text of the capture groups in the order they close; the continuation
    receives the unread rest. *)
Fixpoint match_k (r : Regexp) (s : string) (caps : list string)
    (k : string -> list string -> option (list string)) : option (list string) :=
  match r with
  | RLit l =>
      match strip_prefix l s with
      | Some s' => k s' caps
      | None => None
      end
  | RPlus cls => plus_k (class_test cls) s (fun s' => k s' caps)
  | RGroup r1 =>
      match_k r1 s caps
        (fun s' caps' =>
           k s' (caps' ++ [prefix_of (String.length s - String.length s') s])%list)
  | RCat r1 r2 => match_k r1 s caps (fun s' caps' => match_k r2 s' caps' k)
  | REnd =>
      match s with
      | EmptyString => k s caps
      | String _ _ => None
      end
  end.

(** A match starting exactly at the first byte of [s]: the whole match
    followed by the groups. *)
Definition match_here (re : Regexp) (s : string) : option (list string) :=
  match_k re s []
    (fun s' caps => Some (prefix_of (String.length s - String.length s') s :: caps)).

(** [Regexp.FindStringSubmatch]: the leftmost match, [None] for [nil]. *)
Fixpoint FindStringSubmatch (re : Regexp) (s : string) : option (list string) :=
  match match_here re s with
  | Some m => Some m
  | None =>
      match s with
      | EmptyString => None
      | String _ s' => FindStringSubmatch re s'
      end
  end.

(** [regexp.Compile("nick (\\w+)\n$")] *)
Definition nickRegexp : Regexp :=
  RCat (RLit "nick ") (RCat (RGroup (RPlus ClassWord)) (RCat (RLit nl) REnd)).

(** [regexp.Compile("join (\\w+)\n$")] *)
Definition joinRegexp : Regexp :=
  RCat (RLit "join ") (RCat (RGroup (RPlus ClassWord)) (RCat (RLit nl) REnd)).

(** [regexp.Compile("msg (\\w+) (.+)\n$")] *)
Definition msgRegexp : Regexp :=
  RCat (RLit "msg ")
    (RCat (RGroup (RPlus ClassWord))
       (RCat (RLit " ") (RCat (RGroup (RPlus ClassDot)) (RCat (RLit nl) REnd)))).

(** ** Commands *)

(** Addresses of [Client] and [Room] objects: indices into the heaps. *)
Abbreviation ClientPtr := nat (only parsing).
Abbreviation RoomPtr := nat (only parsing).

(** The three implementations of the [Command] interface. *)
Inductive Command : Type :=
| NickCommand (client : ClientPtr) (nick : string)
| JoinCommand (client : ClientPtr) (room : string)
| MsgCommand (client : ClientPtr) (room : string) (message : string).

#[global] Instance Command_eq_dec : EqDecision Command.
Proof. solve_decision. Defined.

(** [match[i]] on the result of [FindStringSubmatch]. *)
Definition sub (m : list string) (i : nat) : string := nth i m "".

(** [parseCommand]; [None] is the [nil] command. *)
Definition parseCommand (client : ClientPtr) (msg : string) : option Command :=
  match FindStringSubmatch nickRegexp msg with
  | Some m => Some (NickCommand client (sub m 1))
  | None =>
      match FindStringSubmatch joinRegexp msg with
      | Some m => Some (JoinCommand client (sub m 1))
      | None =>
          match FindStringSubmatch msgRegexp msg with
          | Some m => Some (MsgCommand client (sub m 1) (sub m 2))
          | None => None
          end
      end
  end.

(** ** Channels

    All channels of the program are unbuffered: a send completes when the
    receiving goroutine takes the value.  A channel is modelled by its
    closed flag and the values handed over so far. *)

Record Chan : Type := mkChan {
  chan_closed : bool;
  chan_sent : list string;
}.

(** [make(chan string)] *)
Definition make_chan : Chan := {| chan_closed := false; chan_sent := [] |}.

(** [ch <- v]; [None] is the run-time panic of a send on a closed channel. *)
Definition chan_send (ch : Chan) (v : string) : option Chan :=
  if chan_closed ch then None
  else Some {| chan_closed := false; chan_sent := (chan_sent ch ++ [v])%list |}.

(** [close(ch)]; [None] is the run-time panic of closing a closed channel. *)
Definition chan_close (ch : Chan) : option Chan :=
  if chan_closed ch then None
  else Some {| chan_closed := true; chan_sent := chan_sent ch |}.

(** ** Rooms, clients and the server *)

Record Room : Type := mkRoom {
  room_name : string;
  room_clients : list ClientPtr;
}.

Record Client : Type := mkClient {
  client_conn_closed : bool;     (* [conn.Close()] has run *)
  client_incoming : Chan;
  client_outgoing : Chan;
  client_nick : string;
  client_msg : option string;    (* the line [msg] held by the goroutine that
                                    ranges over [incoming]; [None] while it
                                    waits for the next line *)
}.

(** The [ChatServer] value, the two heaps its pointers refer to, and the
    command [cmd] held by the goroutine that ranges over [server.incoming]
    ([None] while it waits). *)
Record State : Type := mkState {
  server_clients : list ClientPtr;
  server_rooms : gmap string RoomPtr;
  server_cmd : option Command;
  heap_clients : list Client;
  heap_rooms : list Room;
}.

(** How a piece of code ends: normally, by a run-time panic, or by
    [log.Fatal]; the last two end the process, in the state given. *)
Inductive Result : Type :=
| Ok (σ : State)
| Panic (σ : State)
| Fatal (σ : State).

Definition bind (r : Result) (f : State -> Result) : Result :=
  match r with
  | Ok σ => f σ
  | Panic σ => Panic σ
  | Fatal σ => Fatal σ
  end.

Notation "r >>= f" := (bind r f) (at level 50, left associativity).

Definition set_heap_clients (h : list Client) (σ : State) : State :=
  {| server_clients := server_clients σ; server_rooms := server_rooms σ;
     server_cmd := server_cmd σ; heap_clients := h; heap_rooms := heap_rooms σ |}.

Definition set_heap_rooms (h : list Room) (σ : State) : State :=
  {| server_clients := server_clients σ; server_rooms := server_rooms σ;
     server_cmd := server_cmd σ; heap_clients := heap_clients σ; heap_rooms := h |}.

Definition set_server_rooms (m : gmap string RoomPtr) (σ : State) : State :=
  {| server_clients := server_clients σ; server_rooms := m;
     server_cmd := server_cmd σ; heap_clients := heap_clients σ;
     heap_rooms := heap_rooms σ |}.

Definition set_server_clients (l : list ClientPtr) (σ : State) : State :=
  {| server_clients := l; server_rooms := server_rooms σ;
     server_cmd := server_cmd σ; heap_clients := heap_clients σ;
     heap_rooms := heap_rooms σ |}.

Definition set_server_cmd (c : option Command) (σ : State) : State :=
  {| server_clients := server_clients σ; server_rooms := server_rooms σ;
     server_cmd := c; heap_clients := heap_clients σ; heap_rooms := heap_rooms σ |}.

Definition set_outgoing (ch : Chan) (cl : Client) : Client :=
  {| client_conn_closed := client_conn_closed cl; client_incoming := client_incoming cl;
     client_outgoing := ch; client_nick := client_nick cl; client_msg := client_msg cl |}.

Definition set_incoming (ch : Chan) (cl : Client) : Client :=
  {| client_conn_closed := client_conn_closed cl; client_incoming := ch;
     client_outgoing := client_outgoing cl; client_nick := client_nick cl;
     client_msg := client_msg cl |}.

Definition set_nick (n : string) (cl : Client) : Client :=
  {| client_conn_closed := client_conn_closed cl; client_incoming := client_incoming cl;
     client_outgoing := client_outgoing cl; client_nick := n; client_msg := client_msg cl |}.

Definition set_msg (m : option string) (cl : Client) : Client :=
  {| client_conn_closed := client_conn_closed cl; client_incoming := client_incoming cl;
     client_outgoing := client_outgoing cl; client_nick := client_nick cl; client_msg := m |}.

Definition set_conn_closed (cl : Client) : Client :=
  {| client_conn_closed := true; client_incoming := client_incoming cl;
     client_outgoing := client_outgoing cl; client_nick := client_nick cl;
     client_msg := client_msg cl |}.

(** [room.AddClient(client)]; a dangling [room] is a nil dereference. *)
Definition AddClient (room : RoomPtr) (client : ClientPtr) (σ : State) : Result :=
  match heap_rooms σ !! room with
  | None => Panic σ
  | Some r =>
      Ok (set_heap_rooms
            (<[room := {| room_name := room_name r;
                          room_clients := (room_clients r ++ [client])%list |}]>
               (heap_rooms σ)) σ)
  end.

(** [NewRoom(name)]: a fresh [Room] with no clients, and its address. *)
Definition NewRoom (name : string) (σ : State) : RoomPtr * State :=
  (length (heap_rooms σ),
   set_heap_rooms (heap_rooms σ ++ [{| room_name := name; room_clients := [] |}])%list σ).

(** [server.JoinRoom(name, client)] *)
Definition JoinRoom (name : string) (client : ClientPtr) (σ : State) : Result :=
  match server_rooms σ !! name with
  | Some room => AddClient room client σ
  | None =>
      let (room, σ1) := NewRoom name σ in
      AddClient room client (set_server_rooms (<[name := room]> (server_rooms σ1)) σ1)
  end.

(** [client.outgoing <- line] *)
Definition send (client : ClientPtr) (line : string) (σ : State) : Result :=
  match heap_clients σ !! client with
  | None => Panic σ
  | Some cl =>
      match chan_send (client_outgoing cl) line with
      | None => Panic σ
      | Some ch => Ok (set_heap_clients (<[client := set_outgoing ch cl]> (heap_clients σ)) σ)
      end
  end.

(** [for _, client := range clients { client.outgoing <- line }] *)
Fixpoint send_all (clients : list ClientPtr) (line : string) (σ : State) : Result :=
  match clients with
  | [] => Ok σ
  | client :: rest => send client line σ >>= send_all rest line
  end.

(** [fmt.Sprintf("%s / %s: %s\n", name, nick, msg)] *)
Definition msgFmt (name nick msg : string) : string :=
  name +:+ " / " +:+ nick +:+ ": " +:+ msg +:+ nl.

Definition err_no_room : string := "Error: Room doesn't exist" +:+ nl.
Definition err_no_nick : string := "Error: Must set NICK first" +:+ nl.

(** [server.Broadcast(name, from, msg)] *)
Definition Broadcast (name : string) (from : ClientPtr) (msg : string) (σ : State) : Result :=
  match server_rooms σ !! name with
  | None => send from err_no_room σ
  | Some room =>
      match heap_clients σ !! from with
      | None => Panic σ
      | Some cl =>
          if String.eqb (client_nick cl) "" then send from err_no_nick σ
          else
            match heap_rooms σ !! room with
            | None => Panic σ
            | Some r => send_all (room_clients r) (msgFmt name (client_nick cl) msg) σ
            end
      end
  end.

(** [NewChatServer()] *)
Definition NewChatServer : State :=
  {| server_clients := []; server_rooms := ∅; server_cmd := None;
     heap_clients := []; heap_rooms := [] |}.

(** The [Run] methods of the three commands. *)
Definition Run (cmd : Command) (σ : State) : Result :=
  match cmd with
  | NickCommand client nick =>
      match heap_clients σ !! client with
      | None => Panic σ
      | Some cl => Ok (set_heap_clients (<[client := set_nick nick cl]> (heap_clients σ)) σ)
      end
  | JoinCommand client room => JoinRoom room client σ
  | MsgCommand client room message => Broadcast room client message σ
  end.

(** ** The goroutines

    The scheduler is modelled by interleaving: an [Event] is one atomic
    action of one goroutine, [step] gives its effect, and [None] means the
    goroutine cannot take that action in the state (it is blocked, or it
    does not exist). *)

(** [NewClient(conn)]: a fresh [Client] with two open channels, and its
    address. *)
Definition NewClient (σ : State) : ClientPtr * State :=
  (length (heap_clients σ),
   set_heap_clients
     (heap_clients σ ++
        [{| client_conn_closed := false; client_incoming := make_chan;
            client_outgoing := make_chan; client_nick := "";
            client_msg := None |}])%list σ).

(** What [reader.ReadString('\n')] returns without an error: bytes up to and
    including the first newline. *)
Fixpoint is_line (s : string) : bool :=
  match s with
  | EmptyString => false
  | String c s' =>
      if Ascii.eqb c newline then
        match s' with EmptyString => true | String _ _ => false end
      else is_line s'
  end.

(** The error branch of [client.Read]. *)
Definition Read_error (client : ClientPtr) (σ : State) : Result :=
  match heap_clients σ !! client with
  | None => Panic σ
  | Some cl =>
      let cl1 := set_conn_closed cl in
      match chan_close (client_incoming cl1) with
      | None => Panic (set_heap_clients (<[client := cl1]> (heap_clients σ)) σ)
      | Some inc =>
          let cl2 := set_incoming inc cl1 in
          match chan_close (client_outgoing cl2) with
          | None => Panic (set_heap_clients (<[client := cl2]> (heap_clients σ)) σ)
          | Some out =>
              Ok (set_heap_clients (<[client := set_outgoing out cl2]> (heap_clients σ)) σ)
          end
      end
  end.

(** [fmt.Sprintf("Error: Invalid cmd: %s", msg)] *)
Definition err_invalid (msg : string) : string := "Error: Invalid cmd: " +:+ msg.

Definition clear_msg (client : ClientPtr) (σ : State) : State :=
  match heap_clients σ !! client with
  | None => σ
  | Some cl => set_heap_clients (<[client := set_msg None cl]> (heap_clients σ)) σ
  end.

Inductive Event : Type :=
| Accept                                  (* [listener.Accept] returns a connection *)
| AcceptError                             (* [listener.Accept] returns an error *)
| ReadLine (c : ClientPtr) (s : string)   (* [client.Read] reads [s] and hands it over on [incoming] *)
| ReadError (c : ClientPtr)               (* [client.Read] gets a read error *)
| Ingest (c : ClientPtr)                  (* the body of [for msg := range client.incoming] *)
| Dispatch.                               (* the body of [for cmd := range server.incoming] *)

#[global] Instance Event_eq_dec : EqDecision Event.
Proof. solve_decision. Defined.

Definition step (e : Event) (σ : State) : option Result :=
  match e with
  | Accept =>
      let (client, σ1) := NewClient σ in
      Some (Ok (set_server_clients (server_clients σ1 ++ [client])%list σ1))
  | AcceptError => Some (Fatal σ)
  | ReadLine c s =>
      match heap_clients σ !! c with
      | None => None
      | Some cl =>
          match client_msg cl, chan_send (client_incoming cl) s with
          | None, Some inc =>
              if is_line s then
                Some (Ok (set_heap_clients
                            (<[c := set_msg (Some s) (set_incoming inc cl)]> (heap_clients σ)) σ))
              else None
          | _, _ => None
          end
      end
  | ReadError c =>
      match heap_clients σ !! c with
      | None => None
      | Some cl =>
          if chan_closed (client_incoming cl) then None else Some (Read_error c σ)
      end
  | Ingest c =>
      match heap_clients σ !! c with
      | None => None
      | Some cl =>
          match client_msg cl with
          | None => None
          | Some msg =>
              match parseCommand c msg with
              | None => Some (send c (err_invalid msg) σ >>= fun σ' => Ok (clear_msg c σ'))
              | Some cmd =>
                  match server_cmd σ with
                  | Some _ => None
                  | None => Some (Ok (clear_msg c (set_server_cmd (Some cmd) σ)))
                  end
              end
          end
      end
  | Dispatch =>
      match server_cmd σ with
      | None => None
      | Some cmd => Some (Run cmd σ >>= fun σ' => Ok (set_server_cmd None σ'))
      end
  end.

(** Running a schedule; the process is gone after a panic or [log.Fatal],
    so these can only end a schedule. *)
Fixpoint exec (es : list Event) (σ : State) : option Result :=
  match es with
  | [] => Some (Ok σ)
  | e :: es' =>
      match step e σ with
      | Some (Ok σ') => exec es' σ'
      | Some r => match es' with [] => Some r | _ :: _ => None end
      | None => None
      end
  end.

(** The states the running server can be in. *)
Inductive reachable : State -> Prop :=
| reachable_init : reachable NewChatServer
| reachable_step σ e σ' : reachable σ -> step e σ = Some (Ok σ') -> reachable σ'.

(** ** The command shapes of the wire protocol *)

(** Every byte of [s] passes [p]. *)
Fixpoint string_forall (p : ascii -> bool) (s : string) : bool :=
  match s with
  | EmptyString => true
  | String c s' => p c && string_forall p s'
  end.

(** One or more word characters. *)
Definition word (w : string) : Prop :=
  w <> "" /\ string_forall is_word w = true.

(** The three command shapes of the wire protocol, as the protocol table
    words them: [nick <word>\n], [join <word>\n] and
    [msg <word> <rest-of-line>\n] with a non-empty rest of line. *)
Definition nick_shape (l : string) : Prop :=
  exists w, word w /\ l = "nick " +:+ w +:+ nl.

Definition join_shape (l : string) : Prop :=
  exists w, word w /\ l = "join " +:+ w +:+ nl.

Definition msg_shape (l : string) : Prop :=
  exists w rest, word w /\ rest <> "" /\ string_forall is_dot rest = true
                 /\ l = "msg " +:+ w +:+ " " +:+ rest +:+ nl.

Definition command_shape (l : string) : Prop :=
  nick_shape l \/ join_shape l \/ msg_shape l.

(** ** Observations on a state *)

(** The lines handed to the [Write] goroutine of a client, oldest first. *)
Definition delivered (σ : State) (c : ClientPtr) : list string :=
  match heap_clients σ !! c with
  | None => []
  | Some cl => chan_sent (client_outgoing cl)
  end.

(** The line the ingest goroutine of [c] holds, if any. *)
Definition held_line (σ : State) (c : ClientPtr) : option string :=
  match heap_clients σ !! c with
  | None => None
  | Some cl => client_msg cl
  end.

(** The client's connection has terminated: [Read] closed its outgoing
    channel. *)
Definition terminated (σ : State) (c : ClientPtr) : bool :=
  match heap_clients σ !! c with
  | None => false
  | Some cl => chan_closed (client_outgoing cl)
  end.

(** The client exists and its outgoing channel is open. *)
Definition live (σ : State) (c : ClientPtr) : bool :=
  match heap_clients σ !! c with
  | None => false
  | Some cl => negb (chan_closed (client_outgoing cl))
  end.

Definition nick_of (σ : State) (c : ClientPtr) : string :=
  match heap_clients σ !! c with
  | None => ""
  | Some cl => client_nick cl
  end.

(** The member list of the room a name is bound to. *)
Definition members (σ : State) (name : string) : list ClientPtr :=
  match server_rooms σ !! name with
  | None => []
  | Some room =>
      match heap_rooms σ !! room with
      | None => []
      | Some r => room_clients r
      end
  end.

(** Number of entries of a member list that are the client [c]. *)
Definition entries (c : ClientPtr) (l : list ClientPtr) : nat :=
  length (filter (fun x => x = c) l).

Definition cmd_client (cmd : Command) : ClientPtr :=
  match cmd with
  | NickCommand c _ | JoinCommand c _ | MsgCommand c _ _ => c
  end.

(** The state a piece of code ends in. *)
Definition result_state (r : Result) : State :=
  match r with
  | Ok σ | Panic σ | Fatal σ => σ
  end.

(** The registry, the rooms with their member lists, and the nicknames are
    the same in both states. *)
Definition shared_unchanged (σ σ' : State) : Prop :=
  server_rooms σ' = server_rooms σ
  /\ heap_rooms σ' = heap_rooms σ
  /\ forall d, nick_of σ' d = nick_of σ d.

(** ** Well-formed states *)

(** Heap well-formedness: the typing facts Go guarantees (pointers stored
    in the registry, in member lists and in the pending command refer to
    allocated objects) and what the constructors establish. *)
Record wf (σ : State) : Prop := mkWf {
  wf_rooms : forall name room, server_rooms σ !! name = Some room ->
             exists r, heap_rooms σ !! room = Some r /\ room_name r = name;
  wf_members : forall room r c, heap_rooms σ !! room = Some r ->
               c ∈ room_clients r -> c < length (heap_clients σ);
  wf_cmd : forall cmd, server_cmd σ = Some cmd ->
           cmd_client cmd < length (heap_clients σ);
  wf_cmd_nick : forall c n, server_cmd σ = Some (NickCommand c n) -> word n;
  wf_chans : forall c cl, heap_clients σ !! c = Some cl ->
             chan_closed (client_incoming cl) = chan_closed (client_outgoing cl);
}.

(** ** Runs of the server *)

(** Zero or more steps of the running server. *)
Inductive steps : State -> State -> Prop :=
| steps_refl σ : steps σ σ
| steps_step σ e σ1 σ2 : step e σ = Some (Ok σ1) -> steps σ1 σ2 -> steps σ σ2.

(** The lines [client.Read] handed over for client [c] during a schedule. *)
Fixpoint lines_read (c : ClientPtr) (es : list Event) : list string :=
  match es with
  | [] => []
  | ReadLine c' s :: es' =>
      if Nat.eqb c' c then s :: lines_read c es' else lines_read c es'
  | _ :: es' => lines_read c es'
  end.

(** The commands whose [Run] the dispatcher goroutine started during a
    schedule from [σ], oldest first. *)
Fixpoint ran (es : list Event) (σ : State) : list Command :=
  match es with
  | [] => []
  | e :: es' =>
      let now :=
        match e, server_cmd σ with
        | Dispatch, Some cmd => [cmd]
        | _, _ => []
        end in
      match step e σ with
      | Some (Ok σ') => (now ++ ran es' σ')%list
      | Some _ => now
      | None => []
      end
  end.

(** The commands handed over on [server.incoming] during a schedule from
    [σ], oldest first. *)
Fixpoint handed (es : list Event) (σ : State) : list Command :=
  match es with
  | [] => []
  | e :: es' =>
      match step e σ with
      | Some (Ok σ') =>
          match e, server_cmd σ, server_cmd σ' with
          | Ingest _, None, Some cmd => (cmd :: handed es' σ')%list
          | _, _, _ => handed es' σ'
          end
      | _ => []
      end
  end.

(** The command the dispatcher holds, as a list. *)
Definition pending_cmd (σ : State) : list Command :=
  match server_cmd σ with
  | Some cmd => [cmd]
  | None => []
  end.

(** The command the ingest goroutine of [c] is about to hand over, as a
    list. *)
Definition pending_line (σ : State) (c : ClientPtr) : list Command :=
  match held_line σ c with
  | Some l =>
      match parseCommand c l with
      | Some cmd => [cmd]
      | None => []
      end
  | None => []
  end.

(** The commands of a list that come from client [c]. *)
Definition from_client (c : ClientPtr) (cmds : list Command) : list Command :=
  filter (fun cmd => cmd_client cmd = c) cmds.

(** The clients that joined the room [name], in the order of the [join]
    commands of a list of commands. *)
Fixpoint joiners (name : string) (cmds : list Command) : list ClientPtr :=
  match cmds with
  | [] => []
  | JoinCommand c n :: rest =>
      if String.eqb n name then c :: joiners name rest else joiners name rest
  | _ :: rest => joiners name rest
  end.

(** The nickname of client [c] after the [nick] commands of a list of
    commands, starting from [cur]. *)
Fixpoint nick_after (cur : string) (c : ClientPtr) (cmds : list Command) : string :=
  match cmds with
  | [] => cur
  | NickCommand c' n :: rest => nick_after (if decide (c = c') then n else cur) c rest
  | _ :: rest => nick_after cur c rest
  end.

(** ** Auxiliary definitions of the proofs *)

(** The first byte of [s], if any, is outside the class. *)
Definition stops (p : ascii -> bool) (s : string) : Prop :=
  match s with
  | EmptyString => True
  | String c _ => p c = false
  end.

(** The two one-group patterns [<kw>(\w+)\n$]. *)
Definition keyword_re (kw : string) : Regexp :=
  RCat (RLit kw) (RCat (RGroup (RPlus ClassWord)) (RCat (RLit nl) REnd)).

(** The state after [line] has been handed over on the outgoing channel of
    [c]. *)
Definition push (c : ClientPtr) (line : string) (σ : State) : State :=
  match heap_clients σ !! c with
  | None => σ
  | Some cl =>
      set_heap_clients
        (<[c := set_outgoing
                  {| chan_closed := chan_closed (client_outgoing cl);
                     chan_sent := (chan_sent (client_outgoing cl) ++ [line])%list |}
                  cl]> (heap_clients σ)) σ
  end.

Fixpoint push_all (cs : list ClientPtr) (line : string) (σ : State) : State :=
  match cs with
  | [] => σ
  | c :: cs' => push_all cs' line (push c line σ)
  end.

(** ** Concrete schedules *)

Definition scenario : list Event :=
  [Accept; Accept;
   ReadLine 0 ("nick alice" +:+ nl); Ingest 0; Dispatch;
   ReadLine 0 ("join lobby" +:+ nl); Ingest 0; Dispatch;
   ReadLine 1 ("nick bob" +:+ nl); Ingest 1; Dispatch;
   ReadLine 1 ("join lobby" +:+ nl); Ingest 1; Dispatch;
   ReadLine 0 ("msg lobby hi all" +:+ nl); Ingest 0; Dispatch].

Definition after (es : list Event) : State :=
  match exec es NewChatServer with
  | Some (Ok σ) | Some (Panic σ) | Some (Fatal σ) => σ
  | None => NewChatServer
  end.

(** Schedules used as concrete inputs.  Three clients; client 0 is [ann];
    all three join [r]; then the connection of client 1 breaks. *)
Definition broken_member : list Event :=
  [Accept; Accept; Accept;
   ReadLine 0 ("nick ann" +:+ nl); Ingest 0; Dispatch;
   ReadLine 0 ("join r" +:+ nl); Ingest 0; Dispatch;
   ReadLine 1 ("join r" +:+ nl); Ingest 1; Dispatch;
   ReadLine 2 ("join r" +:+ nl); Ingest 2; Dispatch;
   ReadError 1].

(** As [broken_member], and client 0 has sent [msg r hello], which waits
    for the dispatcher. *)
Definition broken_member_msg : list Event :=
  broken_member ++ [ReadLine 0 ("msg r hello" +:+ nl); Ingest 0].

(** One client; its message to a room that does not exist waits for the
    dispatcher when its connection breaks. *)
Definition broken_sender_no_room : list Event :=
  [Accept; ReadLine 0 ("msg nosuchroom text" +:+ nl); Ingest 0; ReadError 0].

(** One client without a nickname joins [r]; its message to [r] waits for
    the dispatcher when its connection breaks. *)
Definition broken_sender_no_nick : list Event :=
  [Accept; ReadLine 0 ("join r" +:+ nl); Ingest 0; Dispatch;
   ReadLine 0 ("msg r hi" +:+ nl); Ingest 0; ReadError 0].

(** One client; the ingest goroutine holds a line that is no command when
    the connection breaks. *)
Definition broken_sender_invalid : list Event :=
  [Accept; ReadLine 0 ("hello" +:+ nl); ReadError 0].

(** Client 1 joins [r], client 0 joins [r] twice and is [zed]; the
    connection of client 1 breaks; the message of client 0 to [r] waits for
    the dispatcher. *)
Definition broken_before_twice : list Event :=
  [Accept; Accept;
   ReadLine 1 ("join r" +:+ nl); Ingest 1; Dispatch;
   ReadLine 0 ("join r" +:+ nl); Ingest 0; Dispatch;
   ReadLine 0 ("join r" +:+ nl); Ingest 0; Dispatch;
   ReadLine 0 ("nick zed" +:+ nl); Ingest 0; Dispatch;
   ReadError 1;
   ReadLine 0 ("msg r hi" +:+ nl); Ingest 0].

(** Two clients; client 0 joins [r], client 1 is [bob]; the connection of
    client 0 breaks; then client 1 sends a message to [r]. *)
Definition read_error_then_message : list Event :=
  [Accept; Accept;
   ReadLine 0 ("join r" +:+ nl); Ingest 0; Dispatch;
   ReadLine 1 ("nick bob" +:+ nl); Ingest 1; Dispatch;
   ReadError 0;
   ReadLine 1 ("msg r hi" +:+ nl); Ingest 1; Dispatch].

(** As [read_error_then_message], but the connection of client 0 stays
    up. *)
Definition message_without_read_error : list Event :=
  [Accept; Accept;
   ReadLine 0 ("join r" +:+ nl); Ingest 0; Dispatch;
   ReadLine 1 ("nick bob" +:+ nl); Ingest 1; Dispatch;
   ReadLine 1 ("msg r hi" +:+ nl); Ingest 1; Dispatch].

(** ** Vocabulary of the further properties *)

(** What the fields of a command of the parser look like. *)
Definition cmd_ok (cmd : Command) : Prop :=
  match cmd with
  | NickCommand _ n => word n
  | JoinCommand _ r => word r
  | MsgCommand _ r t => word r /\ t <> "" /\ string_forall is_dot t = true
  end.

(** Any byte but the space. *)
Definition not_space (c : ascii) : bool := negb (Ascii.eqb c " ").

(** The three closed flags of a client: connection, incoming channel,
    outgoing channel. *)
Definition flags (cl : Client) : bool * bool * bool :=
  (client_conn_closed cl, chan_closed (client_incoming cl),
   chan_closed (client_outgoing cl)).

(** The lines a step can hand to clients: the invalid-command reply to the
    line the ingest goroutine holds, or one of the three lines of
    [Broadcast] for the message the dispatcher holds. *)
Definition step_lines (e : Event) (σ : State) : list string :=
  match e with
  | Ingest c =>
      match held_line σ c with
      | Some l => [err_invalid l]
      | None => []
      end
  | Dispatch =>
      match server_cmd σ with
      | Some (MsgCommand from name msg) =>
          [err_no_room; err_no_nick; msgFmt name (nick_of σ from) msg]
      | _ => []
      end
  | _ => []
  end.

(** What holds of the texts of a state of the running server. *)
Record text_inv (σ : State) : Prop := mkTextInv {
  ti_cmd : forall cmd, server_cmd σ = Some cmd -> cmd_ok cmd;
  ti_nick : forall c, string_forall is_word (nick_of σ c) = true;
  ti_held : forall c l, held_line σ c = Some l -> is_line l = true;
  ti_delivered : forall c x, x ∈ delivered σ c -> is_line x = true;
  ti_names : forall name room, server_rooms σ !! name = Some room -> word name;
}.

(** What holds of the registry and the room objects of a state of the
    running server. *)
Record registry_inv (σ : State) : Prop := mkRegistryInv {
  ri_nonempty : forall name room, server_rooms σ !! name = Some room ->
                members σ name <> [];
  ri_bound : forall room r, heap_rooms σ !! room = Some r ->
             server_rooms σ !! room_name r = Some room;
}.

(** The number of connections accepted during a schedule. *)
Fixpoint accepts (es : list Event) : nat :=
  match es with
  | [] => 0
  | Accept :: es' => S (accepts es')
  | _ :: es' => accepts es'
  end.

(** The client [NewClient] allocates. *)
Definition fresh_client : Client :=
  {| client_conn_closed := false; client_incoming := make_chan;
     client_outgoing := make_chan; client_nick := ""; client_msg := None |}.

(** The client [client.Read] leaves behind after a read error. *)
Definition torn_down (cl : Client) : Client :=
  {| client_conn_closed := true;
     client_incoming := {| chan_closed := true; chan_sent := chan_sent (client_incoming cl) |};
     client_outgoing := {| chan_closed := true; chan_sent := chan_sent (client_outgoing cl) |};
     client_nick := client_nick cl; client_msg := client_msg cl |}.

(** The same clients, in the same list of the server, with the same closed
    flags. *)
Definition keeps_clients (σ σ' : State) : Prop :=
  server_clients σ' = server_clients σ
  /\ length (heap_clients σ') = length (heap_clients σ)
  /\ forall d cl, heap_clients σ !! d = Some cl ->
       exists cl', heap_clients σ' !! d = Some cl' /\ flags cl' = flags cl.

(** The lines the server writes: the two error lines of [Broadcast], the
    reply to a line that is no command, and the line of a broadcast. *)
Definition server_line (x : string) : Prop :=
  x = err_no_room \/ x = err_no_nick
  \/ (exists l, x = err_invalid l /\ is_line l = true
                /\ forall c, parseCommand c l = None)
  \/ (exists r n t, x = msgFmt r n t /\ word r /\ word n
                    /\ t <> "" /\ string_forall is_dot t = true).

(** No client of the state has terminated. *)
Definition all_up (σ : State) : Prop := forall c, terminated σ c = false.

(** The schedule holds no read error. *)
Definition no_read_error (es : list Event) : bool :=
  forallb (fun e => match e with ReadError _ => false | _ => true end) es.

(** * Properties *)

(** ** Strings and the matcher *)

#[local] Arguments String.append !_ _ / : simpl nomatch.

Section Strings.

Lemma append_nil_r (s : string) : s +:+ "" = s.
Proof. induction s as [|a s IH]; [reflexivity | cbn; f_equal; exact IH]. Qed.

Lemma append_assoc (a b c : string) : (a +:+ b) +:+ c = a +:+ b +:+ c.
Proof. induction a as [|x a IH]; [reflexivity | cbn; f_equal; exact IH]. Qed.

Lemma length_append (a b : string) :
  String.length (a +:+ b) = String.length a + String.length b.
Proof. induction a as [|x a IH]; [reflexivity | cbn; f_equal; exact IH]. Qed.

Lemma prefix_of_append (a b : string) :
  prefix_of (String.length (a +:+ b) - String.length b) (a +:+ b) = a.
Proof.
  rewrite length_append.
  replace (String.length a + String.length b - String.length b)
    with (String.length a) by lia.
  unfold prefix_of. induction a as [|x a IH]; simpl.
  - destruct b; reflexivity.
  - now rewrite IH.
Qed.

Lemma prefix_of_whole (a : string) :
  prefix_of (String.length a - String.length "") a = a.
Proof.
  pose proof (prefix_of_append a "") as H. rewrite append_nil_r in H. exact H.
Qed.

Lemma prefix_of_length (a : string) : prefix_of (String.length a) a = a.
Proof.
  pose proof (prefix_of_whole a) as H. cbn [String.length] in H.
  now rewrite Nat.sub_0_r in H.
Qed.

Lemma strip_prefix_Some (p s r : string) :
  strip_prefix p s = Some r <-> s = p +:+ r.
Proof.
  revert s. induction p as [|a p IH]; intros s; simpl.
  - split; [intros [= ->]; reflexivity | intros ->; reflexivity].
  - destruct s as [|b s].
    + split; [discriminate | discriminate].
    + destruct (Ascii.eqb_spec a b) as [->|Hne].
      * rewrite IH. split; [intros ->; reflexivity | intros [= ->]; reflexivity].
      * split; [discriminate | intros [= E _]; congruence].
Qed.

Lemma strip_prefix_append (p r : string) : strip_prefix p (p +:+ r) = Some r.
Proof. now apply strip_prefix_Some. Qed.

Lemma string_forall_append (p : ascii -> bool) (a b : string) :
  string_forall p (a +:+ b) = string_forall p a && string_forall p b.
Proof.
  induction a as [|x a IH]; simpl; [reflexivity|].
  rewrite IH. now rewrite andb_assoc.
Qed.

(** A successful [plus_k] consumed a non-empty run of the class and ran the
    continuation on what follows it. *)
Lemma plus_k_Some {A : Type} (p : ascii -> bool) (s : string)
    (k : string -> option A) (r : A) :
  plus_k p s k = Some r ->
  exists w rest, s = w +:+ rest /\ w <> "" /\ string_forall p w = true
                 /\ k rest = Some r.
Proof.
  revert r. induction s as [|c s IH]; intros r; simpl; [discriminate|].
  destruct (p c) eqn:Hc; [|discriminate].
  destruct (plus_k p s k) as [r'|] eqn:Hrec.
  - intros [= <-]. destruct (IH r' eq_refl) as (w & rest & -> & Hw & Hall & Hk).
    exists (String c w), rest. simpl. rewrite Hc, Hall. done.
  - intros Hk. exists (String c ""), s. simpl. rewrite Hc. done.
Qed.

(** When the run of the class ends where the continuation succeeds, the
    greedy search returns that very result. *)
Lemma plus_k_greedy {A : Type} (p : ascii -> bool) (w rest : string)
    (k : string -> option A) (r : A) :
  w <> "" -> string_forall p w = true -> stops p rest -> k rest = Some r ->
  plus_k p (w +:+ rest) k = Some r.
Proof.
  intros Hne Hall Hstop Hk. induction w as [|c w IH]; [congruence|].
  simpl in *. apply andb_prop in Hall as [Hc Hall]. rewrite Hc.
  destruct w as [|c' w].
  - simpl. destruct rest as [|x rest]; simpl in *; [exact Hk|].
    rewrite Hstop. exact Hk.
  - rewrite IH; [reflexivity | discriminate | exact Hall].
Qed.

Lemma is_word_not_newline : is_word newline = false.
Proof. reflexivity. Qed.

Lemma is_word_not_space : is_word " "%char = false.
Proof. reflexivity. Qed.

Lemma is_dot_not_newline : is_dot newline = false.
Proof. reflexivity. Qed.

End Strings.

Section Matcher.

Lemma match_here_keyword (kw t : string) (m : list string) :
  match_here (keyword_re kw) t = Some m ->
  exists w, word w /\ t = kw +:+ w +:+ nl /\ m = [t; w].
Proof.
  unfold match_here, keyword_re. cbn [match_k class_test].
  destruct (strip_prefix kw t) as [t1|] eqn:Hp; [|discriminate].
  apply strip_prefix_Some in Hp. subst t.
  intros H. apply plus_k_Some in H as (w & rest & -> & Hne & Hall & Hk).
  destruct (strip_prefix nl rest) as [rest'|] eqn:Hnl; [|discriminate].
  apply strip_prefix_Some in Hnl. subst rest.
  destruct rest' as [|? ?]; [|discriminate].
  injection Hk as <-. exists w. split; [split; assumption|]. split; [reflexivity|].
  cbn [app]. rewrite prefix_of_append, prefix_of_whole. reflexivity.
Qed.

Lemma match_here_keyword_complete (kw w : string) :
  word w ->
  match_here (keyword_re kw) (kw +:+ w +:+ nl) = Some [kw +:+ w +:+ nl; w].
Proof.
  intros [Hne Hall]. unfold match_here, keyword_re. cbn [match_k class_test].
  rewrite strip_prefix_append.
  erewrite plus_k_greedy; [reflexivity | exact Hne | exact Hall | exact is_word_not_newline |].
  change (strip_prefix nl nl) with (Some ""). cbn [app].
  rewrite prefix_of_append, prefix_of_whole. reflexivity.
Qed.

Lemma match_here_msg (t : string) (m : list string) :
  match_here msgRegexp t = Some m ->
  exists w rest, word w /\ rest <> "" /\ string_forall is_dot rest = true
                 /\ t = "msg " +:+ w +:+ " " +:+ rest +:+ nl /\ m = [t; w; rest].
Proof.
  unfold match_here, msgRegexp. cbn [match_k class_test].
  destruct (strip_prefix "msg " t) as [t1|] eqn:Hp; [|discriminate].
  apply strip_prefix_Some in Hp. subst t.
  intros H. apply plus_k_Some in H as (w & r1 & -> & Hne & Hall & Hk).
  destruct (strip_prefix " " r1) as [r2|] eqn:Hsp; [|discriminate].
  apply strip_prefix_Some in Hsp. subst r1.
  apply plus_k_Some in Hk as (rest & r3 & -> & Hne' & Hall' & Hk).
  destruct (strip_prefix nl r3) as [r4|] eqn:Hnl; [|discriminate].
  apply strip_prefix_Some in Hnl. subst r3.
  destruct r4 as [|? ?]; [|discriminate].
  injection Hk as <-. exists w, rest. split; [split; assumption|].
  repeat (split; [assumption|]). split; [reflexivity|].
  cbn [app]. rewrite !prefix_of_append. f_equal.
  rewrite append_nil_r.
  exact (prefix_of_length ("msg " +:+ w +:+ " " +:+ rest +:+ nl)).
Qed.

Lemma match_here_msg_complete (w rest : string) :
  word w -> rest <> "" -> string_forall is_dot rest = true ->
  match_here msgRegexp ("msg " +:+ w +:+ " " +:+ rest +:+ nl)
  = Some ["msg " +:+ w +:+ " " +:+ rest +:+ nl; w; rest].
Proof.
  intros [Hne Hall] Hne' Hall'. unfold match_here, msgRegexp.
  cbn [match_k class_test]. rewrite strip_prefix_append.
  erewrite plus_k_greedy;
    [reflexivity | exact Hne | exact Hall | exact is_word_not_space |].
  rewrite strip_prefix_append.
  erewrite plus_k_greedy;
    [reflexivity | exact Hne' | exact Hall' | exact is_dot_not_newline |].
  change (strip_prefix nl nl) with (Some ""). cbn [app].
  rewrite !prefix_of_append. f_equal. f_equal.
  exact (prefix_of_length ("msg " +:+ w +:+ " " +:+ rest +:+ nl)).
Qed.

(** [FindStringSubmatch] succeeds exactly when some suffix matches from its
    first byte, and it returns the match of such a suffix. *)
Lemma Find_Some (re : Regexp) (l : string) (m : list string) :
  FindStringSubmatch re l = Some m ->
  exists p t, l = p +:+ t /\ match_here re t = Some m.
Proof.
  induction l as [|c l IH]; cbn [FindStringSubmatch].
  - destruct (match_here re "") eqn:H; [|discriminate].
    intros [= <-]. exists "", "". split; [reflexivity | exact H].
  - destruct (match_here re (String c l)) eqn:H.
    + intros [= <-]. exists "", (String c l). split; [reflexivity | exact H].
    + intros H'. destruct (IH H') as (p & t & -> & Ht).
      exists (String c p), t. split; [reflexivity | exact Ht].
Qed.

Lemma Find_complete (re : Regexp) (p t : string) :
  is_Some (match_here re t) -> is_Some (FindStringSubmatch re (p +:+ t)).
Proof.
  intros Ht. induction p as [|c p IH].
  - change ("" +:+ t) with t. destruct t as [|c t]; cbn [FindStringSubmatch].
    + destruct (match_here re ""); [eauto | now destruct Ht].
    + destruct (match_here re (String c t)); [eauto | now destruct Ht].
  - change (String c p +:+ t) with (String c (p +:+ t)).
    cbn [FindStringSubmatch].
    destruct (match_here re (String c (p +:+ t))); [eauto | exact IH].
Qed.

Lemma nickRegexp_keyword : nickRegexp = keyword_re "nick ".
Proof. reflexivity. Qed.

Lemma joinRegexp_keyword : joinRegexp = keyword_re "join ".
Proof. reflexivity. Qed.

Lemma match_here_shape (t : string) :
  (is_Some (match_here nickRegexp t) <-> nick_shape t)
  /\ (is_Some (match_here joinRegexp t) <-> join_shape t)
  /\ (is_Some (match_here msgRegexp t) <-> msg_shape t).
Proof.
  rewrite nickRegexp_keyword, joinRegexp_keyword. repeat split.
  - intros [m Hm]. apply match_here_keyword in Hm as (w & Hw & -> & _).
    exists w. split; [exact Hw | reflexivity].
  - intros (w & Hw & ->). rewrite (match_here_keyword_complete "nick " w Hw). eauto.
  - intros [m Hm]. apply match_here_keyword in Hm as (w & Hw & -> & _).
    exists w. split; [exact Hw | reflexivity].
  - intros (w & Hw & ->). rewrite (match_here_keyword_complete "join " w Hw). eauto.
  - intros [m Hm]. apply match_here_msg in Hm as (w & rest & Hw & Hr & Hd & -> & _).
    exists w, rest. repeat (split; [assumption|]). reflexivity.
  - intros (w & rest & Hw & Hr & Hd & ->).
    rewrite (match_here_msg_complete w rest Hw Hr Hd). eauto.
Qed.

(** The parser returns a command exactly for the lines that end in one of
    the three shapes. *)
Lemma parseCommand_Some_iff (c : ClientPtr) (l : string) :
  is_Some (parseCommand c l) <->
  exists p t, l = p +:+ t /\ command_shape t.
Proof.
  unfold parseCommand, command_shape. split.
  - destruct (FindStringSubmatch nickRegexp l) as [m|] eqn:Hn.
    { intros _. apply Find_Some in Hn as (p & t & -> & Hm).
      exists p, t. split; [reflexivity|]. left. apply match_here_shape. eauto. }
    destruct (FindStringSubmatch joinRegexp l) as [m|] eqn:Hj.
    { intros _. apply Find_Some in Hj as (p & t & -> & Hm).
      exists p, t. split; [reflexivity|]. right. left. apply match_here_shape. eauto. }
    destruct (FindStringSubmatch msgRegexp l) as [m|] eqn:Hm.
    { intros _. apply Find_Some in Hm as (p & t & -> & Hm).
      exists p, t. split; [reflexivity|]. right. right. apply match_here_shape. eauto. }
    intros [? [=]].
  - intros (p & t & -> & [H | [H | H]]).
    + apply match_here_shape in H. apply (Find_complete _ p) in H as [m ->]. eauto.
    + destruct (FindStringSubmatch nickRegexp (p +:+ t)); [eauto|].
      apply match_here_shape in H. apply (Find_complete _ p) in H as [m ->]. eauto.
    + destruct (FindStringSubmatch nickRegexp (p +:+ t)); [eauto|].
      destruct (FindStringSubmatch joinRegexp (p +:+ t)); [eauto|].
      apply match_here_shape in H. apply (Find_complete _ p) in H as [m ->]. eauto.
Qed.

(** A [NickCommand] of the parser is for the client that sent the line and
    carries the word that follows the last [nick ]. *)
Lemma parseCommand_nick (c c' : ClientPtr) (l n : string) :
  parseCommand c l = Some (NickCommand c' n) ->
  c' = c /\ word n /\ exists p, l = p +:+ "nick " +:+ n +:+ nl.
Proof.
  unfold parseCommand.
  destruct (FindStringSubmatch nickRegexp l) as [m|] eqn:Hn.
  - intros [= <- <-]. apply Find_Some in Hn as (p & t & -> & Hm).
    rewrite nickRegexp_keyword in Hm.
    apply match_here_keyword in Hm as (w & Hw & -> & ->).
    split; [reflexivity|]. split; [exact Hw|]. exists p. reflexivity.
  - destruct (FindStringSubmatch joinRegexp l); [discriminate|].
    destruct (FindStringSubmatch msgRegexp l); discriminate.
Qed.

Lemma parseCommand_client (c : ClientPtr) (l : string) (cmd : Command) :
  parseCommand c l = Some cmd -> cmd_client cmd = c.
Proof.
  unfold parseCommand.
  destruct (FindStringSubmatch nickRegexp l); [intros [= <-]; reflexivity|].
  destruct (FindStringSubmatch joinRegexp l); [intros [= <-]; reflexivity|].
  destruct (FindStringSubmatch msgRegexp l); [intros [= <-]; reflexivity|discriminate].
Qed.

End Matcher.

(** ** Sending *)

Section Sending.

Lemma push_server_rooms c line σ : server_rooms (push c line σ) = server_rooms σ.
Proof. unfold push. now destruct (heap_clients σ !! c). Qed.

Lemma push_heap_rooms c line σ : heap_rooms (push c line σ) = heap_rooms σ.
Proof. unfold push. now destruct (heap_clients σ !! c). Qed.

Lemma push_server_cmd c line σ : server_cmd (push c line σ) = server_cmd σ.
Proof. unfold push. now destruct (heap_clients σ !! c). Qed.

Lemma push_server_clients c line σ : server_clients (push c line σ) = server_clients σ.
Proof. unfold push. now destruct (heap_clients σ !! c). Qed.

Lemma push_length c line σ :
  length (heap_clients (push c line σ)) = length (heap_clients σ).
Proof.
  unfold push. destruct (heap_clients σ !! c); [|reflexivity].
  cbn. apply length_insert.
Qed.

(** Handing over a line changes the outgoing payload of [c] and nothing
    else. *)
Lemma push_lookup c line σ d :
  heap_clients (push c line σ) !! d =
  (fun cl =>
     if decide (d = c) then
       set_outgoing {| chan_closed := chan_closed (client_outgoing cl);
                       chan_sent := (chan_sent (client_outgoing cl) ++ [line])%list |} cl
     else cl) <$> heap_clients σ !! d.
Proof.
  unfold push. destruct (heap_clients σ !! c) as [cl|] eqn:Hc.
  - cbn [heap_clients set_heap_clients]. destruct (decide (d = c)) as [->|Hne].
    + rewrite list_lookup_insert_eq by (eapply lookup_lt_Some; eauto).
      rewrite Hc. reflexivity.
    + rewrite list_lookup_insert_ne by congruence.
      destruct (heap_clients σ !! d); reflexivity.
  - destruct (decide (d = c)) as [->|Hne].
    + rewrite Hc. reflexivity.
    + destruct (heap_clients σ !! d); reflexivity.
Qed.

Lemma push_nick_of c line σ d : nick_of (push c line σ) d = nick_of σ d.
Proof.
  unfold nick_of. rewrite push_lookup.
  destruct (heap_clients σ !! d); [|reflexivity]. cbn. now case_decide.
Qed.

Lemma push_live c line σ d : live (push c line σ) d = live σ d.
Proof.
  unfold live. rewrite push_lookup.
  destruct (heap_clients σ !! d); [|reflexivity]. cbn. now case_decide.
Qed.

Lemma push_terminated c line σ d : terminated (push c line σ) d = terminated σ d.
Proof.
  unfold terminated. rewrite push_lookup.
  destruct (heap_clients σ !! d); [|reflexivity]. cbn. now case_decide.
Qed.

Lemma push_delivered c line σ d :
  c < length (heap_clients σ) ->
  delivered (push c line σ) d =
  (delivered σ d ++ if decide (d = c) then [line] else [])%list.
Proof.
  intros Hc. unfold delivered. rewrite push_lookup.
  destruct (heap_clients σ !! d) as [cl|] eqn:Hd; cbn.
  - case_decide; cbn; [reflexivity | now rewrite app_nil_r].
  - case_decide; [|reflexivity]. subst d.
    apply lookup_ge_None in Hd. lia.
Qed.

Lemma push_shared_unchanged c line σ : shared_unchanged σ (push c line σ).
Proof.
  split; [apply push_server_rooms|]. split; [apply push_heap_rooms|].
  intros d. apply push_nick_of.
Qed.

Lemma live_lt σ c : live σ c = true -> c < length (heap_clients σ).
Proof.
  unfold live. destruct (heap_clients σ !! c) eqn:H; [|discriminate].
  intros _. eapply lookup_lt_Some; eauto.
Qed.

Lemma terminated_not_live σ c : terminated σ c = true -> live σ c = false.
Proof.
  unfold terminated, live. destruct (heap_clients σ !! c); [|discriminate].
  now intros ->.
Qed.

(** [client.outgoing <- line] hands the line over when the channel is open
    and panics otherwise. *)
Lemma send_push c line σ :
  send c line σ = if live σ c then Ok (push c line σ) else Panic σ.
Proof.
  unfold send, live, push, chan_send.
  destruct (heap_clients σ !! c) as [cl|]; [|reflexivity].
  now destruct (chan_closed (client_outgoing cl)).
Qed.

Lemma push_all_shared_unchanged cs line σ : shared_unchanged σ (push_all cs line σ).
Proof.
  revert σ. induction cs as [|c cs IH]; intros σ; cbn.
  - split; [|split]; reflexivity.
  - destruct (IH (push c line σ)) as (H1 & H2 & H3).
    destruct (push_shared_unchanged c line σ) as (G1 & G2 & G3).
    split; [congruence|]. split; [congruence|]. intros d. now rewrite H3.
Qed.

Lemma push_all_live cs line σ d : live (push_all cs line σ) d = live σ d.
Proof.
  revert σ. induction cs as [|c cs IH]; intros σ; cbn; [reflexivity|].
  now rewrite IH, push_live.
Qed.

Lemma push_all_length cs line σ :
  length (heap_clients (push_all cs line σ)) = length (heap_clients σ).
Proof.
  revert σ. induction cs as [|c cs IH]; intros σ; cbn; [reflexivity|].
  now rewrite IH, push_length.
Qed.

Lemma push_all_server_cmd cs line σ : server_cmd (push_all cs line σ) = server_cmd σ.
Proof.
  revert σ. induction cs as [|c cs IH]; intros σ; cbn; [reflexivity|].
  now rewrite IH, push_server_cmd.
Qed.

Lemma entries_cons d c cs :
  entries d (c :: cs) = (if decide (c = d) then 1 else 0) + entries d cs.
Proof.
  unfold entries. rewrite filter_cons. case_decide; reflexivity.
Qed.

Lemma entries_app d l1 l2 : entries d (l1 ++ l2) = entries d l1 + entries d l2.
Proof. unfold entries. now rewrite filter_app, length_app. Qed.

Lemma entries_not_in d cs : d ∉ cs -> entries d cs = 0.
Proof.
  induction cs as [|c cs IH]; intros Hd; [reflexivity|].
  rewrite entries_cons. rewrite not_elem_of_cons in Hd. destruct Hd as [Hne Hd].
  case_decide; [congruence|]. now rewrite IH.
Qed.

(** Every entry of the list gets the line once. *)
Lemma push_all_delivered cs line σ d :
  (forall c, c ∈ cs -> c < length (heap_clients σ)) ->
  delivered (push_all cs line σ) d
  = (delivered σ d ++ replicate (entries d cs) line)%list.
Proof.
  revert σ. induction cs as [|c cs IH]; intros σ Hcs; cbn [push_all].
  - cbn. now rewrite app_nil_r.
  - rewrite IH.
    + rewrite push_delivered by (apply Hcs; left).
      rewrite entries_cons, <- app_assoc. f_equal.
      destruct (decide (d = c)) as [->|Hne].
      * rewrite decide_True by reflexivity. reflexivity.
      * rewrite decide_False by congruence. reflexivity.
    + intros c' Hc'. rewrite push_length. apply Hcs. now right.
Qed.

(** The loop over a member list whose entries are all live completes. *)
Lemma send_all_live cs line σ :
  (forall c, c ∈ cs -> live σ c = true) ->
  send_all cs line σ = Ok (push_all cs line σ).
Proof.
  revert σ. induction cs as [|c cs IH]; intros σ Hcs; cbn; [reflexivity|].
  rewrite send_push, Hcs by left. cbn. apply IH.
  intros c' Hc'. rewrite push_live. apply Hcs. now right.
Qed.


End Sending.

(** ** The registry and the rooms *)

Section Rooms.

Lemma wf_registry_inj σ n1 n2 room :
  wf σ -> server_rooms σ !! n1 = Some room -> server_rooms σ !! n2 = Some room ->
  n1 = n2.
Proof.
  intros Hwf H1 H2.
  destruct (wf_rooms σ Hwf _ _ H1) as (r1 & Hr1 & <-).
  destruct (wf_rooms σ Hwf _ _ H2) as (r2 & Hr2 & <-).
  congruence.
Qed.

Lemma JoinRoom_bound name c σ room r :
  server_rooms σ !! name = Some room -> heap_rooms σ !! room = Some r ->
  JoinRoom name c σ =
  Ok (set_heap_rooms
        (<[room := {| room_name := room_name r;
                      room_clients := room_clients r ++ [c] |}]> (heap_rooms σ)) σ).
Proof. intros H1 H2. unfold JoinRoom, AddClient. now rewrite H1, H2. Qed.

Lemma JoinRoom_absent name c σ :
  server_rooms σ !! name = None ->
  JoinRoom name c σ =
  Ok {| server_clients := server_clients σ;
        server_rooms := <[name := length (heap_rooms σ)]> (server_rooms σ);
        server_cmd := server_cmd σ;
        heap_clients := heap_clients σ;
        heap_rooms := heap_rooms σ ++ [{| room_name := name; room_clients := [c] |}] |}.
Proof.
  intros H. unfold JoinRoom, NewRoom, AddClient. rewrite H. cbn.
  rewrite lookup_app_r, Nat.sub_diag by lia. cbn.
  rewrite insert_app_r_alt, Nat.sub_diag by lia. reflexivity.
Qed.

(** What [JoinRoom] does to a well-formed state. *)
Lemma JoinRoom_spec name c σ :
  wf σ -> c < length (heap_clients σ) ->
  exists σ',
    JoinRoom name c σ = Ok σ' /\ wf σ'
    /\ heap_clients σ' = heap_clients σ
    /\ server_cmd σ' = server_cmd σ
    /\ server_clients σ' = server_clients σ
    /\ members σ' name = members σ name ++ [c]
    /\ (forall n, n <> name -> members σ' n = members σ n)
    /\ server_rooms σ' =
       match server_rooms σ !! name with
       | Some _ => server_rooms σ
       | None => <[name := length (heap_rooms σ)]> (server_rooms σ)
       end
    /\ (forall room r, heap_rooms σ !! room = Some r ->
        exists r', heap_rooms σ' !! room = Some r' /\ room_name r' = room_name r).
Proof.
  intros Hwf Hc. destruct (server_rooms σ !! name) as [room|] eqn:Hn.
  - destruct (wf_rooms σ Hwf _ _ Hn) as (r & Hr & Hname).
    eexists. split; [apply (JoinRoom_bound name c σ room r Hn Hr)|].
    assert (Hlt : room < length (heap_rooms σ)) by (eapply lookup_lt_Some; eauto).
    split; [|repeat split; try reflexivity].
    + constructor; cbn.
      * intros n room' Hn'. destruct (decide (room' = room)) as [->|Hne].
        -- rewrite list_lookup_insert_eq by exact Hlt. eexists. split; [reflexivity|].
           cbn. rewrite Hname. eapply wf_registry_inj; eauto.
        -- rewrite list_lookup_insert_ne by congruence. eapply wf_rooms; eauto.
      * intros room' r' c' Hr' Hc'. destruct (decide (room' = room)) as [->|Hne].
        -- rewrite list_lookup_insert_eq in Hr' by exact Hlt. injection Hr' as <-.
           cbn in Hc'. apply elem_of_app in Hc' as [Hc'|Hc'].
           ++ eapply wf_members; eauto.
           ++ apply list_elem_of_singleton in Hc'. now subst.
        -- rewrite list_lookup_insert_ne in Hr' by congruence. eapply wf_members; eauto.
      * apply (wf_cmd σ Hwf).
      * apply (wf_cmd_nick σ Hwf).
      * apply (wf_chans σ Hwf).
    + unfold members. cbn. rewrite Hn, Hr.
      now rewrite list_lookup_insert_eq by exact Hlt.
    + intros n Hne. unfold members. cbn.
      destruct (server_rooms σ !! n) as [room'|] eqn:Hn'; [|reflexivity].
      rewrite list_lookup_insert_ne; [reflexivity|].
      intros ->. apply Hne. eapply wf_registry_inj; eauto.
    + intros room' r' Hr'. cbn. destruct (decide (room' = room)) as [->|Hne].
      * rewrite list_lookup_insert_eq by exact Hlt. eexists. split; [reflexivity|].
        cbn. congruence.
      * rewrite list_lookup_insert_ne by congruence. eauto.
  - eexists. split; [apply (JoinRoom_absent name c σ Hn)|].
    split; [|repeat split; try reflexivity].
    + constructor; cbn.
      * intros n room' Hn'. destruct (decide (n = name)) as [->|Hne].
        -- rewrite lookup_insert_eq in Hn'. injection Hn' as <-.
           rewrite lookup_app_r, Nat.sub_diag by lia. cbn. eauto.
        -- rewrite lookup_insert_ne in Hn' by congruence.
           destruct (wf_rooms σ Hwf _ _ Hn') as (r & Hr & Hname).
           exists r. split; [|exact Hname]. now apply lookup_app_l_Some.
      * intros room' r' c' Hr' Hc'. apply lookup_app_Some in Hr' as [Hr'|[Hlen Hr']].
        -- eapply wf_members; eauto.
        -- apply list_lookup_singleton_Some in Hr' as [_ <-]. cbn in Hc'.
           apply list_elem_of_singleton in Hc'. now subst.
      * apply (wf_cmd σ Hwf).
      * apply (wf_cmd_nick σ Hwf).
      * apply (wf_chans σ Hwf).
    + unfold members. cbn. rewrite lookup_insert_eq, Hn.
      now rewrite lookup_app_r, Nat.sub_diag by lia.
    + intros n Hne. unfold members. cbn. rewrite lookup_insert_ne by congruence.
      destruct (server_rooms σ !! n) as [room'|] eqn:Hn'; [|reflexivity].
      destruct (wf_rooms σ Hwf _ _ Hn') as (r & Hr & Hname).
      now rewrite (lookup_app_l_Some _ _ _ _ Hr), Hr.
    + intros room' r' Hr'. cbn. exists r'. split; [|reflexivity].
      now apply lookup_app_l_Some.
Qed.

End Rooms.

(** ** Well-formedness is an invariant *)

Section Invariant.

Lemma wf_init : wf NewChatServer.
Proof.
  constructor; cbn.
  - intros name room H. now rewrite lookup_empty in H.
  - intros room r c H. now rewrite lookup_nil in H.
  - discriminate.
  - discriminate.
  - intros c cl H. now rewrite lookup_nil in H.
Qed.

(** Replacing one client by one whose two channels agree on being closed. *)
Lemma wf_update_client σ c cl' :
  wf σ ->
  chan_closed (client_incoming cl') = chan_closed (client_outgoing cl') ->
  wf (set_heap_clients (<[c := cl']> (heap_clients σ)) σ).
Proof.
  intros Hwf Hcl. constructor; cbn.
  - apply (wf_rooms σ Hwf).
  - intros room r d Hr Hd. rewrite length_insert. eapply wf_members; eauto.
  - intros cmd Hcmd. rewrite length_insert. now apply (wf_cmd σ Hwf).
  - apply (wf_cmd_nick σ Hwf).
  - intros d cl Hd. apply list_lookup_insert_Some in Hd as [(-> & <- & _)|[_ Hd]].
    + exact Hcl.
    + eapply wf_chans; eauto.
Qed.

Lemma wf_set_server_cmd_None σ : wf σ -> wf (set_server_cmd None σ).
Proof.
  intros Hwf. constructor; cbn; try discriminate.
  - apply (wf_rooms σ Hwf).
  - apply (wf_members σ Hwf).
  - apply (wf_chans σ Hwf).
Qed.

Lemma wf_push c line σ : wf σ -> wf (push c line σ).
Proof.
  intros Hwf. unfold push. destruct (heap_clients σ !! c) as [cl|] eqn:Hc; [|exact Hwf].
  apply wf_update_client; [exact Hwf|]. cbn. eapply wf_chans; eauto.
Qed.

Lemma wf_push_all cs line σ : wf σ -> wf (push_all cs line σ).
Proof.
  revert σ. induction cs as [|c cs IH]; intros σ Hwf; cbn; [exact Hwf|].
  apply IH, wf_push, Hwf.
Qed.

Lemma wf_clear_msg c σ : wf σ -> wf (clear_msg c σ).
Proof.
  intros Hwf. unfold clear_msg. destruct (heap_clients σ !! c) as [cl|] eqn:Hc; [|exact Hwf].
  apply wf_update_client; [exact Hwf|]. cbn. eapply wf_chans; eauto.
Qed.

(** The loop over a member list ends after handing the line to a prefix of
    the list. *)
Lemma send_all_result cs line σ :
  exists pre post, cs = pre ++ post
    /\ result_state (send_all cs line σ) = push_all pre line σ
    /\ (forall d, d ∈ pre -> live σ d = true)
    /\ match send_all cs line σ with
       | Ok _ => post = []
       | Panic _ => exists c post', post = c :: post' /\ live σ c = false
       | Fatal _ => False
       end.
Proof.
  revert σ. induction cs as [|c cs IH]; intros σ.
  - exists [], []. cbn. repeat split; try reflexivity. intros d Hd. inversion Hd.
  - cbn [send_all]. rewrite send_push. destruct (live σ c) eqn:Hc; cbn [bind].
    + destruct (IH (push c line σ)) as (pre & post & -> & Hst & Hlive & Hres).
      exists (c :: pre), post. split; [reflexivity|]. split; [exact Hst|]. split.
      * intros d Hd. apply elem_of_cons in Hd as [->|Hd]; [exact Hc|].
        rewrite <- (push_live c line). now apply Hlive.
      * destruct (send_all (pre ++ post) line (push c line σ)); [exact Hres| |exact Hres].
        destruct Hres as (c' & post' & -> & Hc'). exists c', post'.
        split; [reflexivity|]. now rewrite <- (push_live c line).
    + exists [], (c :: cs). cbn. repeat split; try reflexivity.
      * intros d Hd. inversion Hd.
      * eauto.
Qed.

Lemma wf_send c line σ : wf σ -> wf (result_state (send c line σ)).
Proof.
  intros Hwf. rewrite send_push. destruct (live σ c); cbn; [now apply wf_push | exact Hwf].
Qed.

Lemma wf_send_all cs line σ : wf σ -> wf (result_state (send_all cs line σ)).
Proof.
  intros Hwf. destruct (send_all_result cs line σ) as (pre & post & _ & -> & _).
  now apply wf_push_all.
Qed.

Lemma wf_Broadcast name from msg σ :
  wf σ -> wf (result_state (Broadcast name from msg σ)).
Proof.
  intros Hwf. unfold Broadcast.
  destruct (server_rooms σ !! name) as [room|]; [|now apply wf_send].
  destruct (heap_clients σ !! from) as [cl|]; [|exact Hwf].
  destruct (String.eqb (client_nick cl) ""); [now apply wf_send|].
  destruct (heap_rooms σ !! room) as [r|]; [|exact Hwf].
  now apply wf_send_all.
Qed.

Lemma wf_Run cmd σ :
  wf σ -> cmd_client cmd < length (heap_clients σ) ->
  wf (result_state (Run cmd σ)).
Proof.
  intros Hwf Hc. destruct cmd as [c n|c room|c room msg]; cbn [Run cmd_client] in *.
  - destruct (heap_clients σ !! c) as [cl|] eqn:Hcl; [|exact Hwf]. cbn.
    apply wf_update_client; [exact Hwf|]. cbn. eapply wf_chans; eauto.
  - destruct (JoinRoom_spec room c σ Hwf Hc) as (σ' & -> & Hwf' & _). exact Hwf'.
  - now apply wf_Broadcast.
Qed.

Lemma wf_Read_error c σ :
  wf σ -> wf (result_state (Read_error c σ)).
Proof.
  intros Hwf. unfold Read_error.
  destruct (heap_clients σ !! c) as [cl|] eqn:Hcl; [|exact Hwf].
  pose proof (wf_chans σ Hwf _ _ Hcl) as Hch.
  unfold chan_close. cbn.
  destruct (chan_closed (client_incoming cl)) eqn:Hin; cbn.
  - apply wf_update_client; [exact Hwf|]. cbn. congruence.
  - rewrite <- Hch. cbn. apply wf_update_client; [exact Hwf|]. reflexivity.
Qed.

(** Every step of the server keeps the state well formed, whether the
    process goes on or ends there. *)
Lemma wf_step e σ r : wf σ -> step e σ = Some r -> wf (result_state r).
Proof.
  intros Hwf. destruct e as [| |c s|c|c|]; cbn [step].
  - intros [= <-]. cbn. constructor; cbn.
    + apply (wf_rooms σ Hwf).
    + intros room r c Hr Hc. rewrite length_app. cbn.
      pose proof (wf_members σ Hwf _ _ _ Hr Hc). lia.
    + intros cmd Hcmd. rewrite length_app. cbn.
      pose proof (wf_cmd σ Hwf _ Hcmd). lia.
    + apply (wf_cmd_nick σ Hwf).
    + intros c cl Hc. apply lookup_app_Some in Hc as [Hc|[_ Hc]].
      * eapply wf_chans; eauto.
      * apply list_lookup_singleton_Some in Hc as [_ <-]. reflexivity.
  - intros [= <-]. exact Hwf.
  - destruct (heap_clients σ !! c) as [cl|] eqn:Hcl; [|discriminate].
    destruct (client_msg cl); [discriminate|].
    unfold chan_send. destruct (chan_closed (client_incoming cl)) eqn:Hin; [discriminate|].
    destruct (is_line s); [|discriminate]. intros [= <-]. cbn.
    apply wf_update_client; [exact Hwf|]. cbn.
    rewrite <- (wf_chans σ Hwf _ _ Hcl). now rewrite Hin.
  - destruct (heap_clients σ !! c) as [cl|]; [|discriminate].
    destruct (chan_closed (client_incoming cl)); [discriminate|].
    intros [= <-]. now apply wf_Read_error.
  - destruct (heap_clients σ !! c) as [cl|] eqn:Hcl; [|discriminate].
    destruct (client_msg cl) as [msg|]; [|discriminate].
    destruct (parseCommand c msg) as [cmd|] eqn:Hp.
    + destruct (server_cmd σ) eqn:Hcmd; [discriminate|]. intros [= <-]. cbn.
      apply wf_clear_msg. constructor; cbn.
      * apply (wf_rooms σ Hwf).
      * apply (wf_members σ Hwf).
      * intros cmd' [= <-]. rewrite (parseCommand_client _ _ _ Hp).
        eapply lookup_lt_Some; eauto.
      * intros c' n [= ->]. now apply parseCommand_nick in Hp.
      * apply (wf_chans σ Hwf).
    + intros [= <-]. pose proof (wf_send c (err_invalid msg) σ Hwf) as Hs.
      destruct (send c (err_invalid msg) σ); cbn in *; try exact Hs.
      now apply wf_clear_msg.
  - destruct (server_cmd σ) as [cmd|] eqn:Hcmd; [|discriminate].
    intros [= <-]. pose proof (wf_Run cmd σ Hwf (wf_cmd σ Hwf _ Hcmd)) as Hr.
    destruct (Run cmd σ); cbn in *; try exact Hr.
    now apply wf_set_server_cmd_None.
Qed.

Lemma reachable_wf σ : reachable σ -> wf σ.
Proof.
  induction 1 as [|σ e σ' _ IH Hstep]; [exact wf_init|].
  exact (wf_step e σ (Ok σ') IH Hstep).
Qed.

Lemma steps_wf σ σ' : wf σ -> steps σ σ' -> wf σ'.
Proof.
  intros Hwf Hs. induction Hs as [|σ e σ1 σ2 Hstep _ IH]; [exact Hwf|].
  apply IH. exact (wf_step e σ (Ok σ1) Hwf Hstep).
Qed.

Lemma reachable_steps σ σ' : reachable σ -> steps σ σ' -> reachable σ'.
Proof.
  intros Hr Hs. induction Hs as [|σ e σ1 σ2 Hstep _ IH]; [exact Hr|].
  apply IH. eapply reachable_step; eauto.
Qed.

Lemma exec_steps es σ σ' : exec es σ = Some (Ok σ') -> steps σ σ'.
Proof.
  revert σ. induction es as [|e es IH]; intros σ; cbn.
  - intros [= <-]. constructor.
  - destruct (step e σ) as [[σ1|σ1|σ1]|] eqn:Hstep; try discriminate.
    + intros H. eapply steps_step; eauto.
    + destruct es; discriminate.
    + destruct es; discriminate.
Qed.

Lemma exec_reachable es σ : exec es NewChatServer = Some (Ok σ) -> reachable σ.
Proof.
  intros H. eapply reachable_steps; [constructor | eapply exec_steps; eauto].
Qed.

End Invariant.

(** ** Broadcast *)

Section BroadcastFacts.

Lemma Broadcast_cases name from msg σ :
  Broadcast name from msg σ =
  match server_rooms σ !! name with
  | None => send from err_no_room σ
  | Some room =>
      match heap_clients σ !! from with
      | None => Panic σ
      | Some _ =>
          if String.eqb (nick_of σ from) "" then send from err_no_nick σ
          else
            match heap_rooms σ !! room with
            | None => Panic σ
            | Some r => send_all (room_clients r) (msgFmt name (nick_of σ from) msg) σ
            end
      end
  end.
Proof.
  unfold Broadcast, nick_of. destruct (server_rooms σ !! name); [|reflexivity].
  now destruct (heap_clients σ !! from).
Qed.

Lemma nick_of_nonempty_valid σ c : nick_of σ c <> "" -> is_Some (heap_clients σ !! c).
Proof. unfold nick_of. destruct (heap_clients σ !! c); [eauto | congruence]. Qed.


Lemma Broadcast_fanout_wf name from msg σ :
  wf σ -> nick_of σ from <> "" -> is_Some (server_rooms σ !! name) ->
  Broadcast name from msg σ =
  send_all (members σ name) (msgFmt name (nick_of σ from) msg) σ.
Proof.
  intros Hwf Hnick [room Hroom]. rewrite Broadcast_cases. unfold members.
  rewrite Hroom. destruct (nick_of_nonempty_valid σ from Hnick) as [cl ->].
  apply String.eqb_neq in Hnick. rewrite Hnick.
  destruct (wf_rooms σ Hwf _ _ Hroom) as (r & -> & _). reflexivity.
Qed.

Lemma forallb_live σ cs :
  forallb (live σ) cs = true -> forall d, d ∈ cs -> live σ d = true.
Proof.
  intros H d Hd. rewrite forallb_forall in H. apply H. now apply list_elem_of_In.
Qed.

Lemma shared_unchanged_refl σ : shared_unchanged σ σ.
Proof. split; [|split]; reflexivity. Qed.

Lemma shared_unchanged_trans σ1 σ2 σ3 :
  shared_unchanged σ1 σ2 -> shared_unchanged σ2 σ3 -> shared_unchanged σ1 σ3.
Proof.
  intros (A1 & A2 & A3) (B1 & B2 & B3).
  split; [congruence|]. split; [congruence|]. intros d. now rewrite B3.
Qed.

Lemma send_shared c line σ : shared_unchanged σ (result_state (send c line σ)).
Proof.
  rewrite send_push. destruct (live σ c); cbn;
    [apply push_shared_unchanged | apply shared_unchanged_refl].
Qed.

Lemma send_all_shared cs line σ : shared_unchanged σ (result_state (send_all cs line σ)).
Proof.
  destruct (send_all_result cs line σ) as (pre & post & _ & -> & _).
  apply push_all_shared_unchanged.
Qed.

(** Whatever it does, [Broadcast] leaves the registry, the rooms and the
    nicknames alone. *)
Lemma Broadcast_shared name from msg σ :
  shared_unchanged σ (result_state (Broadcast name from msg σ)).
Proof.
  rewrite Broadcast_cases.
  destruct (server_rooms σ !! name) as [room|]; [|apply send_shared].
  destruct (heap_clients σ !! from); [|apply shared_unchanged_refl].
  destruct (String.eqb (nick_of σ from) ""); [apply send_shared|].
  destruct (heap_rooms σ !! room); [apply send_all_shared | apply shared_unchanged_refl].
Qed.

(** A reply to a live client: one more line for it, nothing for the others. *)
Lemma send_live_spec c line σ :
  live σ c = true ->
  send c line σ = Ok (push c line σ)
  /\ delivered (push c line σ) c = delivered σ c ++ [line]
  /\ (forall d, d <> c -> delivered (push c line σ) d = delivered σ d)
  /\ shared_unchanged σ (push c line σ).
Proof.
  intros Hc. pose proof (live_lt σ c Hc) as Hlt.
  rewrite send_push, Hc. split; [reflexivity|]. split; [|split].
  - rewrite push_delivered by exact Hlt. now rewrite decide_True.
  - intros d Hd. rewrite push_delivered by exact Hlt.
    rewrite decide_False by exact Hd. apply app_nil_r.
  - apply push_shared_unchanged.
Qed.

End BroadcastFacts.

(** ** Sends to a terminated client *)




(** ** Messages *)

(** C2, as the specification words it, fails: in the state reached by
    [broken_member_msg] the dispatcher holds the message of client 0, whose
    nickname is [ann], to the existing room [r] with member list
    [0; 1; 2]; client 1 has terminated, the command panics at its entry,
    and client 2, an entry of the member list, is sent nothing. *)
Lemma C2_fanout_stops_at_terminated :
  let σ := after broken_member_msg in
  exec broken_member_msg NewChatServer = Some (Ok σ)
  /\ server_cmd σ = Some (MsgCommand 0 "r" "hello")
  /\ is_Some (server_rooms σ !! "r")
  /\ nick_of σ 0 = "ann"
  /\ members σ "r" = [0; 1; 2]
  /\ exists σ', Run (MsgCommand 0 "r" "hello") σ = Panic σ' /\ delivered σ' 2 = [].
Proof.
  cbv zeta. repeat apply conj; try (vm_compute; reflexivity).
  - vm_compute. eexists. reflexivity.
  - eexists. apply conj; vm_compute; reflexivity.
Qed.

(** C2, amended: for a message command to a room in the registry, from a
    client with a non-empty nickname, and provided no entry of the member
    list is a terminated client, the dispatcher hands the line
    [<room> / <nick>: <text>\n] to each entry of the member list once (so a
    client gets it once per entry it holds), hands nothing to a client that
    has no entry, and changes neither registry, rooms nor nicknames; whether
    the sender is a member plays no part. *)
Theorem C2_broadcast_fanout (σ : State) (from : ClientPtr) (name msg : string) :
  reachable σ ->
  is_Some (server_rooms σ !! name) ->
  nick_of σ from <> "" ->
  forallb (live σ) (members σ name) = true ->
  exists σ',
    Run (MsgCommand from name msg) σ = Ok σ'
    /\ (forall d, delivered σ' d =
                  delivered σ d
                  ++ replicate (entries d (members σ name))
                       (msgFmt name (nick_of σ from) msg))
    /\ (forall d, d ∉ members σ name -> delivered σ' d = delivered σ d)
    /\ shared_unchanged σ σ'.
Proof.
  intros Hreach Hroom Hnick Hlive. pose proof (reachable_wf σ Hreach) as Hwf.
  pose proof (forallb_live σ _ Hlive) as Hl.
  assert (Hdel : forall d,
    delivered (push_all (members σ name) (msgFmt name (nick_of σ from) msg) σ) d =
    delivered σ d
    ++ replicate (entries d (members σ name)) (msgFmt name (nick_of σ from) msg)).
  { intros d. apply push_all_delivered. intros x Hx. now apply live_lt, Hl. }
  eexists. split; [|split; [exact Hdel|split]].
  - cbn [Run]. rewrite Broadcast_fanout_wf by assumption. now apply send_all_live.
  - intros d Hd. rewrite Hdel, entries_not_in by exact Hd. apply app_nil_r.
  - apply push_all_shared_unchanged.
Qed.

(** C2 at a concrete input: after the end-to-end scenario, bob sends one more
    message to [lobby]. *)
Lemma C2_broadcast_fanout_witness :
  let σ := after scenario in
  exists σ',
    Run (MsgCommand 1 "lobby" "again") σ = Ok σ'
    /\ (forall d, delivered σ' d =
                  delivered σ d
                  ++ replicate (entries d (members σ "lobby"))
                       (msgFmt "lobby" (nick_of σ 1) "again"))
    /\ (forall d, d ∉ members σ "lobby" -> delivered σ' d = delivered σ d)
    /\ shared_unchanged σ σ'.
Proof.
  cbv zeta. apply (C2_broadcast_fanout (after scenario) 1 "lobby" "again").
  - apply (exec_reachable scenario). vm_compute. reflexivity.
  - vm_compute. eexists. reflexivity.
  - vm_compute. discriminate.
  - vm_compute. reflexivity.
Defined.

(** C3, as the specification words it, fails: [broken_sender_no_room]
    leaves the dispatcher holding a message of client 0 to a room that is
    not in the registry while the connection of client 0 has terminated;
    the command panics and no error line is handed over. *)
Lemma C3_missing_room_terminated_sender :
  let σ := after broken_sender_no_room in
  exec broken_sender_no_room NewChatServer = Some (Ok σ)
  /\ server_cmd σ = Some (MsgCommand 0 "nosuchroom" "text")
  /\ server_rooms σ !! "nosuchroom" = None
  /\ Run (MsgCommand 0 "nosuchroom" "text") σ = Panic σ
  /\ delivered σ 0 = [].
Proof. cbv zeta. repeat apply conj; vm_compute; reflexivity. Qed.

(** C3, amended: for a message command whose room is not a key of the
    registry, and provided the connection of the sender has not
    terminated, the dispatcher hands the single line
    [Error: Room doesn't exist\n] to the sender, nothing to anyone else,
    and changes neither registry, rooms nor nicknames. *)
Theorem C3_missing_room (σ : State) (from : ClientPtr) (name msg : string) :
  server_rooms σ !! name = None ->
  live σ from = true ->
  exists σ',
    Run (MsgCommand from name msg) σ = Ok σ'
    /\ delivered σ' from = delivered σ from ++ [err_no_room]
    /\ (forall d, d <> from -> delivered σ' d = delivered σ d)
    /\ shared_unchanged σ σ'.
Proof.
  intros Hroom Hlive. exists (push from err_no_room σ).
  destruct (send_live_spec from err_no_room σ Hlive) as (Hs & H1 & H2 & H3).
  split; [|auto]. cbn [Run]. now rewrite Broadcast_cases, Hroom.
Qed.

(** C3 at a concrete input: after the end-to-end scenario, alice sends a
    message to a room that does not exist. *)
Lemma C3_missing_room_witness :
  let σ := after scenario in
  exists σ',
    Run (MsgCommand 0 "nosuchroom" "text") σ = Ok σ'
    /\ delivered σ' 0 = delivered σ 0 ++ [err_no_room]
    /\ (forall d, d <> 0 -> delivered σ' d = delivered σ d)
    /\ shared_unchanged σ σ'.
Proof.
  cbv zeta. apply (C3_missing_room (after scenario) 0 "nosuchroom" "text").
  - vm_compute. reflexivity.
  - vm_compute. reflexivity.
Defined.

(** C4, as the specification words it, fails: [broken_sender_no_nick]
    leaves the dispatcher holding a message of client 0, which has no
    nickname, to the existing room [r], while the connection of client 0
    has terminated; the command panics and no error line is handed over. *)
Lemma C4_missing_nick_terminated_sender :
  let σ := after broken_sender_no_nick in
  exec broken_sender_no_nick NewChatServer = Some (Ok σ)
  /\ server_cmd σ = Some (MsgCommand 0 "r" "hi")
  /\ is_Some (server_rooms σ !! "r")
  /\ nick_of σ 0 = ""
  /\ Run (MsgCommand 0 "r" "hi") σ = Panic σ
  /\ delivered σ 0 = [].
Proof.
  cbv zeta. repeat apply conj; try (vm_compute; reflexivity).
  vm_compute. eexists. reflexivity.
Qed.

(** C4, amended: for a message command from a client whose nickname is
    empty and whose connection has not terminated, the dispatcher hands a
    single error line to the sender, nothing to anyone else, and changes
    neither registry, rooms nor nicknames; the line is
    [Error: Must set NICK first\n] when the room is in the registry and
    [Error: Room doesn't exist\n] when it is not, the room being checked
    first. *)
Theorem C4_missing_nick (σ : State) (from : ClientPtr) (name msg : string) :
  nick_of σ from = "" ->
  live σ from = true ->
  exists σ',
    Run (MsgCommand from name msg) σ = Ok σ'
    /\ delivered σ' from =
       delivered σ from
       ++ [match server_rooms σ !! name with
           | Some _ => err_no_nick
           | None => err_no_room
           end]
    /\ (forall d, d <> from -> delivered σ' d = delivered σ d)
    /\ shared_unchanged σ σ'.
Proof.
  intros Hnick Hlive. cbn [Run]. rewrite Broadcast_cases, Hnick.
  assert (Hv : is_Some (heap_clients σ !! from)).
  { apply lookup_lt_is_Some. now apply live_lt. }
  destruct Hv as [cl ->]. cbn [String.eqb].
  destruct (server_rooms σ !! name) as [room|].
  - exists (push from err_no_nick σ). now apply send_live_spec.
  - exists (push from err_no_room σ). now apply send_live_spec.
Qed.

(** C4 at a concrete input: a client that joined [r] and never set a
    nickname sends a message to [r]. *)
Lemma C4_missing_nick_witness :
  let σ := after [Accept; ReadLine 0 ("join r" +:+ nl); Ingest 0; Dispatch] in
  exists σ',
    Run (MsgCommand 0 "r" "hi") σ = Ok σ'
    /\ delivered σ' 0 =
       delivered σ 0
       ++ [match server_rooms σ !! "r" with
           | Some _ => err_no_nick
           | None => err_no_room
           end]
    /\ (forall d, d <> 0 -> delivered σ' d = delivered σ d)
    /\ shared_unchanged σ σ'.
Proof.
  cbv zeta.
  apply (C4_missing_nick
           (after [Accept; ReadLine 0 ("join r" +:+ nl); Ingest 0; Dispatch])
           0 "r" "hi").
  - vm_compute. reflexivity.
  - vm_compute. reflexivity.
Defined.

(** ** Lines that are no command *)

Section Ingest.

Lemma clear_msg_lookup c σ d :
  heap_clients (clear_msg c σ) !! d =
  (fun cl => if decide (d = c) then set_msg None cl else cl) <$> heap_clients σ !! d.
Proof.
  unfold clear_msg. destruct (heap_clients σ !! c) as [cl|] eqn:Hc.
  - cbn [heap_clients set_heap_clients]. destruct (decide (d = c)) as [->|Hne].
    + rewrite list_lookup_insert_eq by (eapply lookup_lt_Some; eauto).
      rewrite Hc. reflexivity.
    + rewrite list_lookup_insert_ne by congruence.
      destruct (heap_clients σ !! d); reflexivity.
  - destruct (decide (d = c)) as [->|Hne].
    + rewrite Hc. reflexivity.
    + destruct (heap_clients σ !! d); reflexivity.
Qed.

Lemma clear_msg_delivered c σ d : delivered (clear_msg c σ) d = delivered σ d.
Proof.
  unfold delivered. rewrite clear_msg_lookup.
  destruct (heap_clients σ !! d); [|reflexivity]. cbn. now case_decide.
Qed.

Lemma clear_msg_nick_of c σ d : nick_of (clear_msg c σ) d = nick_of σ d.
Proof.
  unfold nick_of. rewrite clear_msg_lookup.
  destruct (heap_clients σ !! d); [|reflexivity]. cbn. now case_decide.
Qed.

Lemma clear_msg_live c σ d : live (clear_msg c σ) d = live σ d.
Proof.
  unfold live. rewrite clear_msg_lookup.
  destruct (heap_clients σ !! d); [|reflexivity]. cbn. now case_decide.
Qed.

Lemma clear_msg_held c σ d :
  held_line (clear_msg c σ) d = if decide (d = c) then None else held_line σ d.
Proof.
  unfold held_line. rewrite clear_msg_lookup.
  destruct (heap_clients σ !! d); cbn; now case_decide.
Qed.

Lemma clear_msg_server_rooms c σ : server_rooms (clear_msg c σ) = server_rooms σ.
Proof. unfold clear_msg. now destruct (heap_clients σ !! c). Qed.

Lemma clear_msg_heap_rooms c σ : heap_rooms (clear_msg c σ) = heap_rooms σ.
Proof. unfold clear_msg. now destruct (heap_clients σ !! c). Qed.

Lemma clear_msg_server_cmd c σ : server_cmd (clear_msg c σ) = server_cmd σ.
Proof. unfold clear_msg. now destruct (heap_clients σ !! c). Qed.

Lemma clear_msg_shared c σ : shared_unchanged σ (clear_msg c σ).
Proof.
  split; [apply clear_msg_server_rooms|]. split; [apply clear_msg_heap_rooms|].
  intros d. apply clear_msg_nick_of.
Qed.

Lemma push_held c line σ d : held_line (push c line σ) d = held_line σ d.
Proof.
  unfold held_line. rewrite push_lookup.
  destruct (heap_clients σ !! d); [|reflexivity]. cbn. now case_decide.
Qed.

(** The body of the ingest loop for a held line that is no command. *)
Lemma step_Ingest_invalid σ c l :
  held_line σ c = Some l -> parseCommand c l = None ->
  step (Ingest c) σ =
  Some (if live σ c then Ok (clear_msg c (push c (err_invalid l) σ)) else Panic σ).
Proof.
  unfold held_line. intros Hheld Hparse. cbn [step].
  destruct (heap_clients σ !! c) as [cl|]; [|discriminate].
  rewrite Hheld, Hparse, send_push. now destruct (live σ c).
Qed.

(** The body of the ingest loop for a held line that is a command: it
    waits while the dispatcher holds a command, and hands its own over
    otherwise. *)
Lemma step_Ingest_command σ c l cmd :
  held_line σ c = Some l -> parseCommand c l = Some cmd ->
  step (Ingest c) σ =
  match server_cmd σ with
  | Some _ => None
  | None => Some (Ok (clear_msg c (set_server_cmd (Some cmd) σ)))
  end.
Proof.
  unfold held_line. intros Hheld Hparse. cbn [step].
  destruct (heap_clients σ !! c) as [cl|]; [|discriminate].
  now rewrite Hheld, Hparse.
Qed.

End Ingest.

(** C5, as the specification words it, fails: the line [xnick a\n] is none
    of the three shapes, yet the parser classifies it as a command (the
    patterns are not anchored at the start of the line); and
    [broken_sender_invalid] leaves the ingest goroutine of client 0 holding
    the line [hello\n], which is no command, while the connection has
    terminated: the reply panics and is never handed over. *)
Lemma C5_unanchored_and_terminated :
  parseCommand 0 ("xnick a" +:+ nl) = Some (NickCommand 0 "a")
  /\ ~ command_shape ("xnick a" +:+ nl)
  /\ let σ := after broken_sender_invalid in
     exec broken_sender_invalid NewChatServer = Some (Ok σ)
     /\ held_line σ 0 = Some ("hello" +:+ nl)
     /\ parseCommand 0 ("hello" +:+ nl) = None
     /\ step (Ingest 0) σ = Some (Panic σ)
     /\ delivered σ 0 = [].
Proof.
  apply conj; [vm_compute; reflexivity|]. apply conj.
  - intros [(w & _ & H)|[(w & _ & H)|(w & rest & _ & _ & _ & H)]];
      vm_compute in H; discriminate H.
  - cbv zeta. repeat apply conj; vm_compute; reflexivity.
Qed.

(** C5, amended: a raw line is classified as a command if and only if it
    ends with one of the three shapes [nick <word>\n], [join <word>\n],
    [msg <word> <rest-of-line>\n] (whatever precedes the shape on the line
    is ignored); for every other line, and provided the connection of the
    client has not terminated, the ingest goroutine itself hands the reply
    [Error: Invalid cmd: <original line>] to that client and to nobody
    else, no command reaches the dispatcher, and registry, rooms and
    nicknames are unchanged. *)
Theorem C5_invalid_lines (σ : State) (c : ClientPtr) (l : string) :
  (is_Some (parseCommand c l) <-> exists p t, l = p +:+ t /\ command_shape t)
  /\ (held_line σ c = Some l -> parseCommand c l = None -> live σ c = true ->
      exists σ',
        step (Ingest c) σ = Some (Ok σ')
        /\ delivered σ' c = delivered σ c ++ [err_invalid l]
        /\ (forall d, d <> c -> delivered σ' d = delivered σ d)
        /\ server_cmd σ' = server_cmd σ
        /\ shared_unchanged σ σ').
Proof.
  split; [apply parseCommand_Some_iff|].
  intros Hheld Hparse Hlive.
  destruct (send_live_spec c (err_invalid l) σ Hlive) as (_ & H1 & H2 & H3).
  exists (clear_msg c (push c (err_invalid l) σ)).
  rewrite (step_Ingest_invalid σ c l Hheld Hparse), Hlive.
  split; [reflexivity|]. split; [now rewrite clear_msg_delivered|].
  split; [intros d Hd; rewrite clear_msg_delivered; now apply H2|].
  split; [now rewrite clear_msg_server_cmd, push_server_cmd|].
  eapply shared_unchanged_trans; [exact H3 | apply clear_msg_shared].
Qed.

(** C5 at a concrete input: the ingest goroutine of a live client holds the
    line [hello\n]. *)
Lemma C5_invalid_lines_witness :
  let σ := after [Accept; ReadLine 0 ("hello" +:+ nl)] in
  exists σ',
    step (Ingest 0) σ = Some (Ok σ')
    /\ delivered σ' 0 = delivered σ 0 ++ [err_invalid ("hello" +:+ nl)]
    /\ (forall d, d <> 0 -> delivered σ' d = delivered σ d)
    /\ server_cmd σ' = server_cmd σ
    /\ shared_unchanged σ σ'.
Proof.
  cbv zeta.
  apply (proj2 (C5_invalid_lines (after [Accept; ReadLine 0 ("hello" +:+ nl)]) 0
                  ("hello" +:+ nl))).
  - vm_compute. reflexivity.
  - vm_compute. reflexivity.
  - vm_compute. reflexivity.
Defined.

(** ** What each step touches *)

Section Effects.

Lemma push_all_held cs line σ d : held_line (push_all cs line σ) d = held_line σ d.
Proof.
  revert σ. induction cs as [|c cs IH]; intros σ; cbn; [reflexivity|].
  now rewrite IH, push_held.
Qed.

Lemma members_shared σ σ' n : shared_unchanged σ σ' -> members σ' n = members σ n.
Proof. intros (H1 & H2 & _). unfold members. now rewrite H1, H2. Qed.

(** [Broadcast] ends in a state that differs from the one it started in by
    lines handed over on outgoing channels. *)
Lemma Broadcast_result name from msg σ :
  exists cs line, result_state (Broadcast name from msg σ) = push_all cs line σ.
Proof.
  assert (Hsend : forall c l, exists cs line,
             result_state (send c l σ) = push_all cs line σ).
  { intros c l. rewrite send_push. destruct (live σ c); cbn.
    - exists [c], l. reflexivity.
    - exists [], l. reflexivity. }
  rewrite Broadcast_cases.
  destruct (server_rooms σ !! name) as [room|]; [|apply Hsend].
  destruct (heap_clients σ !! from); [|exists [], ""; reflexivity].
  destruct (String.eqb (nick_of σ from) ""); [apply Hsend|].
  destruct (heap_rooms σ !! room) as [r|]; [|exists [], ""; reflexivity].
  destruct (send_all_result (room_clients r) (msgFmt name (nick_of σ from) msg) σ)
    as (pre & post & _ & -> & _).
  eauto.
Qed.

(** Replacing a client by one with the same nickname. *)
Lemma update_client_shared σ c cl cl' :
  heap_clients σ !! c = Some cl -> client_nick cl' = client_nick cl ->
  shared_unchanged σ (set_heap_clients (<[c := cl']> (heap_clients σ)) σ).
Proof.
  intros Hc Hn. split; [reflexivity|]. split; [reflexivity|].
  intros d. unfold nick_of. cbn. destruct (decide (d = c)) as [->|Hne].
  - rewrite list_lookup_insert_eq by (eapply lookup_lt_Some; eauto). now rewrite Hc.
  - now rewrite list_lookup_insert_ne by congruence.
Qed.

Lemma Read_error_shared c σ : shared_unchanged σ (result_state (Read_error c σ)).
Proof.
  unfold Read_error. destruct (heap_clients σ !! c) as [cl|] eqn:Hc;
    [|apply shared_unchanged_refl].
  cbn. destruct (chan_close (client_incoming cl)); cbn;
    [|now apply (update_client_shared σ c cl)].
  destruct (chan_close (client_outgoing cl)); cbn;
    now apply (update_client_shared σ c cl).
Qed.

Lemma Accept_nick_of σ d :
  nick_of (set_server_clients (server_clients σ ++ [length (heap_clients σ)])
             (snd (NewClient σ))) d = nick_of σ d.
Proof.
  unfold nick_of. cbn.
  destruct (heap_clients σ !! d) as [cl|] eqn:Hd.
  - now rewrite (lookup_app_l_Some _ _ _ _ Hd).
  - apply lookup_ge_None in Hd. rewrite lookup_app_r by exact Hd.
    destruct (d - length (heap_clients σ)) as [|k]; reflexivity.
Qed.

(** Only the dispatcher changes the registry, the rooms or a nickname. *)
Lemma step_shared e σ r :
  e <> Dispatch -> step e σ = Some r -> shared_unchanged σ (result_state r).
Proof.
  intros He. destruct e as [| |c s|c|c|]; cbn [step]; [| | | | |congruence].
  - intros [= <-]. split; [reflexivity|]. split; [reflexivity|].
    intros d. apply Accept_nick_of.
  - intros [= <-]. apply shared_unchanged_refl.
  - destruct (heap_clients σ !! c) as [cl|] eqn:Hcl; [|discriminate].
    destruct (client_msg cl); [discriminate|].
    destruct (chan_send (client_incoming cl) s); [|discriminate].
    destruct (is_line s); [|discriminate]. intros [= <-].
    now apply (update_client_shared σ c cl).
  - destruct (heap_clients σ !! c) as [cl|]; [|discriminate].
    destruct (chan_closed (client_incoming cl)); [discriminate|].
    intros [= <-]. apply Read_error_shared.
  - destruct (heap_clients σ !! c) as [cl|] eqn:Hcl; [|discriminate].
    destruct (client_msg cl) as [msg|]; [|discriminate].
    destruct (parseCommand c msg) as [cmd|].
    + destruct (server_cmd σ); [discriminate|]. intros [= <-]. cbn.
      eapply shared_unchanged_trans; [|apply clear_msg_shared].
      split; [|split]; reflexivity.
    + intros [= <-]. rewrite send_push. destruct (live σ c); cbn.
      * eapply shared_unchanged_trans; [apply push_shared_unchanged|].
        apply clear_msg_shared.
      * apply shared_unchanged_refl.
Qed.

(** What [Run] does to the registry, the rooms, the member lists and the
    nicknames of a well-formed state. *)
Lemma Run_effect cmd σ :
  wf σ -> cmd_client cmd < length (heap_clients σ) ->
  let σ' := result_state (Run cmd σ) in
  server_rooms σ' =
    match cmd with
    | JoinCommand _ n =>
        match server_rooms σ !! n with
        | Some _ => server_rooms σ
        | None => <[n := length (heap_rooms σ)]> (server_rooms σ)
        end
    | _ => server_rooms σ
    end
  /\ (forall room rm, heap_rooms σ !! room = Some rm ->
      exists rm', heap_rooms σ' !! room = Some rm' /\ room_name rm' = room_name rm)
  /\ (forall n, members σ' n = members σ n ++ joiners n [cmd])
  /\ (forall d, nick_of σ' d =
                match cmd with
                | NickCommand c n => if decide (d = c) then n else nick_of σ d
                | _ => nick_of σ d
                end)
  /\ server_cmd σ' = server_cmd σ
  /\ (forall d, held_line σ' d = held_line σ d)
  /\ (match cmd with MsgCommand _ _ _ => True | _ => Run cmd σ = Ok σ' end).
Proof.
  intros Hwf Hc. destruct cmd as [c n|c name|c name msg]; cbn [cmd_client] in Hc.
  - cbn [Run]. destruct (lookup_lt_is_Some_2 _ _ Hc) as [cl Hcl]. rewrite Hcl.
    cbn. split; [reflexivity|]. split; [eauto|].
    split; [intros n'; now rewrite app_nil_r|].
    split; [|split; [reflexivity|split; [|reflexivity]]].
    + intros d. unfold nick_of. cbn. destruct (decide (d = c)) as [->|Hne].
      * now rewrite list_lookup_insert_eq by exact Hc.
      * now rewrite list_lookup_insert_ne by congruence.
    + intros d. unfold held_line. cbn. destruct (decide (d = c)) as [->|Hne].
      * rewrite list_lookup_insert_eq by exact Hc. now rewrite Hcl.
      * now rewrite list_lookup_insert_ne by congruence.
  - cbn [Run].
    destruct (JoinRoom_spec name c σ Hwf Hc)
      as (σ' & -> & _ & Hheap & Hcmd & _ & Hmem & Hother & Hrooms & Hnames).
    cbn. split; [exact Hrooms|]. split; [exact Hnames|]. split.
    { intros n. cbn. destruct (String.eqb_spec name n) as [->|Hne].
      - exact Hmem.
      - rewrite app_nil_r. apply Hother. congruence. }
    split; [intros d; unfold nick_of; now rewrite Hheap|].
    split; [exact Hcmd|]. split; [|reflexivity].
    intros d. unfold held_line. now rewrite Hheap.
  - cbn [Run]. destruct (Broadcast_result name c msg σ) as (cs & line & ->).
    destruct (push_all_shared_unchanged cs line σ) as (H1 & H2 & H3).
    split; [exact H1|]. split; [rewrite H2; eauto|].
    split; [intros n; cbn; rewrite app_nil_r; apply members_shared; now split|].
    split; [exact H3|]. split; [apply push_all_server_cmd|].
    split; [intros d; apply push_all_held | exact I].
Qed.

End Effects.

(** ** Joining and the registry *)

Section Registry.

Lemma joiners_app n l1 l2 : joiners n (l1 ++ l2) = joiners n l1 ++ joiners n l2.
Proof.
  induction l1 as [|cmd l1 IH]; [reflexivity|].
  destruct cmd as [c x|c x|c x y]; cbn; try exact IH.
  destruct (String.eqb x n); cbn; now rewrite IH.
Qed.

Lemma step_Dispatch_inv σ r :
  step Dispatch σ = Some r ->
  exists cmd, server_cmd σ = Some cmd
    /\ r = (Run cmd σ >>= fun σ' => Ok (set_server_cmd None σ')).
Proof.
  cbn [step]. destruct (server_cmd σ) as [cmd|]; [|discriminate].
  intros [= <-]. eauto.
Qed.

(** The state after a dispatch is the one [Run] ends in, up to the command
    slot of the dispatcher. *)
Lemma Dispatch_state cmd σ :
  let σ1 := result_state (Run cmd σ) in
  let σ' := result_state (Run cmd σ >>= fun σ' => Ok (set_server_cmd None σ')) in
  server_rooms σ' = server_rooms σ1 /\ heap_rooms σ' = heap_rooms σ1
  /\ heap_clients σ' = heap_clients σ1.
Proof. destruct (Run cmd σ); cbn; auto. Qed.

Lemma Dispatch_members cmd σ n :
  members (result_state (Run cmd σ >>= fun σ' => Ok (set_server_cmd None σ'))) n
  = members (result_state (Run cmd σ)) n.
Proof.
  destruct (Dispatch_state cmd σ) as (H1 & H2 & _). unfold members.
  now rewrite H1, H2.
Qed.

(** What a step does to the registry, the rooms and the member lists. *)
Lemma step_effect e σ r :
  wf σ -> step e σ = Some r ->
  let σ' := result_state r in
  let now := match e with Dispatch => pending_cmd σ | _ => [] end in
  (forall n, members σ' n = members σ n ++ joiners n now)
  /\ (forall n room, server_rooms σ !! n = Some room -> server_rooms σ' !! n = Some room)
  /\ (forall room rm, heap_rooms σ !! room = Some rm ->
      exists rm', heap_rooms σ' !! room = Some rm' /\ room_name rm' = room_name rm)
  /\ (forall n, server_rooms σ !! n = None -> is_Some (server_rooms σ' !! n) ->
      e = Dispatch /\ exists c, server_cmd σ = Some (JoinCommand c n)).
Proof.
  intros Hwf Hstep. destruct (decide (e = Dispatch)) as [->|He].
  - apply step_Dispatch_inv in Hstep as (cmd & Hcmd & ->).
    destruct (Run_effect cmd σ Hwf (wf_cmd σ Hwf _ Hcmd))
      as (Hrooms & Hnames & Hmem & _).
    destruct (Dispatch_state cmd σ) as (E1 & E2 & _). cbv zeta.
    unfold pending_cmd. rewrite Hcmd. split; [|split; [|split]].
    + intros n. rewrite Dispatch_members. apply Hmem.
    + intros n room Hn. rewrite E1, Hrooms.
      destruct cmd as [c x|c x|c x y]; try exact Hn.
      destruct (server_rooms σ !! x) eqn:Hx; [exact Hn|].
      rewrite lookup_insert_ne; [exact Hn | congruence].
    + intros room rm Hrm. rewrite E2. now apply Hnames.
    + intros n Hn [room Hroom]. split; [reflexivity|].
      rewrite E1, Hrooms in Hroom.
      destruct cmd as [c x|c x|c x y]; try congruence.
      destruct (server_rooms σ !! x) eqn:Hx; [congruence|].
      destruct (decide (x = n)) as [->|Hne]; [eauto|].
      rewrite lookup_insert_ne in Hroom by exact Hne. congruence.
  - pose proof (step_shared e σ r He Hstep) as Hsh.
    pose proof Hsh as (H1 & H2 & _). cbv zeta.
    assert (Hnow : match e with Dispatch => pending_cmd σ | _ => [] end = [])
      by now destruct e.
    rewrite Hnow. split; [|split; [|split]].
    + intros n. rewrite app_nil_r. now apply members_shared.
    + intros n room. now rewrite H1.
    + intros room rm. rewrite H2. eauto.
    + intros n Hn [room Hroom]. rewrite H1 in Hroom. congruence.
Qed.

Lemma members_init n : members NewChatServer n = [].
Proof. reflexivity. Qed.

(** The member list of a room lists the clients whose [join] commands for
    it the dispatcher has run, in that order. *)
Lemma members_ran es σ0 σ n :
  wf σ0 -> exec es σ0 = Some (Ok σ) ->
  members σ n = members σ0 n ++ joiners n (ran es σ0).
Proof.
  revert σ0. induction es as [|e es IH]; intros σ0 Hwf; cbn [exec ran].
  - intros [= <-]. now rewrite app_nil_r.
  - destruct (step e σ0) as [[σ1|σ1|σ1]|] eqn:Hstep; try discriminate.
    + intros Hexec. rewrite (IH σ1 (wf_step e σ0 _ Hwf Hstep) Hexec).
      destruct (step_effect e σ0 _ Hwf Hstep) as (Hmem & _). cbn in Hmem.
      rewrite Hmem, joiners_app, <- app_assoc. reflexivity.
    + destruct es; discriminate.
    + destruct es; discriminate.
Qed.

Lemma steps_registry σ σ' name room :
  wf σ -> steps σ σ' -> server_rooms σ !! name = Some room ->
  server_rooms σ' !! name = Some room.
Proof.
  intros Hwf Hs. induction Hs as [|σ e σ1 σ2 Hstep _ IH]; [auto|].
  intros Hn. apply IH; [exact (wf_step e σ _ Hwf Hstep)|].
  destruct (step_effect e σ _ Hwf Hstep) as (_ & Hmono & _). now apply Hmono.
Qed.

End Registry.

(** C6, as the specification words it, fails in its last part but one: in
    the state reached by [broken_before_twice] client 0 has joined [r]
    twice and holds two entries of the member list [1; 0; 0], but client 1
    has terminated, the message of client 0 to [r] panics at the first
    entry, and client 0 gets no copy of it. *)
Lemma C6_two_entries_no_copy :
  let σ := after broken_before_twice in
  exec broken_before_twice NewChatServer = Some (Ok σ)
  /\ ran broken_before_twice NewChatServer
     = [JoinCommand 1 "r"; JoinCommand 0 "r"; JoinCommand 0 "r"; NickCommand 0 "zed"]
  /\ members σ "r" = [1; 0; 0]
  /\ server_cmd σ = Some (MsgCommand 0 "r" "hi")
  /\ exists σ', step Dispatch σ = Some (Panic σ') /\ delivered σ' 0 = [].
Proof.
  cbv zeta. repeat apply conj; try (vm_compute; reflexivity).
  eexists. apply conj; vm_compute; reflexivity.
Qed.

(** C6, amended: processing a join command appends the client to the
    member list of the named room, after creating an empty room and
    inserting it into the registry when the name is absent, and touches no
    other room and no nickname; there is no duplicate check: the member
    list of a room lists the clients of all join commands for it that were
    processed, in order, so a client that joined [k] times holds [k]
    entries; a later message to the room hands that client one copy per
    entry provided no entry of the member list is a terminated client; and
    no step removes or rebinds a name of the registry. *)
Theorem C6_join (σ : State) (c : ClientPtr) (name : string) :
  reachable σ ->
  c < length (heap_clients σ) ->
  (exists σ',
     Run (JoinCommand c name) σ = Ok σ'
     /\ members σ' name = members σ name ++ [c]
     /\ (forall n, n <> name -> members σ' n = members σ n)
     /\ server_rooms σ' =
        match server_rooms σ !! name with
        | Some _ => server_rooms σ
        | None => <[name := length (heap_rooms σ)]> (server_rooms σ)
        end
     /\ (forall d, nick_of σ' d = nick_of σ d))
  /\ (server_rooms σ !! name = None -> members σ name = [])
  /\ (forall es, exec es NewChatServer = Some (Ok σ) ->
      members σ name = joiners name (ran es NewChatServer))
  /\ (forall from msg,
      is_Some (server_rooms σ !! name) -> nick_of σ from <> "" ->
      forallb (live σ) (members σ name) = true ->
      exists σ',
        Run (MsgCommand from name msg) σ = Ok σ'
        /\ delivered σ' c =
           delivered σ c
           ++ replicate (entries c (members σ name)) (msgFmt name (nick_of σ from) msg))
  /\ (forall e r room, step e σ = Some r -> server_rooms σ !! name = Some room ->
      server_rooms (result_state r) !! name = Some room).
Proof.
  intros Hreach Hc. pose proof (reachable_wf σ Hreach) as Hwf.
  split; [|split; [|split; [|split]]].
  - destruct (Run_effect (JoinCommand c name) σ Hwf Hc)
      as (Hrooms & _ & Hmem & Hnick & _ & _ & Hok).
    eexists. split; [exact Hok|]. split.
    { rewrite Hmem. cbn. now rewrite String.eqb_refl. }
    split; [|split; [exact Hrooms | exact Hnick]].
    intros n Hne. rewrite Hmem. cbn.
    destruct (String.eqb_spec name n); [congruence | apply app_nil_r].
  - intros Hn. unfold members. now rewrite Hn.
  - intros es Hexec. now rewrite (members_ran es _ _ name wf_init Hexec).
  - intros from msg Hroom Hnick Hlive. cbn [Run].
    rewrite Broadcast_fanout_wf by assumption.
    rewrite send_all_live by (now apply forallb_live).
    eexists. split; [reflexivity|]. apply push_all_delivered.
    intros x Hx. apply live_lt. now apply (forallb_live σ _ Hlive).
  - intros e r room Hstep Hn.
    destruct (step_effect e σ r Hwf Hstep) as (_ & Hmono & _). now apply Hmono.
Qed.

(** C6 at a concrete input: after the end-to-end scenario, alice joins
    [lobby] once more, and bob sends a message to [lobby]. *)
Lemma C6_join_witness :
  let σ := after scenario in
  reachable σ /\ 0 < length (heap_clients σ)
  /\ (exists σ',
        Run (JoinCommand 0 "lobby") σ = Ok σ'
        /\ members σ' "lobby" = members σ "lobby" ++ [0])
  /\ members σ "lobby" = joiners "lobby" (ran scenario NewChatServer)
  /\ exists σ',
       Run (MsgCommand 1 "lobby" "x") σ = Ok σ'
       /\ delivered σ' 0 =
          delivered σ 0
          ++ replicate (entries 0 (members σ "lobby")) (msgFmt "lobby" (nick_of σ 1) "x").
Proof.
  cbv zeta.
  assert (Hexec : exec scenario NewChatServer = Some (Ok (after scenario))).
  { vm_compute. reflexivity. }
  assert (Hreach : reachable (after scenario)).
  { exact (exec_reachable scenario _ Hexec). }
  assert (Hc : 0 < length (heap_clients (after scenario))).
  { vm_compute. lia. }
  assert (Hroom : is_Some (server_rooms (after scenario) !! "lobby")).
  { vm_compute. eexists. reflexivity. }
  assert (Hnick : nick_of (after scenario) 1 <> "").
  { vm_compute. discriminate. }
  assert (Hlive : forallb (live (after scenario)) (members (after scenario) "lobby") = true).
  { vm_compute. reflexivity. }
  split; [exact Hreach|]. split; [exact Hc|].
  destruct (C6_join (after scenario) 0 "lobby" Hreach Hc)
    as ((σ' & Hrun & Hmem & _) & _ & Hran & Hmsg & _).
  split; [exists σ'; split; [exact Hrun | exact Hmem]|].
  split; [exact (Hran scenario Hexec)|].
  exact (Hmsg 1 "x" Hroom Hnick Hlive).
Defined.

(** C9: in every reachable state each name of the registry is bound to a
    room whose name field is that name; a step never removes or rebinds a
    name, it binds a new name only when the dispatcher runs a join command
    for a name that was absent; so a name, once bound, stays bound to the
    same room object, which keeps its name, in every later state. *)
Theorem C9_registry (σ : State) :
  reachable σ ->
  (forall name room, server_rooms σ !! name = Some room ->
     exists rm, heap_rooms σ !! room = Some rm /\ room_name rm = name)
  /\ (forall e r,
      step e σ = Some r ->
      (forall name room, server_rooms σ !! name = Some room ->
         server_rooms (result_state r) !! name = Some room)
      /\ (forall name, server_rooms σ !! name = None ->
          is_Some (server_rooms (result_state r) !! name) ->
          e = Dispatch /\ exists c, server_cmd σ = Some (JoinCommand c name)))
  /\ (forall σ' name room,
      steps σ σ' -> server_rooms σ !! name = Some room ->
      server_rooms σ' !! name = Some room
      /\ exists rm, heap_rooms σ' !! room = Some rm /\ room_name rm = name).
Proof.
  intros Hreach. pose proof (reachable_wf σ Hreach) as Hwf.
  split; [exact (wf_rooms σ Hwf)|]. split.
  - intros e r Hstep. destruct (step_effect e σ r Hwf Hstep) as (_ & H1 & _ & H2).
    split; [exact H1 | exact H2].
  - intros σ' name room Hs Hn.
    pose proof (steps_registry σ σ' name room Hwf Hs Hn) as Hn'.
    split; [exact Hn'|]. exact (wf_rooms σ' (steps_wf σ σ' Hwf Hs) _ _ Hn').
Qed.

(** C9 at a concrete input: the state after the end-to-end scenario. *)
Lemma C9_registry_witness :
  let σ := after scenario in
  reachable σ
  /\ forall name room, server_rooms σ !! name = Some room ->
       exists rm, heap_rooms σ !! room = Some rm /\ room_name rm = name.
Proof.
  cbv zeta.
  assert (Hreach : reachable (after scenario)).
  { apply (exec_reachable scenario). vm_compute. reflexivity. }
  split; [exact Hreach|]. exact (proj1 (C9_registry (after scenario) Hreach)).
Defined.

(** ** Nicknames *)

Section Nicknames.

Lemma word_nonempty n : word n -> n <> "".
Proof. now intros [H _]. Qed.

Lemma Dispatch_nick_of cmd σ d :
  nick_of (result_state (Run cmd σ >>= fun σ' => Ok (set_server_cmd None σ'))) d
  = nick_of (result_state (Run cmd σ)) d.
Proof.
  destruct (Dispatch_state cmd σ) as (_ & _ & H). unfold nick_of. now rewrite H.
Qed.

(** What a step does to the nicknames. *)
Lemma step_nick_of e σ r d :
  wf σ -> step e σ = Some r ->
  nick_of (result_state r) d =
  nick_after (nick_of σ d) d (match e with Dispatch => pending_cmd σ | _ => [] end).
Proof.
  intros Hwf Hstep. destruct (decide (e = Dispatch)) as [->|He].
  - apply step_Dispatch_inv in Hstep as (cmd & Hcmd & ->).
    destruct (Run_effect cmd σ Hwf (wf_cmd σ Hwf _ Hcmd)) as (_ & _ & _ & Hnick & _).
    rewrite Dispatch_nick_of, Hnick. unfold pending_cmd. rewrite Hcmd.
    now destruct cmd.
  - destruct (step_shared e σ r He Hstep) as (_ & _ & H). rewrite H.
    now destruct e.
Qed.

Lemma nick_after_app cur c l1 l2 :
  nick_after cur c (l1 ++ l2) = nick_after (nick_after cur c l1) c l2.
Proof.
  revert cur. induction l1 as [|cmd l1 IH]; intros cur; [reflexivity|].
  destruct cmd; cbn; apply IH.
Qed.

(** The nickname of a client is the one of the last [nick] command of that
    client the dispatcher has run. *)
Lemma nick_of_ran es σ0 σ c :
  wf σ0 -> exec es σ0 = Some (Ok σ) ->
  nick_of σ c = nick_after (nick_of σ0 c) c (ran es σ0).
Proof.
  revert σ0. induction es as [|e es IH]; intros σ0 Hwf; cbn [exec ran].
  - now intros [= <-].
  - destruct (step e σ0) as [[σ1|σ1|σ1]|] eqn:Hstep; try discriminate.
    + intros Hexec. rewrite (IH σ1 (wf_step e σ0 _ Hwf Hstep) Hexec).
      pose proof (step_nick_of e σ0 _ c Hwf Hstep) as H1. cbn [result_state] in H1.
      rewrite H1, nick_after_app. reflexivity.
    + destruct es; discriminate.
    + destruct es; discriminate.
Qed.

(** Once set, a nickname is never empty again. *)
Lemma step_nick_nonempty e σ r c :
  wf σ -> nick_of σ c <> "" -> step e σ = Some r -> nick_of (result_state r) c <> "".
Proof.
  intros Hwf Hnick Hstep. rewrite (step_nick_of e σ r c Hwf Hstep).
  destruct e; try exact Hnick. unfold pending_cmd.
  destruct (server_cmd σ) as [[c' n| |]|] eqn:Hcmd; try exact Hnick.
  cbn. case_decide; [|exact Hnick].
  apply word_nonempty. exact (wf_cmd_nick σ Hwf _ _ Hcmd).
Qed.

Lemma steps_nick_nonempty σ σ' c :
  wf σ -> nick_of σ c <> "" -> steps σ σ' -> nick_of σ' c <> "".
Proof.
  intros Hwf Hnick Hs. induction Hs as [|σ e σ1 σ2 Hstep _ IH]; [exact Hnick|].
  apply IH; [exact (wf_step e σ _ Hwf Hstep)|].
  exact (step_nick_nonempty e σ _ c Hwf Hnick Hstep).
Qed.

End Nicknames.

(** C10: a nick command of the parser is for the client that sent the line
    and carries one or more word characters, never the empty string; when
    the dispatcher processes the nick command it holds, the nickname of
    that client becomes the word, and in every later state the nickname of
    the client is non-empty and [Broadcast] for a message of that client
    takes either the missing-room branch or the loop over the member list,
    never the [Must set NICK first] branch. *)
Theorem C10_nick_never_empty (σ : State) (c : ClientPtr) (n : string) :
  (forall c' l, parseCommand c' l = Some (NickCommand c n) -> c' = c /\ word n)
  /\ (reachable σ -> server_cmd σ = Some (NickCommand c n) ->
      n <> ""
      /\ exists σ1,
           step Dispatch σ = Some (Ok σ1) /\ nick_of σ1 c = n
           /\ forall σ2, steps σ1 σ2 ->
                nick_of σ2 c <> ""
                /\ forall name msg,
                     Broadcast name c msg σ2 =
                     match server_rooms σ2 !! name with
                     | None => send c err_no_room σ2
                     | Some _ =>
                         send_all (members σ2 name) (msgFmt name (nick_of σ2 c) msg) σ2
                     end).
Proof.
  split.
  - intros c' l H. apply parseCommand_nick in H as (-> & Hw & _). now split.
  - intros Hreach Hcmd. pose proof (reachable_wf σ Hreach) as Hwf.
    pose proof (word_nonempty n (wf_cmd_nick σ Hwf _ _ Hcmd)) as Hn.
    split; [exact Hn|].
    pose proof (wf_cmd σ Hwf _ Hcmd) as Hc. cbn [cmd_client] in Hc.
    destruct (lookup_lt_is_Some_2 _ _ Hc) as [cl Hcl].
    assert (Hstep : step Dispatch σ =
              Some (Ok (set_server_cmd None
                          (set_heap_clients (<[c := set_nick n cl]> (heap_clients σ)) σ)))).
    { cbn [step]. rewrite Hcmd. cbn [Run]. now rewrite Hcl. }
    eexists. split; [exact Hstep|].
    assert (Hnick1 : nick_of (set_server_cmd None
              (set_heap_clients (<[c := set_nick n cl]> (heap_clients σ)) σ)) c = n).
    { unfold nick_of. cbn. now rewrite list_lookup_insert_eq by exact Hc. }
    split; [exact Hnick1|].
    intros σ2 Hs. pose proof (wf_step _ _ _ Hwf Hstep) as Hwf1. cbn in Hwf1.
    pose proof (steps_wf _ _ Hwf1 Hs) as Hwf2.
    assert (Hnick2 : nick_of σ2 c <> "").
    { eapply steps_nick_nonempty; [exact Hwf1| |exact Hs]. now rewrite Hnick1. }
    split; [exact Hnick2|].
    intros name msg. destruct (server_rooms σ2 !! name) as [room|] eqn:Hroom.
    + apply Broadcast_fanout_wf; eauto.
    + now rewrite Broadcast_cases, Hroom.
Qed.

(** C10 at a concrete input: the dispatcher holds the command [nick bob] of
    client 0. *)
Lemma C10_nick_never_empty_witness :
  let σ := after [Accept; ReadLine 0 ("nick bob" +:+ nl); Ingest 0] in
  reachable σ /\ server_cmd σ = Some (NickCommand 0 "bob")
  /\ exists σ1, step Dispatch σ = Some (Ok σ1) /\ nick_of σ1 0 = "bob".
Proof.
  cbv zeta.
  assert (Hreach : reachable (after [Accept; ReadLine 0 ("nick bob" +:+ nl); Ingest 0])).
  { apply (exec_reachable [Accept; ReadLine 0 ("nick bob" +:+ nl); Ingest 0]).
    vm_compute. reflexivity. }
  assert (Hcmd : server_cmd (after [Accept; ReadLine 0 ("nick bob" +:+ nl); Ingest 0])
                 = Some (NickCommand 0 "bob")).
  { vm_compute. reflexivity. }
  split; [exact Hreach|]. split; [exact Hcmd|].
  destruct (proj2 (C10_nick_never_empty _ 0 "bob") Hreach Hcmd)
    as (_ & σ1 & Hstep & Hnick & _).
  exists σ1. split; [exact Hstep | exact Hnick].
Defined.

(** ** The dispatcher and the order of commands *)

Section Order.

Lemma Accept_held σ d :
  held_line (set_server_clients (server_clients σ ++ [length (heap_clients σ)])
               (snd (NewClient σ))) d = held_line σ d.
Proof.
  unfold held_line. cbn.
  destruct (heap_clients σ !! d) as [cl|] eqn:Hd.
  - now rewrite (lookup_app_l_Some _ _ _ _ Hd).
  - apply lookup_ge_None in Hd. rewrite lookup_app_r by exact Hd.
    destruct (d - length (heap_clients σ)) as [|k]; reflexivity.
Qed.

(** Replacing a client by one that holds the same line. *)
Lemma update_client_held σ c cl cl' d :
  heap_clients σ !! c = Some cl -> client_msg cl' = client_msg cl ->
  held_line (set_heap_clients (<[c := cl']> (heap_clients σ)) σ) d = held_line σ d.
Proof.
  intros Hc Hm. unfold held_line. cbn. destruct (decide (d = c)) as [->|Hne].
  - rewrite list_lookup_insert_eq by (eapply lookup_lt_Some; eauto). now rewrite Hc.
  - now rewrite list_lookup_insert_ne by congruence.
Qed.

Lemma Read_error_cmd_held c σ :
  server_cmd (result_state (Read_error c σ)) = server_cmd σ
  /\ forall d, held_line (result_state (Read_error c σ)) d = held_line σ d.
Proof.
  unfold Read_error. destruct (heap_clients σ !! c) as [cl|] eqn:Hc; [|now split].
  cbn. destruct (chan_close (client_incoming cl)); cbn.
  - destruct (chan_close (client_outgoing cl)); cbn;
      (split; [reflexivity | intros d; now apply (update_client_held σ c cl)]).
  - split; [reflexivity | intros d; now apply (update_client_held σ c cl)].
Qed.

(** What a step of the running server does to the command the dispatcher
    holds and to the lines the ingest goroutines hold. *)
Lemma step_cmd_held e σ σ' :
  wf σ -> step e σ = Some (Ok σ') ->
  match e with
  | Accept | ReadError _ =>
      server_cmd σ' = server_cmd σ /\ forall d, held_line σ' d = held_line σ d
  | AcceptError => False
  | ReadLine c s =>
      server_cmd σ' = server_cmd σ /\ held_line σ c = None /\ held_line σ' c = Some s
      /\ forall d, d <> c -> held_line σ' d = held_line σ d
  | Ingest c =>
      exists l, held_line σ c = Some l /\ held_line σ' c = None
        /\ (forall d, d <> c -> held_line σ' d = held_line σ d)
        /\ match parseCommand c l with
           | None => server_cmd σ' = server_cmd σ
           | Some cmd => server_cmd σ = None /\ server_cmd σ' = Some cmd
           end
  | Dispatch =>
      exists cmd, server_cmd σ = Some cmd /\ server_cmd σ' = None
        /\ forall d, held_line σ' d = held_line σ d
  end.
Proof.
  intros Hwf. destruct e as [| |c s|c|c|].
  - cbn [step]. intros [= <-]. split; [reflexivity|]. intros d. apply Accept_held.
  - cbn [step]. discriminate.
  - cbn [step]. unfold held_line.
    destruct (heap_clients σ !! c) as [cl|] eqn:Hcl; [|discriminate].
    destruct (client_msg cl) eqn:Hm; [discriminate|].
    destruct (chan_send (client_incoming cl) s); [|discriminate].
    destruct (is_line s); [|discriminate]. intros [= <-]. cbn.
    split; [reflexivity|]. split; [reflexivity|].
    rewrite list_lookup_insert_eq by (eapply lookup_lt_Some; eauto).
    split; [reflexivity|]. intros d Hd. now rewrite list_lookup_insert_ne by congruence.
  - cbn [step]. destruct (heap_clients σ !! c) as [cl|]; [|discriminate].
    destruct (chan_closed (client_incoming cl)); [discriminate|].
    intros [= H]. destruct (Read_error_cmd_held c σ) as (H1 & H2).
    rewrite H in H1, H2. exact (conj H1 H2).
  - intros Hstep. destruct (held_line σ c) as [l|] eqn:Hheld.
    + exists l. split; [reflexivity|].
      destruct (parseCommand c l) as [cmd|] eqn:Hp.
      * rewrite (step_Ingest_command σ c l cmd Hheld Hp) in Hstep.
        destruct (server_cmd σ) eqn:Hcmd; [discriminate|]. injection Hstep as <-.
        rewrite clear_msg_held, decide_True by reflexivity. split; [reflexivity|].
        split; [|now rewrite clear_msg_server_cmd].
        intros d Hd. rewrite clear_msg_held, decide_False by exact Hd. reflexivity.
      * rewrite (step_Ingest_invalid σ c l Hheld Hp) in Hstep.
        destruct (live σ c); [|discriminate]. injection Hstep as <-.
        rewrite clear_msg_held, decide_True by reflexivity. split; [reflexivity|].
        split; [|now rewrite clear_msg_server_cmd, push_server_cmd].
        intros d Hd. rewrite clear_msg_held, decide_False by exact Hd.
        apply push_held.
    + exfalso. revert Hstep Hheld. cbn [step]. unfold held_line.
      destruct (heap_clients σ !! c) as [cl|]; [|discriminate].
      destruct (client_msg cl); [discriminate|discriminate].
  - intros Hstep. apply step_Dispatch_inv in Hstep as (cmd & Hcmd & Hr).
    exists cmd. split; [exact Hcmd|].
    destruct (Run_effect cmd σ Hwf (wf_cmd σ Hwf _ Hcmd)) as (_ & _ & _ & _ & _ & Hheld & _).
    destruct (Run cmd σ) as [σ1|σ1|σ1]; cbn in Hr; try discriminate.
    injection Hr as ->. cbn in Hheld. split; [reflexivity | exact Hheld].
Qed.

(** The dispatcher runs the commands in the order in which they were
    handed over on [server.incoming]. *)
Lemma handed_ran es σ0 σ :
  wf σ0 -> exec es σ0 = Some (Ok σ) ->
  pending_cmd σ0 ++ handed es σ0 = ran es σ0 ++ pending_cmd σ.
Proof.
  revert σ0. induction es as [|e es IH]; intros σ0 Hwf; cbn [exec ran handed].
  - intros [= <-]. now rewrite app_nil_r.
  - destruct (step e σ0) as [[σ1|σ1|σ1]|] eqn:Hstep; try discriminate.
    + intros Hexec. pose proof (IH σ1 (wf_step e σ0 _ Hwf Hstep) Hexec) as IH1.
      pose proof (step_cmd_held e σ0 σ1 Hwf Hstep) as Heff.
      rewrite <- app_assoc, <- IH1. unfold pending_cmd in *.
      destruct e as [| |c s|c|c|].
      * destruct Heff as (-> & _). now destruct (server_cmd σ0).
      * destruct Heff.
      * destruct Heff as (-> & _). now destruct (server_cmd σ0).
      * destruct Heff as (-> & _). now destruct (server_cmd σ0).
      * destruct Heff as (l & _ & _ & _ & Hcmd).
        destruct (parseCommand c l) as [cmd|].
        -- destruct Hcmd as (-> & ->). reflexivity.
        -- rewrite Hcmd. now destruct (server_cmd σ0).
      * destruct Heff as (cmd & -> & -> & _). reflexivity.
    + destruct es; discriminate.
    + destruct es; discriminate.
Qed.

Lemma from_client_cons c cmd l :
  from_client c (cmd :: l) =
  if decide (cmd_client cmd = c) then cmd :: from_client c l else from_client c l.
Proof. unfold from_client. rewrite filter_cons. now case_decide. Qed.

Lemma from_client_app c l1 l2 :
  from_client c (l1 ++ l2) = from_client c l1 ++ from_client c l2.
Proof. unfold from_client. apply filter_app. Qed.

Lemma pending_line_ext σ σ' c :
  held_line σ' c = held_line σ c -> pending_line σ' c = pending_line σ c.
Proof. unfold pending_line. now intros ->. Qed.

Lemma pending_line_client σ c cmd : cmd ∈ pending_line σ c -> cmd_client cmd = c.
Proof.
  unfold pending_line. destruct (held_line σ c) as [l|]; [|now intros ?%elem_of_nil].
  destruct (parseCommand c l) as [cmd'|] eqn:Hp; [|now intros ?%elem_of_nil].
  intros ->%list_elem_of_singleton. eapply parseCommand_client; eauto.
Qed.

(** The commands a client hands over are the commands among the lines read
    from its connection, in the order of the lines. *)
Lemma lines_handed es σ0 σ c :
  wf σ0 -> exec es σ0 = Some (Ok σ) ->
  pending_line σ0 c ++ omap (parseCommand c) (lines_read c es)
  = from_client c (handed es σ0) ++ pending_line σ c.
Proof.
  revert σ0. induction es as [|e es IH]; intros σ0 Hwf; cbn [exec handed lines_read].
  - intros [= <-]. cbn. now rewrite app_nil_r.
  - destruct (step e σ0) as [[σ1|σ1|σ1]|] eqn:Hstep; try discriminate.
    + intros Hexec. pose proof (IH σ1 (wf_step e σ0 _ Hwf Hstep) Hexec) as IH1.
      pose proof (step_cmd_held e σ0 σ1 Hwf Hstep) as Heff.
      destruct e as [| |c' s|c'|c'|].
      * destruct Heff as (_ & Hheld).
        now rewrite <- (pending_line_ext σ0 σ1 c (Hheld c)).
      * destruct Heff.
      * destruct Heff as (_ & H0 & H1 & Hother).
        destruct (Nat.eqb_spec c' c) as [->|Hne].
        -- rewrite <- IH1. unfold pending_line. rewrite H0, H1. cbn.
           now destruct (parseCommand c s).
        -- rewrite <- IH1.
           now rewrite (pending_line_ext σ0 σ1 c (Hother c (not_eq_sym Hne))).
      * destruct Heff as (_ & Hheld).
        now rewrite <- (pending_line_ext σ0 σ1 c (Hheld c)).
      * destruct Heff as (l & H0 & H1 & Hother & Hcmd).
        destruct (decide (c' = c)) as [->|Hne].
        -- unfold pending_line at 1. rewrite H0.
           destruct (parseCommand c l) as [cmd|] eqn:Hp.
           ++ destruct Hcmd as (-> & ->). rewrite from_client_cons.
              rewrite decide_True by (eapply parseCommand_client; eauto).
              cbn. f_equal. rewrite <- IH1. unfold pending_line. now rewrite H1.
           ++ rewrite Hcmd. cbn.
              assert (Hp1 : pending_line σ1 c = []).
              { unfold pending_line. now rewrite H1. }
              rewrite Hp1 in IH1. cbn in IH1.
              now destruct (server_cmd σ0).
        -- rewrite (pending_line_ext σ0 σ1 c (Hother c (not_eq_sym Hne))) in IH1.
           destruct (parseCommand c' l) as [cmd|] eqn:Hp.
           ++ destruct Hcmd as (-> & ->). rewrite from_client_cons.
              rewrite decide_False; [exact IH1|].
              rewrite (parseCommand_client _ _ _ Hp). exact Hne.
           ++ rewrite Hcmd. now destruct (server_cmd σ0).
      * destruct Heff as (cmd & _ & _ & Hheld).
        rewrite (pending_line_ext σ0 σ1 c (Hheld c)) in IH1.
        destruct (server_cmd σ0), (server_cmd σ1); exact IH1.
    + destruct es; discriminate.
    + destruct es; discriminate.
Qed.

(** Outside the dispatcher the only line ever handed to a client is the
    reply of its own ingest goroutine to a line that is no command. *)
Lemma step_delivered e σ r d :
  e <> Dispatch -> step e σ = Some r ->
  delivered (result_state r) d = delivered σ d
  \/ exists l, e = Ingest d /\ held_line σ d = Some l /\ parseCommand d l = None
               /\ delivered (result_state r) d = delivered σ d ++ [err_invalid l].
Proof.
  intros He. destruct e as [| |c s|c|c|]; [| | | | |congruence].
  - cbn [step]. intros [= <-]. left. unfold delivered. cbn.
    destruct (heap_clients σ !! d) as [cl|] eqn:Hd.
    + now rewrite (lookup_app_l_Some _ _ _ _ Hd).
    + apply lookup_ge_None in Hd. rewrite lookup_app_r by exact Hd.
      destruct (d - length (heap_clients σ)) as [|k]; reflexivity.
  - cbn [step]. intros [= <-]. now left.
  - cbn [step]. destruct (heap_clients σ !! c) as [cl|] eqn:Hcl; [|discriminate].
    destruct (client_msg cl); [discriminate|].
    destruct (chan_send (client_incoming cl) s); [|discriminate].
    destruct (is_line s); [|discriminate]. intros [= <-]. left.
    unfold delivered. cbn. destruct (decide (d = c)) as [->|Hne].
    + rewrite list_lookup_insert_eq by (eapply lookup_lt_Some; eauto). now rewrite Hcl.
    + now rewrite list_lookup_insert_ne by congruence.
  - cbn [step]. destruct (heap_clients σ !! c) as [cl|] eqn:Hcl; [|discriminate].
    destruct (chan_closed (client_incoming cl)) eqn:Hin; [discriminate|].
    intros [= <-]. left. unfold Read_error, chan_close. rewrite Hcl. cbn. rewrite Hin.
    unfold delivered.
    destruct (chan_closed (client_outgoing cl)); cbn;
      (destruct (decide (d = c)) as [->|Hne];
       [rewrite list_lookup_insert_eq by (eapply lookup_lt_Some; eauto); now rewrite Hcl
       |now rewrite list_lookup_insert_ne by congruence]).
  - intros Hstep. destruct (held_line σ c) as [l|] eqn:Hheld.
    + destruct (parseCommand c l) as [cmd|] eqn:Hp.
      * rewrite (step_Ingest_command σ c l cmd Hheld Hp) in Hstep.
        destruct (server_cmd σ); [discriminate|]. injection Hstep as <-. left.
        cbn. now rewrite clear_msg_delivered.
      * rewrite (step_Ingest_invalid σ c l Hheld Hp) in Hstep.
        destruct (live σ c) eqn:Hlive; injection Hstep as <-; [|now left].
        cbn. rewrite clear_msg_delivered, push_delivered by (now apply live_lt).
        destruct (decide (d = c)) as [->|Hne]; [|left; apply app_nil_r].
        right. exists l. auto.
    + exfalso. revert Hstep Hheld. cbn [step]. unfold held_line.
      destruct (heap_clients σ !! c) as [cl|]; [|discriminate].
      destruct (client_msg cl); [discriminate|discriminate].
Qed.

End Order.

(** C7: in the interleaving model of the goroutines, every step other than
    a step of the dispatcher leaves the registry, the rooms, the member
    lists and the nicknames unchanged, and the only line it can hand to a
    client is the invalid-command reply of that client's own ingest
    goroutine; a command is handed over on the shared queue only while the
    dispatcher holds none; the dispatcher runs the commands one after the
    other in the order in which they were handed over; the commands of one
    client are handed over, hence run, in the order of the lines read from
    its connection; and the member lists and nicknames of a state are those
    obtained by applying the commands run so far in that order. *)
Theorem C7_single_dispatcher :
  (forall σ e r,
     e <> Dispatch -> step e σ = Some r ->
     shared_unchanged σ (result_state r)
     /\ forall d,
          delivered (result_state r) d = delivered σ d
          \/ exists l, e = Ingest d /\ held_line σ d = Some l
                       /\ parseCommand d l = None
                       /\ delivered (result_state r) d = delivered σ d ++ [err_invalid l])
  /\ (forall σ c σ',
        reachable σ -> step (Ingest c) σ = Some (Ok σ') ->
        server_cmd σ' <> server_cmd σ -> server_cmd σ = None)
  /\ (forall es σ,
        exec es NewChatServer = Some (Ok σ) ->
        handed es NewChatServer = ran es NewChatServer ++ pending_cmd σ
        /\ (forall c,
              omap (parseCommand c) (lines_read c es)
              = from_client c (ran es NewChatServer)
                ++ from_client c (pending_cmd σ) ++ pending_line σ c)
        /\ (forall n, members σ n = joiners n (ran es NewChatServer))
        /\ (forall c, nick_of σ c = nick_after "" c (ran es NewChatServer))).
Proof.
  split; [|split].
  - intros σ e r He Hstep. split; [exact (step_shared e σ r He Hstep)|].
    intros d. exact (step_delivered e σ r d He Hstep).
  - intros σ c σ' Hreach Hstep Hne.
    destruct (step_cmd_held (Ingest c) σ σ' (reachable_wf σ Hreach) Hstep)
      as (l & _ & _ & _ & Hcmd).
    destruct (parseCommand c l); [tauto | congruence].
  - intros es σ Hexec.
    pose proof (handed_ran es _ _ wf_init Hexec) as Hfifo. cbn in Hfifo.
    split; [exact Hfifo|]. split; [|split].
    + intros c. pose proof (lines_handed es _ _ c wf_init Hexec) as Hl.
      change (pending_line NewChatServer c) with (@nil Command) in Hl.
      rewrite app_nil_l in Hl.
      rewrite Hl, Hfifo, from_client_app, <- app_assoc. reflexivity.
    + intros n. exact (members_ran es _ _ n wf_init Hexec).
    + intros c. exact (nick_of_ran es _ _ c wf_init Hexec).
Qed.

(** C7 at a concrete input: the end-to-end scenario, the commands of alice,
    and a read error on the connection of bob after it. *)
Lemma C7_single_dispatcher_witness :
  let σ := after scenario in
  exec scenario NewChatServer = Some (Ok σ)
  /\ handed scenario NewChatServer = ran scenario NewChatServer ++ pending_cmd σ
  /\ omap (parseCommand 0) (lines_read 0 scenario)
     = from_client 0 (ran scenario NewChatServer)
       ++ from_client 0 (pending_cmd σ) ++ pending_line σ 0
  /\ step (ReadError 1) σ = Some (Read_error 1 σ)
  /\ shared_unchanged σ (result_state (Read_error 1 σ)).
Proof.
  cbv zeta.
  assert (Hexec : exec scenario NewChatServer = Some (Ok (after scenario))).
  { vm_compute. reflexivity. }
  assert (Hstep : step (ReadError 1) (after scenario)
                  = Some (Read_error 1 (after scenario))).
  { vm_compute. reflexivity. }
  assert (Hne : ReadError 1 <> Dispatch) by discriminate.
  split; [exact Hexec|].
  destruct C7_single_dispatcher as (Hother & _ & Horder).
  destruct (Horder scenario _ Hexec) as (H1 & H2 & _).
  split; [exact H1|]. split; [exact (H2 0)|]. split; [exact Hstep|].
  exact (proj1 (Hother _ _ _ Hne Hstep)).
Defined.

(** ** How the process ends *)

Section Endings.

Lemma send_not_Fatal c line σ σ' : send c line σ <> Fatal σ'.
Proof. rewrite send_push. now destruct (live σ c). Qed.

Lemma send_all_not_Fatal cs line σ σ' : send_all cs line σ <> Fatal σ'.
Proof.
  destruct (send_all_result cs line σ) as (pre & post & _ & _ & _ & H).
  intros E. now rewrite E in H.
Qed.

Lemma Run_not_Fatal cmd σ σ' : Run cmd σ <> Fatal σ'.
Proof.
  destruct cmd as [c n|c name|c name msg]; cbn [Run].
  - now destruct (heap_clients σ !! c).
  - unfold JoinRoom, NewRoom, AddClient.
    destruct (server_rooms σ !! name) as [room|].
    + now destruct (heap_rooms σ !! room).
    + cbn. now destruct ((heap_rooms σ ++ _) !! _).
  - rewrite Broadcast_cases.
    destruct (server_rooms σ !! name) as [room|]; [|apply send_not_Fatal].
    destruct (heap_clients σ !! c); [|discriminate].
    destruct (String.eqb (nick_of σ c) ""); [apply send_not_Fatal|].
    destruct (heap_rooms σ !! room); [apply send_all_not_Fatal | discriminate].
Qed.

(** [log.Fatal] is reached from the accept loop only. *)
Lemma step_Fatal_inv e σ σ' : step e σ = Some (Fatal σ') -> e = AcceptError.
Proof.
  destruct e as [| |c s|c|c|]; cbn [step]; try discriminate; try reflexivity.
  - destruct (heap_clients σ !! c) as [cl|]; [|discriminate].
    destruct (client_msg cl); [discriminate|].
    destruct (chan_send (client_incoming cl) s); [|discriminate].
    destruct (is_line s); discriminate.
  - destruct (heap_clients σ !! c) as [cl|] eqn:Hcl; [|discriminate].
    destruct (chan_closed (client_incoming cl)); [discriminate|].
    unfold Read_error. rewrite Hcl. cbn.
    destruct (chan_close (client_incoming cl)); [|discriminate].
    destruct (chan_close (client_outgoing cl)); discriminate.
  - destruct (heap_clients σ !! c) as [cl|]; [|discriminate].
    destruct (client_msg cl) as [msg|]; [|discriminate].
    destruct (parseCommand c msg).
    + destruct (server_cmd σ); discriminate.
    + intros [= H]. destruct (send c (err_invalid msg) σ) eqn:Hs; try discriminate.
      now apply send_not_Fatal in Hs.
  - destruct (server_cmd σ) as [cmd|]; [|discriminate].
    intros [= H]. destruct (Run cmd σ) eqn:Hr; try discriminate.
    now apply Run_not_Fatal in Hr.
Qed.

Lemma live_false_terminated σ c :
  c < length (heap_clients σ) -> live σ c = false -> terminated σ c = true.
Proof.
  intros Hc. unfold live, terminated.
  destruct (lookup_lt_is_Some_2 _ _ Hc) as [cl ->].
  now destruct (chan_closed (client_outgoing cl)).
Qed.

(** The teardown of [client.Read] in a well-formed state. *)
Lemma step_ReadError_spec σ c r :
  wf σ -> step (ReadError c) σ = Some r ->
  exists σ',
    r = Ok σ' /\ terminated σ' c = true
    /\ (forall d, d <> c -> heap_clients σ' !! d = heap_clients σ !! d)
    /\ (forall d, delivered σ' d = delivered σ d)
    /\ shared_unchanged σ σ'
    /\ server_cmd σ' = server_cmd σ
    /\ (forall d, held_line σ' d = held_line σ d).
Proof.
  intros Hwf. cbn [step].
  destruct (heap_clients σ !! c) as [cl|] eqn:Hcl; [|discriminate].
  destruct (chan_closed (client_incoming cl)) eqn:Hin; [discriminate|].
  intros [= <-]. pose proof (wf_chans σ Hwf _ _ Hcl) as Hch. rewrite Hin in Hch.
  pose proof (lookup_lt_Some _ _ _ Hcl) as Hlt.
  unfold Read_error, chan_close. rewrite Hcl. cbn. rewrite Hin, <- Hch.
  eexists. split; [reflexivity|]. split; [|split; [|split; [|split; [|split]]]].
  - unfold terminated. cbn. now rewrite list_lookup_insert_eq by exact Hlt.
  - intros d Hd. cbn. now rewrite list_lookup_insert_ne by congruence.
  - intros d. unfold delivered. cbn. destruct (decide (d = c)) as [->|Hne].
    + rewrite list_lookup_insert_eq by exact Hlt. now rewrite Hcl.
    + now rewrite list_lookup_insert_ne by congruence.
  - now apply (update_client_shared σ c cl).
  - reflexivity.
  - intros d. now apply (update_client_held σ c cl).
Qed.

(** In a well-formed state a step panics only on a send to a client whose
    connection has terminated. *)
Lemma step_Panic_inv e σ σ' :
  wf σ -> step e σ = Some (Panic σ') ->
  (exists c l, e = Ingest c /\ held_line σ c = Some l /\ parseCommand c l = None
               /\ terminated σ c = true)
  \/ (e = Dispatch
      /\ exists from name msg,
           server_cmd σ = Some (MsgCommand from name msg)
           /\ (terminated σ from = true
               \/ exists d, d ∈ members σ name /\ terminated σ d = true)).
Proof.
  intros Hwf Hstep. destruct e as [| |c s|c|c|].
  - cbn [step] in Hstep. discriminate.
  - cbn [step] in Hstep. discriminate.
  - cbn [step] in Hstep.
    destruct (heap_clients σ !! c) as [cl|]; [|discriminate].
    destruct (client_msg cl); [discriminate|].
    destruct (chan_send (client_incoming cl) s); [|discriminate].
    destruct (is_line s); discriminate.
  - destruct (step_ReadError_spec σ c _ Hwf Hstep) as (? & [=] & _).
  - left. destruct (held_line σ c) as [l|] eqn:Hheld.
    + destruct (parseCommand c l) as [cmd|] eqn:Hp.
      * rewrite (step_Ingest_command σ c l cmd Hheld Hp) in Hstep.
        destruct (server_cmd σ); discriminate.
      * rewrite (step_Ingest_invalid σ c l Hheld Hp) in Hstep.
        destruct (live σ c) eqn:Hlive; [discriminate|].
        exists c, l. repeat (split; [reflexivity || assumption|]).
        apply live_false_terminated; [|exact Hlive].
        unfold held_line in Hheld.
        destruct (heap_clients σ !! c) eqn:Hcl; [|discriminate].
        eapply lookup_lt_Some; eauto.
    + exfalso. revert Hstep Hheld. cbn [step]. unfold held_line.
      destruct (heap_clients σ !! c) as [cl|]; [|discriminate].
      destruct (client_msg cl); [discriminate|discriminate].
  - right. split; [reflexivity|].
    apply step_Dispatch_inv in Hstep as (cmd & Hcmd & Hr).
    pose proof (wf_cmd σ Hwf _ Hcmd) as Hc.
    destruct (Run_effect cmd σ Hwf Hc) as (_ & _ & _ & _ & _ & _ & Hok).
    destruct cmd as [c n|c name|c name msg];
      [rewrite Hok in Hr; discriminate | rewrite Hok in Hr; discriminate|].
    cbn [cmd_client] in Hc. exists c, name, msg. split; [exact Hcmd|].
    symmetry in Hr. cbn [Run] in Hr. rewrite Broadcast_cases in Hr.
    assert (Hsend : forall line, (send c line σ >>= fun σ' => Ok (set_server_cmd None σ'))
                                 = Panic σ' -> terminated σ c = true).
    { intros line. rewrite send_push. destruct (live σ c) eqn:Hlive; [discriminate|].
      intros _. now apply live_false_terminated. }
    unfold members.
    destruct (server_rooms σ !! name) as [room|] eqn:Hroom; [|left; eapply Hsend; eauto].
    destruct (lookup_lt_is_Some_2 _ _ Hc) as [cl Hcl]. rewrite Hcl in Hr.
    destruct (String.eqb (nick_of σ c) ""); [left; eapply Hsend; eauto|].
    destruct (wf_rooms σ Hwf _ _ Hroom) as (rm & Hrm & _). rewrite Hrm in Hr |- *.
    right.
    destruct (send_all_result (room_clients rm) (msgFmt name (nick_of σ c) msg) σ)
      as (pre & post & Hcs & _ & _ & Hres).
    destruct (send_all (room_clients rm) (msgFmt name (nick_of σ c) msg) σ);
      [discriminate| |destruct Hres].
    destruct Hres as (d & post' & -> & Hd). exists d.
    assert (Hin : d ∈ room_clients rm).
    { rewrite Hcs. apply elem_of_app. right. left. }
    split; [exact Hin|]. apply live_false_terminated; [|exact Hd].
    eapply wf_members; eauto.
Qed.

(** The teardown of [client.Read], spelled out. *)
Lemma Read_error_torn_down c σ cl :
  heap_clients σ !! c = Some cl ->
  chan_closed (client_incoming cl) = false ->
  chan_closed (client_outgoing cl) = false ->
  Read_error c σ = Ok (set_heap_clients (<[c := torn_down cl]> (heap_clients σ)) σ).
Proof.
  intros Hcl Hin Hout. unfold Read_error, chan_close. rewrite Hcl. cbn.
  rewrite Hin, Hout. reflexivity.
Qed.

(** A read error can occur exactly on a client that has not terminated,
    and leaves the client torn down: connection and both channels closed,
    everything else of the state as it was. *)
Lemma step_ReadError_exact σ c :
  wf σ ->
  (is_Some (step (ReadError c) σ) <-> live σ c = true)
  /\ forall r, step (ReadError c) σ = Some r ->
       exists cl,
         heap_clients σ !! c = Some cl
         /\ r = Ok (set_heap_clients (<[c := torn_down cl]> (heap_clients σ)) σ).
Proof.
  intros Hwf. cbn [step]. unfold live.
  destruct (heap_clients σ !! c) as [cl|] eqn:Hcl.
  - pose proof (wf_chans σ Hwf _ _ Hcl) as Hch.
    destruct (chan_closed (client_incoming cl)) eqn:Hin.
    + rewrite <- Hch. split; [|discriminate].
      split; [intros [? [=]] | discriminate].
    + rewrite <- Hch. split; [split; [reflexivity | eauto]|].
      intros r [= <-]. exists cl. split; [reflexivity|].
      apply Read_error_torn_down; [exact Hcl | exact Hin | now rewrite <- Hch].
  - split; [|discriminate]. split; [intros [? [=]] | discriminate].
Qed.

(** In a well-formed state a step panics exactly when it sends to a client
    whose connection has terminated. *)
Lemma step_Panic_exact e σ :
  wf σ ->
  (exists σ', step e σ = Some (Panic σ')) <->
  (exists c l, e = Ingest c /\ held_line σ c = Some l /\ parseCommand c l = None
               /\ terminated σ c = true)
  \/ (e = Dispatch
      /\ exists from name msg,
           server_cmd σ = Some (MsgCommand from name msg)
           /\ ((server_rooms σ !! name = None \/ nick_of σ from = "")
                /\ terminated σ from = true
               \/ (is_Some (server_rooms σ !! name) /\ nick_of σ from <> ""
                   /\ exists d, d ∈ members σ name /\ terminated σ d = true))).
Proof.
  intros Hwf. split.
  - intros (σ' & Hstep).
    destruct (step_Panic_inv e σ σ' Hwf Hstep)
      as [H|(-> & from & name & msg & Hcmd & _)]; [now left|].
    right. split; [reflexivity|]. exists from, name, msg. split; [exact Hcmd|].
    pose proof (wf_cmd σ Hwf _ Hcmd) as Hc. cbn [cmd_client] in Hc.
    cbn [step] in Hstep. rewrite Hcmd in Hstep. cbn [Run] in Hstep.
    rewrite Broadcast_cases in Hstep.
    assert (Hsend : forall line,
               Some (send from line σ >>= fun σ1 => Ok (set_server_cmd None σ1))
               = Some (Panic σ') -> terminated σ from = true).
    { intros line. rewrite send_push. destruct (live σ from) eqn:Hlive; [discriminate|].
      intros _. now apply live_false_terminated. }
    unfold members.
    destruct (server_rooms σ !! name) as [room|] eqn:Hroom;
      [|left; split; [now left | eapply Hsend; eauto]].
    destruct (lookup_lt_is_Some_2 _ _ Hc) as [cl Hcl]. rewrite Hcl in Hstep.
    destruct (String.eqb (nick_of σ from) "") eqn:Hnick.
    { left. split; [right; now apply String.eqb_eq | eapply Hsend; eauto]. }
    apply String.eqb_neq in Hnick.
    destruct (wf_rooms σ Hwf _ _ Hroom) as (rm & Hrm & _). rewrite Hrm in Hstep |- *.
    right. split; [eauto|]. split; [exact Hnick|].
    destruct (send_all_result (room_clients rm) (msgFmt name (nick_of σ from) msg) σ)
      as (pre & post & Hcs & _ & _ & Hres).
    destruct (send_all (room_clients rm) (msgFmt name (nick_of σ from) msg) σ);
      [discriminate| |destruct Hres].
    destruct Hres as (d & post' & -> & Hd). exists d.
    assert (Hin : d ∈ room_clients rm).
    { rewrite Hcs. apply elem_of_app. right. left. }
    split; [exact Hin|]. apply live_false_terminated; [|exact Hd].
    eapply wf_members; eauto.
  - intros [(c & l & -> & Hheld & Hp & Ht)|(-> & from & name & msg & Hcmd & Hwho)].
    + exists σ. rewrite (step_Ingest_invalid σ c l Hheld Hp).
      now rewrite (terminated_not_live σ c Ht).
    + cbn [step]. rewrite Hcmd. cbn [Run].
      destruct Hwho as [(Hwhy & Ht)|(Hroom & Hnick & d & Hd & Ht)].
      * exists σ. rewrite Broadcast_cases.
        pose proof (terminated_not_live σ from Ht) as Hlive.
        assert (Hcl : is_Some (heap_clients σ !! from)).
        { unfold terminated in Ht. destruct (heap_clients σ !! from); [eauto|discriminate]. }
        destruct Hcl as [cl Hcl].
        destruct (server_rooms σ !! name) as [room|] eqn:Hr.
        -- destruct Hwhy as [[=]|Hn]. rewrite Hcl, Hn. cbn.
           now rewrite send_push, Hlive.
        -- now rewrite send_push, Hlive.
      * rewrite (Broadcast_fanout_wf name from msg σ Hwf Hnick Hroom).
        destruct (send_all_result (members σ name) (msgFmt name (nick_of σ from) msg) σ)
          as (pre & post & Hcs & _ & Hlive & Hres).
        destruct (send_all (members σ name) (msgFmt name (nick_of σ from) msg) σ)
          as [σ1|σ1|σ1]; [|eauto|destruct Hres].
        exfalso. subst post. rewrite app_nil_r in Hcs. rewrite Hcs in Hd.
        specialize (Hlive d Hd). rewrite (terminated_not_live σ d Ht) in Hlive.
        discriminate Hlive.
Qed.

End Endings.

(** C8, as the specification words it, fails: [read_error_then_message]
    contains no accept error; the connection of client 0, a member of room
    [r], gets a read error; when client 1, whose connection is up, then
    sends a message to [r], the dispatcher panics and the process ends,
    while the same schedule without the read error runs on. *)
Lemma C8_read_error_ends_process :
  bool_decide (AcceptError ∈ read_error_then_message) = false
  /\ bool_decide (ReadError 0 ∈ read_error_then_message) = true
  /\ exec read_error_then_message NewChatServer
     = Some (Panic (after read_error_then_message))
  /\ terminated (after read_error_then_message) 1 = false
  /\ exec message_without_read_error NewChatServer
     = Some (Ok (after message_without_read_error)).
Proof. repeat apply conj; vm_compute; reflexivity. Qed.

(** C8, amended: an error of [Accept] ends the process by [log.Fatal], and
    no other step of the running server does.  A read error on a connection
    closes the connection and the two queues of that client, and changes
    nothing else
    (not the nickname or the lines of that client, no other client, not
    the list of clients, no line handed over, no held line, no command, no
    room, no nickname), and the step itself does not end the process.  The
    process also ends by a run-time panic, and in a reachable state a step
    panics exactly when it sends to a client whose connection has
    terminated: the invalid-command reply of its own ingest goroutine; the
    error reply of a message command to a terminated sender (room missing,
    or room present and nickname empty); or the fan-out of a message
    command (room present, nickname set) to a room with a terminated
    member. *)
Theorem C8_fatal_and_read_error (σ : State) (c : ClientPtr) :
  step AcceptError σ = Some (Fatal σ)
  /\ (forall e σ', step e σ = Some (Fatal σ') -> e = AcceptError)
  /\ (reachable σ ->
      forall r,
           step (ReadError c) σ = Some r ->
           exists cl σ',
             heap_clients σ !! c = Some cl
             /\ r = Ok σ'
             /\ heap_clients σ' !! c =
                Some {| client_conn_closed := true;
                        client_incoming :=
                          {| chan_closed := true;
                             chan_sent := chan_sent (client_incoming cl) |};
                        client_outgoing :=
                          {| chan_closed := true;
                             chan_sent := chan_sent (client_outgoing cl) |};
                        client_nick := client_nick cl;
                        client_msg := client_msg cl |}
             /\ server_clients σ' = server_clients σ
             /\ terminated σ' c = true
             /\ (forall d, d <> c -> heap_clients σ' !! d = heap_clients σ !! d)
             /\ (forall d, delivered σ' d = delivered σ d)
             /\ shared_unchanged σ σ'
             /\ server_cmd σ' = server_cmd σ
             /\ (forall d, held_line σ' d = held_line σ d))
  /\ (reachable σ -> forall e,
      (exists σ', step e σ = Some (Panic σ')) <->
      (exists c' l, e = Ingest c' /\ held_line σ c' = Some l
                    /\ parseCommand c' l = None /\ terminated σ c' = true)
      \/ (e = Dispatch
          /\ exists from name msg,
               server_cmd σ = Some (MsgCommand from name msg)
               /\ ((server_rooms σ !! name = None \/ nick_of σ from = "")
                    /\ terminated σ from = true
                   \/ (is_Some (server_rooms σ !! name) /\ nick_of σ from <> ""
                       /\ exists d, d ∈ members σ name /\ terminated σ d = true)))).
Proof.
  split; [reflexivity|]. split; [intros e σ'; apply step_Fatal_inv|]. split.
  - intros Hreach. pose proof (reachable_wf σ Hreach) as Hwf.
    destruct (step_ReadError_exact σ c Hwf) as (_ & Hex).
    intros r Hstep.
    destruct (Hex r Hstep) as (cl & Hcl & Hr).
    destruct (step_ReadError_spec σ c r Hwf Hstep) as (σ' & Hr' & Hrest).
    exists cl, σ'. split; [exact Hcl|]. split; [exact Hr'|].
    assert (E : σ' = set_heap_clients (<[c := torn_down cl]> (heap_clients σ)) σ)
      by congruence.
    split; [|split; [now rewrite E | exact Hrest]].
    rewrite E. cbn. rewrite list_lookup_insert_eq by (eapply lookup_lt_Some; eauto).
    reflexivity.
  - intros Hreach e. apply step_Panic_exact, reachable_wf, Hreach.
Qed.

(** C8 at concrete inputs: a read error after the end-to-end scenario, and
    the panic of the dispatcher in the state reached by [broken_member_msg]. *)
Lemma C8_fatal_and_read_error_witness :
  (let σ := after scenario in
   reachable σ
   /\ exists cl σ',
        heap_clients σ !! 0 = Some cl
        /\ step (ReadError 0) σ = Some (Ok σ')
        /\ heap_clients σ' !! 0 =
           Some {| client_conn_closed := true;
                   client_incoming :=
                     {| chan_closed := true;
                        chan_sent := chan_sent (client_incoming cl) |};
                   client_outgoing :=
                     {| chan_closed := true;
                        chan_sent := chan_sent (client_outgoing cl) |};
                   client_nick := client_nick cl;
                   client_msg := client_msg cl |}
        /\ terminated σ' 0 = true
        /\ shared_unchanged σ σ')
  /\ (let σ := after broken_member_msg in
      reachable σ
      /\ step Dispatch σ = Some (Panic (result_state (Run (MsgCommand 0 "r" "hello") σ)))
      /\ exists from name msg,
           server_cmd σ = Some (MsgCommand from name msg)
           /\ ((server_rooms σ !! name = None \/ nick_of σ from = "")
                /\ terminated σ from = true
               \/ (is_Some (server_rooms σ !! name) /\ nick_of σ from <> ""
                   /\ exists d, d ∈ members σ name /\ terminated σ d = true))).
Proof.
  cbv zeta. split.
  - assert (Hreach : reachable (after scenario)).
    { apply (exec_reachable scenario). vm_compute. reflexivity. }
    split; [exact Hreach|].
    assert (Hstep : step (ReadError 0) (after scenario)
                    = Some (Read_error 0 (after scenario))).
    { vm_compute. reflexivity. }
    destruct (proj1 (proj2 (proj2 (C8_fatal_and_read_error (after scenario) 0)))
                Hreach _ Hstep)
      as (cl & σ' & Hcl & Hr & Hnew & _ & Hterm & _ & _ & Hsh & _).
    exists cl, σ'. split; [exact Hcl|]. split; [now rewrite Hstep, Hr|].
    split; [exact Hnew|]. split; [exact Hterm | exact Hsh].
  - assert (Hreach : reachable (after broken_member_msg)).
    { apply (exec_reachable broken_member_msg). vm_compute. reflexivity. }
    split; [exact Hreach|].
    assert (Hstep : step Dispatch (after broken_member_msg)
                    = Some (Panic (result_state
                                     (Run (MsgCommand 0 "r" "hello")
                                        (after broken_member_msg))))).
    { vm_compute. reflexivity. }
    split; [exact Hstep|].
    destruct (proj1 (proj2 (proj2 (proj2 (C8_fatal_and_read_error
                                            (after broken_member_msg) 0)))
                       Hreach Dispatch) (ex_intro _ _ Hstep))
      as [(c' & l & He & _)|(_ & H)].
    + discriminate He.
    + exact H.
Defined.

(** ** Worked examples *)

(** The end-to-end scenario of the specification: both members of [lobby]
    get the line of alice. *)
Example scenario_run :
  (delivered (after scenario) 0, delivered (after scenario) 1)
  = (["lobby / alice: hi all" +:+ nl], ["lobby / alice: hi all" +:+ nl]).
Proof. vm_compute. reflexivity. Qed.

Example parse_nick : parseCommand 0 ("nick bob" +:+ nl) = Some (NickCommand 0 "bob").
Proof. vm_compute. reflexivity. Qed.

Example parse_join : parseCommand 3 ("join lobby" +:+ nl) = Some (JoinCommand 3 "lobby").
Proof. vm_compute. reflexivity. Qed.

Example parse_msg :
  parseCommand 0 ("msg lobby hi all" +:+ nl) = Some (MsgCommand 0 "lobby" "hi all").
Proof. vm_compute. reflexivity. Qed.

Example parse_empty_nick : parseCommand 0 ("nick " +:+ nl) = None.
Proof. vm_compute. reflexivity. Qed.

Example parse_no_newline : parseCommand 0 "nick bob" = None.
Proof. vm_compute. reflexivity. Qed.

(** The nick pattern is tried first and is not anchored at the start, so a
    message whose text ends like a nick command is taken for one. *)
Example parse_msg_as_nick :
  parseCommand 0 ("msg lobby nick bob" +:+ nl) = Some (NickCommand 0 "bob").
Proof. vm_compute. reflexivity. Qed.

(** A client that never joined can message a room; only the members get
    the line. *)
Example outsider_message :
  let σ := after (scenario ++ [Accept;
                               ReadLine 2 ("nick carol" +:+ nl); Ingest 2; Dispatch;
                               ReadLine 2 ("msg lobby test" +:+ nl); Ingest 2; Dispatch]) in
  (delivered σ 0, delivered σ 1, delivered σ 2)
  = (["lobby / alice: hi all" +:+ nl; "lobby / carol: test" +:+ nl],
     ["lobby / alice: hi all" +:+ nl; "lobby / carol: test" +:+ nl],
     []).
Proof. vm_compute. reflexivity. Qed.

(** * Further properties of the code *)

(** ** The parser on well-shaped lines *)

Section ParserShapes.

Lemma Find_here (re : Regexp) (s : string) (m : list string) :
  match_here re s = Some m -> FindStringSubmatch re s = Some m.
Proof. intros H. destruct s; cbn [FindStringSubmatch]; now rewrite H. Qed.

Lemma Find_skip (re : Regexp) (a : ascii) (s : string) :
  match_here re (String a s) = None ->
  FindStringSubmatch re (String a s) = FindStringSubmatch re s.
Proof. intros H. cbn [FindStringSubmatch]. now rewrite H. Qed.

Lemma Find_None (re : Regexp) (l : string) :
  (forall p t, l = p +:+ t -> match_here re t = None) ->
  FindStringSubmatch re l = None.
Proof.
  intros H. destruct (FindStringSubmatch re l) as [m|] eqn:E; [|reflexivity].
  apply Find_Some in E as (p & t & Hl & Hm). rewrite (H p t Hl) in Hm. discriminate.
Qed.

Lemma is_word_not_space_char c : is_word c = true -> not_space c = true.
Proof.
  unfold not_space. destruct (Ascii.eqb_spec c " ") as [->|]; [discriminate|reflexivity].
Qed.

Lemma string_forall_impl (P Q : ascii -> bool) (s : string) :
  (forall c, P c = true -> Q c = true) ->
  string_forall P s = true -> string_forall Q s = true.
Proof.
  intros HPQ. induction s as [|c s IH]; [reflexivity|]. cbn.
  intros [Hc Hs]%andb_prop. rewrite (HPQ c Hc). now apply IH.
Qed.

(** A word followed by a newline holds no space. *)
Lemma word_line_no_space (w q y : string) :
  string_forall is_word w = true -> w +:+ nl = q +:+ String " " y -> False.
Proof.
  intros Hw E.
  assert (H : string_forall not_space (w +:+ nl) = true).
  { rewrite string_forall_append.
    rewrite (string_forall_impl _ _ w is_word_not_space_char Hw). reflexivity. }
  rewrite E, string_forall_append in H. cbn in H.
  now rewrite andb_false_r in H.
Qed.

(** Peel one byte off both sides of an equation between a literal and an
    unknown prefix. *)
Ltac peel E p :=
  destruct p as [|? p]; cbn in E; [discriminate E | injection E as _ E].

(** No nick command starts before the last [nick ] of a line. *)
Lemma no_earlier_nick (w n p : string) (a : ascii) :
  word w ->
  "nick " +:+ w +:+ nl = String a (p +:+ "nick " +:+ n +:+ nl) -> False.
Proof.
  intros [_ Hw] E. cbn in E. injection E as _ E.
  peel E p. peel E p. peel E p. peel E p.
  apply (word_line_no_space w (p +:+ "nick") (n +:+ nl) Hw).
  rewrite E, append_assoc. reflexivity.
Qed.

Lemma Find_nick_suffix (p n : string) :
  word n ->
  FindStringSubmatch nickRegexp (p +:+ "nick " +:+ n +:+ nl)
  = Some ["nick " +:+ n +:+ nl; n].
Proof.
  intros Hn. rewrite nickRegexp_keyword. induction p as [|a p IH].
  - apply Find_here. exact (match_here_keyword_complete "nick " n Hn).
  - change (String a p +:+ "nick " +:+ n +:+ nl)
      with (String a (p +:+ "nick " +:+ n +:+ nl)).
    rewrite Find_skip; [exact IH|].
    destruct (match_here (keyword_re "nick ") (String a (p +:+ "nick " +:+ n +:+ nl)))
      as [m|] eqn:Hm; [|reflexivity].
    apply match_here_keyword in Hm as (w & Hw & E & _).
    exfalso. symmetry in E. exact (no_earlier_nick w n p a Hw E).
Qed.

Lemma append_nl_ends (a b : string) : exists p, a +:+ b +:+ nl = p +:+ nl.
Proof. exists (a +:+ b). now rewrite append_assoc. Qed.

(** The fields of a command of the parser, and the end of its line. *)
Lemma parseCommand_ok (c : ClientPtr) (l : string) (cmd : Command) :
  parseCommand c l = Some cmd ->
  cmd_client cmd = c /\ cmd_ok cmd /\ exists p, l = p +:+ nl.
Proof.
  intros H. split; [exact (parseCommand_client c l cmd H)|]. revert H.
  unfold parseCommand.
  destruct (FindStringSubmatch nickRegexp l) as [m|] eqn:Hn.
  { intros [= <-]. apply Find_Some in Hn as (p & t & -> & Hm).
    rewrite nickRegexp_keyword in Hm.
    apply match_here_keyword in Hm as (w & Hw & -> & ->).
    split; [exact Hw|]. destruct (append_nl_ends "nick " w) as [q ->].
    exists (p +:+ q). now rewrite append_assoc. }
  destruct (FindStringSubmatch joinRegexp l) as [m|] eqn:Hj.
  { intros [= <-]. apply Find_Some in Hj as (p & t & -> & Hm).
    rewrite joinRegexp_keyword in Hm.
    apply match_here_keyword in Hm as (w & Hw & -> & ->).
    split; [exact Hw|]. destruct (append_nl_ends "join " w) as [q ->].
    exists (p +:+ q). now rewrite append_assoc. }
  destruct (FindStringSubmatch msgRegexp l) as [m|] eqn:Hm; [|discriminate].
  intros [= <-]. apply Find_Some in Hm as (p & t & -> & Hm).
  apply match_here_msg in Hm as (w & rest & Hw & Hr & Hd & -> & ->).
  split; [cbn; auto|].
  exists (p +:+ "msg " +:+ w +:+ " " +:+ rest). now rewrite !append_assoc.
Qed.

(** Two ways to cut a string before a tail without space, at a space, are
    the same. *)
Lemma last_space_unique (a b u v : string) :
  string_forall not_space u = true -> string_forall not_space v = true ->
  a +:+ String " " u = b +:+ String " " v -> a = b /\ u = v.
Proof.
  intros Hu Hv. revert b. induction a as [|x a IH]; intros b E.
  - destruct b as [|y b]; cbn in E.
    + injection E as ->. auto.
    + injection E as _ E. exfalso. rewrite E, string_forall_append in Hu.
      cbn in Hu. now rewrite andb_false_r in Hu.
  - destruct b as [|y b]; cbn in E.
    + injection E as _ E. exfalso. rewrite <- E, string_forall_append in Hv.
      cbn in Hv. now rewrite andb_false_r in Hv.
    + injection E as -> E. destruct (IH b E) as (-> & ->). auto.
Qed.

Lemma append_inj_length (a b s t : string) :
  String.length s = String.length t -> a +:+ s = b +:+ t -> a = b /\ s = t.
Proof.
  intros Hlen. revert b. induction a as [|x a IH]; intros b E.
  - destruct b as [|y b]; cbn in E; [auto|].
    exfalso. apply (f_equal String.length) in E. cbn in E.
    rewrite length_append in E. lia.
  - destruct b as [|y b]; cbn in E.
    + exfalso. apply (f_equal String.length) in E. cbn in E.
      rewrite length_append in E. lia.
    + injection E as -> E. destruct (IH b E) as (-> & ->). auto.
Qed.

Lemma word_nl_no_space (w : string) :
  string_forall is_word w = true -> string_forall not_space (w +:+ nl) = true.
Proof.
  intros Hw. rewrite string_forall_append.
  now rewrite (string_forall_impl _ _ w is_word_not_space_char Hw).
Qed.

(** A line ends with a keyword, a word and a newline in one way only. *)
Lemma keyword_suffix_unique (k k' p q w w' : string) :
  string_forall is_word w = true -> string_forall is_word w' = true ->
  String.length k = String.length k' ->
  p +:+ (k +:+ " ") +:+ w +:+ nl = q +:+ (k' +:+ " ") +:+ w' +:+ nl ->
  p = q /\ k = k' /\ w = w'.
Proof.
  intros Hw Hw' Hlen E.
  assert (E' : (p +:+ k) +:+ String " " (w +:+ nl)
               = (q +:+ k') +:+ String " " (w' +:+ nl)).
  { rewrite !append_assoc. rewrite !append_assoc in E. exact E. }
  apply last_space_unique in E' as (E1 & E2); try (now apply word_nl_no_space).
  apply append_inj_length in E1 as (-> & ->); [|exact Hlen].
  apply (append_inj_length w w' nl nl eq_refl) in E2 as (-> & _). auto.
Qed.

(** The leftmost match of a keyword pattern in a line that ends with the
    keyword, a word and a newline is that end of the line. *)
Lemma Find_keyword_suffix (k p w : string) :
  word w ->
  FindStringSubmatch (keyword_re (k +:+ " ")) (p +:+ (k +:+ " ") +:+ w +:+ nl)
  = Some [(k +:+ " ") +:+ w +:+ nl; w].
Proof.
  intros Hw. induction p as [|a p IH].
  - apply Find_here. exact (match_here_keyword_complete (k +:+ " ") w Hw).
  - change (String a p +:+ (k +:+ " ") +:+ w +:+ nl)
      with (String a (p +:+ (k +:+ " ") +:+ w +:+ nl)).
    rewrite Find_skip; [exact IH|].
    destruct (match_here (keyword_re (k +:+ " "))
                (String a (p +:+ (k +:+ " ") +:+ w +:+ nl))) as [m|] eqn:Hm;
      [|reflexivity].
    apply match_here_keyword in Hm as (w' & Hw' & E & _).
    exfalso.
    destruct (keyword_suffix_unique k k (String a p) "" w w'
                (proj2 Hw) (proj2 Hw') eq_refl E) as (Hp & _).
    discriminate Hp.
Qed.

(** No nick command ends a line that ends with a join command. *)
Lemma no_nick_in_join_line (p w q t : string) :
  word w -> p +:+ "join " +:+ w +:+ nl = q +:+ t ->
  match_here (keyword_re "nick ") t = None.
Proof.
  intros Hw E. destruct (match_here (keyword_re "nick ") t) as [m|] eqn:Hm;
    [|reflexivity].
  apply match_here_keyword in Hm as (w' & Hw' & -> & _). exfalso.
  destruct (keyword_suffix_unique "join" "nick" p q w w'
              (proj2 Hw) (proj2 Hw') eq_refl E) as (_ & Hk & _).
  discriminate Hk.
Qed.

End ParserShapes.

(** X1: a line that ends with [nick <word>\n] is parsed as the nick command
    for that word, whatever precedes it on the line: the nick pattern is
    tried first and is not anchored at the start. *)
Theorem parse_nick_suffix (c : ClientPtr) (p n : string) :
  word n ->
  parseCommand c (p +:+ "nick " +:+ n +:+ nl) = Some (NickCommand c n).
Proof.
  intros Hn. unfold parseCommand. now rewrite (Find_nick_suffix p n Hn).
Qed.

(** X1 at a concrete input: a message whose text ends like a nick command. *)
Lemma parse_nick_suffix_witness :
  parseCommand 4 ("msg lobby call me " +:+ "nick " +:+ "bob" +:+ nl)
  = Some (NickCommand 4 "bob").
Proof.
  apply (parse_nick_suffix 4 "msg lobby call me " "bob").
  split; [discriminate | reflexivity].
Defined.

(** X2: a line that ends with [join <word>\n] and not with a nick command
    is parsed as the join command for that word, whatever precedes it on
    the line: a message whose text ends like a join command is a join. *)
Theorem parse_join_suffix (c : ClientPtr) (p w : string) :
  word w ->
  parseCommand c (p +:+ "join " +:+ w +:+ nl) = Some (JoinCommand c w).
Proof.
  intros Hw. unfold parseCommand. rewrite Find_None.
  - rewrite joinRegexp_keyword.
    pose proof (Find_keyword_suffix "join" p w Hw) as H.
    change ("join" +:+ " ") with "join " in H. rewrite H. reflexivity.
  - intros q t E. rewrite nickRegexp_keyword.
    exact (no_nick_in_join_line p w q t Hw E).
Qed.

Lemma parse_join_suffix_witness :
  parseCommand 2 ("msg lobby please " +:+ "join " +:+ "room_1" +:+ nl)
  = Some (JoinCommand 2 "room_1").
Proof.
  apply (parse_join_suffix 2 "msg lobby please " "room_1").
  split; [discriminate | reflexivity].
Defined.

(** X3: a line of the exact shape [msg <word> <text>\n], with a non-empty
    text without newline, that neither the nick nor the join pattern
    matches, is parsed as the message command with that room and that
    text. *)
Theorem parse_msg_exact (c : ClientPtr) (w text : string) :
  word w -> text <> "" -> string_forall is_dot text = true ->
  FindStringSubmatch nickRegexp ("msg " +:+ w +:+ " " +:+ text +:+ nl) = None ->
  FindStringSubmatch joinRegexp ("msg " +:+ w +:+ " " +:+ text +:+ nl) = None ->
  parseCommand c ("msg " +:+ w +:+ " " +:+ text +:+ nl) = Some (MsgCommand c w text).
Proof.
  intros Hw Hne Hdot Hnick Hjoin. unfold parseCommand. rewrite Hnick, Hjoin.
  now rewrite (Find_here _ _ _ (match_here_msg_complete w text Hw Hne Hdot)).
Qed.

Lemma parse_msg_exact_witness :
  parseCommand 0 ("msg " +:+ "lobby" +:+ " " +:+ "hi: all / of you" +:+ nl)
  = Some (MsgCommand 0 "lobby" "hi: all / of you").
Proof.
  apply (parse_msg_exact 0 "lobby" "hi: all / of you").
  - split; [discriminate | reflexivity].
  - discriminate.
  - reflexivity.
  - vm_compute. reflexivity.
  - vm_compute. reflexivity.
Defined.

(** X4: every command of the parser is for the client that sent the line;
    its nickname or room is one or more word characters, the text of a
    message is non-empty and holds no newline; and the line ends with a
    newline. *)
Theorem parse_fields (c : ClientPtr) (l : string) (cmd : Command) :
  parseCommand c l = Some cmd ->
  cmd_client cmd = c /\ cmd_ok cmd /\ exists p, l = p +:+ nl.
Proof. apply parseCommand_ok. Qed.

Lemma parse_fields_witness :
  cmd_client (MsgCommand 0 "lobby" "hi all") = 0
  /\ cmd_ok (MsgCommand 0 "lobby" "hi all")
  /\ exists p, "msg lobby hi all" +:+ nl = p +:+ nl.
Proof.
  apply (parse_fields 0 ("msg lobby hi all" +:+ nl)). vm_compute. reflexivity.
Defined.

(** ** The lines of the server *)

Section ServerLines.

Lemma word_split (a b x y : string) (c1 c2 : ascii) :
  string_forall is_word a = true -> string_forall is_word b = true ->
  is_word c1 = false -> is_word c2 = false ->
  a +:+ String c1 x = b +:+ String c2 y -> a = b /\ c1 = c2 /\ x = y.
Proof.
  revert b. induction a as [|u a IH]; intros b Ha Hb H1 H2 E.
  - destruct b as [|v b]; cbn in E.
    + injection E as -> ->. auto.
    + injection E as -> _. cbn in Hb. apply andb_prop in Hb as [Hv _]. congruence.
  - cbn in Ha. apply andb_prop in Ha as [Hu Ha]. destruct b as [|v b]; cbn in E.
    + injection E as -> _. congruence.
    + injection E as -> E. cbn in Hb. apply andb_prop in Hb as [_ Hb].
      destruct (IH b Ha Hb H1 H2 E) as (-> & -> & ->). auto.
Qed.

Lemma append_cancel_r (a b : string) (c : ascii) :
  a +:+ String c "" = b +:+ String c "" -> a = b.
Proof.
  revert b. induction a as [|u a IH]; intros b E; destruct b as [|v b]; cbn in E.
  - reflexivity.
  - injection E as _ E. destruct b; discriminate E.
  - injection E as _ E. destruct a; discriminate E.
  - injection E as -> E. f_equal. now apply IH.
Qed.

Lemma is_line_append (body : string) :
  string_forall is_dot body = true -> is_line (body +:+ nl) = true.
Proof.
  induction body as [|c body IH]; [reflexivity|]. cbn.
  intros [Hc Hb]%andb_prop. unfold is_dot in Hc.
  destruct (Ascii.eqb c newline); [discriminate|]. now apply IH.
Qed.

Lemma is_line_prepend (a l : string) :
  string_forall is_dot a = true -> is_line (a +:+ l) = is_line l.
Proof.
  induction a as [|c a IH]; [reflexivity|]. cbn.
  intros [Hc Ha]%andb_prop. unfold is_dot in Hc.
  destruct (Ascii.eqb c newline); [discriminate|]. now apply IH.
Qed.

Lemma is_word_is_dot c : is_word c = true -> is_dot c = true.
Proof.
  unfold is_dot. destruct (Ascii.eqb_spec c newline) as [->|]; [discriminate|reflexivity].
Qed.

Lemma msgFmt_is_line name nick msg :
  string_forall is_word name = true -> string_forall is_word nick = true ->
  string_forall is_dot msg = true -> is_line (msgFmt name nick msg) = true.
Proof.
  intros Hn Hk Hm. unfold msgFmt.
  replace (name +:+ " / " +:+ nick +:+ ": " +:+ msg +:+ nl)
    with ((name +:+ " / " +:+ nick +:+ ": " +:+ msg) +:+ nl)
    by now rewrite !append_assoc.
  apply is_line_append. rewrite !string_forall_append.
  rewrite (string_forall_impl _ _ name is_word_is_dot Hn).
  rewrite (string_forall_impl _ _ nick is_word_is_dot Hk), Hm. reflexivity.
Qed.

End ServerLines.

(** X5: the line of a broadcast determines the room, the nickname and the
    text: two broadcasts with word rooms and word nicknames produce the same
    line only if room, nickname and text are the same. *)
Theorem msgFmt_injective (r n t r' n' t' : string) :
  string_forall is_word r = true -> string_forall is_word n = true ->
  string_forall is_word r' = true -> string_forall is_word n' = true ->
  msgFmt r n t = msgFmt r' n' t' -> r = r' /\ n = n' /\ t = t'.
Proof.
  intros Hr Hn Hr' Hn' E. unfold msgFmt in E.
  change (r +:+ " / " +:+ n +:+ ": " +:+ t +:+ nl)
    with (r +:+ String " " ("/ " +:+ n +:+ ": " +:+ t +:+ nl)) in E.
  change (r' +:+ " / " +:+ n' +:+ ": " +:+ t' +:+ nl)
    with (r' +:+ String " " ("/ " +:+ n' +:+ ": " +:+ t' +:+ nl)) in E.
  apply word_split in E as (-> & _ & E); try assumption; try reflexivity.
  cbn in E. injection E as E.
  change (n +:+ ": " +:+ t +:+ nl) with (n +:+ String ":" (" " +:+ t +:+ nl)) in E.
  change (n' +:+ ": " +:+ t' +:+ nl) with (n' +:+ String ":" (" " +:+ t' +:+ nl)) in E.
  apply word_split in E as (-> & _ & E); try assumption; try reflexivity.
  cbn in E. injection E as E. apply append_cancel_r in E. auto.
Qed.

Lemma msgFmt_injective_witness :
  msgFmt "r1" "ann" "hi" = "r1 / ann: hi" +:+ nl
  /\ ("r1" = "r1" /\ "ann" = "ann" /\ "hi" = "hi").
Proof.
  split; [reflexivity|].
  apply (msgFmt_injective "r1" "ann" "hi" "r1" "ann" "hi"); reflexivity.
Defined.

(** X6: the line of a broadcast to a word room is none of the error lines
    of the server, so a client can tell a broadcast from an error reply. *)
Theorem msgFmt_not_error (r n t : string) :
  string_forall is_word r = true ->
  msgFmt r n t <> err_no_room /\ msgFmt r n t <> err_no_nick
  /\ forall l, msgFmt r n t <> err_invalid l.
Proof.
  intros Hr.
  assert (H : forall rest, msgFmt r n t <> "Error" +:+ String ":" rest).
  { intros rest E. unfold msgFmt in E.
    change (r +:+ " / " +:+ n +:+ ": " +:+ t +:+ nl)
      with (r +:+ String " " ("/ " +:+ n +:+ ": " +:+ t +:+ nl)) in E.
    apply word_split in E as (_ & E & _); try assumption; try reflexivity.
    discriminate E. }
  split; [apply H|]. split; [apply H|]. intros l. apply H.
Qed.

Lemma msgFmt_not_error_witness :
  msgFmt "Error" "x" "y" <> err_no_room /\ msgFmt "Error" "x" "y" <> err_no_nick
  /\ forall l, msgFmt "Error" "x" "y" <> err_invalid l.
Proof. apply (msgFmt_not_error "Error" "x" "y"). reflexivity. Defined.

(** ** The life of a client *)

Section Lifecycle.

Lemma keeps_clients_refl σ : keeps_clients σ σ.
Proof. split; [reflexivity|]. split; [reflexivity|]. eauto. Qed.

Lemma keeps_clients_trans σ1 σ2 σ3 :
  keeps_clients σ1 σ2 -> keeps_clients σ2 σ3 -> keeps_clients σ1 σ3.
Proof.
  intros (A1 & A2 & A3) (B1 & B2 & B3). split; [congruence|]. split; [congruence|].
  intros d cl Hd. destruct (A3 d cl Hd) as (cl2 & H2 & F2).
  destruct (B3 d cl2 H2) as (cl3 & H3 & F3). exists cl3. split; [exact H3 | congruence].
Qed.

Lemma update_client_keeps σ c cl cl' :
  heap_clients σ !! c = Some cl -> flags cl' = flags cl ->
  keeps_clients σ (set_heap_clients (<[c := cl']> (heap_clients σ)) σ).
Proof.
  intros Hc Hf. split; [reflexivity|]. split; [apply length_insert|].
  intros d cl0 Hd. cbn. destruct (decide (d = c)) as [->|Hne].
  - rewrite list_lookup_insert_eq by (eapply lookup_lt_Some; eauto).
    exists cl'. split; [reflexivity | congruence].
  - rewrite list_lookup_insert_ne by congruence. eauto.
Qed.

Lemma push_keeps c line σ : keeps_clients σ (push c line σ).
Proof.
  unfold push. destruct (heap_clients σ !! c) as [cl|] eqn:Hc;
    [|apply keeps_clients_refl].
  now apply (update_client_keeps σ c cl).
Qed.

Lemma push_all_keeps cs line σ : keeps_clients σ (push_all cs line σ).
Proof.
  revert σ. induction cs as [|c cs IH]; intros σ; cbn; [apply keeps_clients_refl|].
  eapply keeps_clients_trans; [apply push_keeps | apply IH].
Qed.

Lemma clear_msg_keeps c σ : keeps_clients σ (clear_msg c σ).
Proof.
  unfold clear_msg. destruct (heap_clients σ !! c) as [cl|] eqn:Hc;
    [|apply keeps_clients_refl].
  now apply (update_client_keeps σ c cl).
Qed.

Lemma set_server_cmd_keeps o σ : keeps_clients σ (set_server_cmd o σ).
Proof. split; [reflexivity|]. split; [reflexivity|]. eauto. Qed.

(** [Broadcast] ends after handing one of its three lines to live clients
    only. *)
Lemma Broadcast_result_live name from msg σ :
  exists cs line,
    result_state (Broadcast name from msg σ) = push_all cs line σ
    /\ (forall d, d ∈ cs -> live σ d = true)
    /\ (cs <> [] ->
        line ∈ [err_no_room; err_no_nick; msgFmt name (nick_of σ from) msg]).
Proof.
  assert (Hsend : forall c l,
             l ∈ [err_no_room; err_no_nick; msgFmt name (nick_of σ from) msg] ->
             exists cs line,
               result_state (send c l σ) = push_all cs line σ
               /\ (forall d, d ∈ cs -> live σ d = true)
               /\ (cs <> [] ->
                   line ∈ [err_no_room; err_no_nick; msgFmt name (nick_of σ from) msg])).
  { intros c l Hl. rewrite send_push. destruct (live σ c) eqn:Hc; cbn.
    - exists [c], l. split; [reflexivity|]. split; [|auto].
      intros d ->%list_elem_of_singleton. exact Hc.
    - exists [], l. split; [reflexivity|]. split; [|congruence].
      intros d Hd. inversion Hd. }
  assert (Hnone : exists cs line,
             σ = push_all cs line σ
             /\ (forall d, d ∈ cs -> live σ d = true)
             /\ (cs <> [] ->
                 line ∈ [err_no_room; err_no_nick; msgFmt name (nick_of σ from) msg])).
  { exists [], "". split; [reflexivity|]. split; [|congruence].
    intros d Hd. inversion Hd. }
  rewrite Broadcast_cases.
  destruct (server_rooms σ !! name) as [room|]; [|apply Hsend; left].
  destruct (heap_clients σ !! from); [|exact Hnone].
  destruct (String.eqb (nick_of σ from) ""); [apply Hsend; right; left|].
  destruct (heap_rooms σ !! room) as [r|]; [|exact Hnone].
  destruct (send_all_result (room_clients r) (msgFmt name (nick_of σ from) msg) σ)
    as (pre & post & _ & -> & Hlive & _).
  exists pre, (msgFmt name (nick_of σ from) msg). split; [reflexivity|].
  split; [exact Hlive|]. intros _. right. right. left.
Qed.

(** A command changes neither the list of clients of the server nor a
    closed flag. *)
Lemma Run_keeps cmd σ :
  wf σ -> cmd_client cmd < length (heap_clients σ) ->
  keeps_clients σ (result_state (Run cmd σ)).
Proof.
  intros Hwf Hc. destruct cmd as [c n|c name|c name msg]; cbn [cmd_client] in Hc.
  - cbn [Run]. destruct (lookup_lt_is_Some_2 _ _ Hc) as [cl Hcl]. rewrite Hcl. cbn.
    now apply (update_client_keeps σ c cl).
  - cbn [Run]. destruct (JoinRoom_spec name c σ Hwf Hc)
      as (σ' & -> & _ & Hheap & _ & Hcl & _).
    cbn. split; [exact Hcl|]. rewrite Hheap. split; [reflexivity|]. eauto.
  - cbn [Run]. destruct (Broadcast_result_live name c msg σ) as (cs & line & -> & _).
    apply push_all_keeps.
Qed.

Lemma Dispatch_keeps cmd σ :
  keeps_clients (result_state (Run cmd σ))
    (result_state (Run cmd σ >>= fun σ' => Ok (set_server_cmd None σ'))).
Proof.
  destruct (Run cmd σ); cbn; [apply set_server_cmd_keeps | |];
    apply keeps_clients_refl.
Qed.

(** What a step does to the clients: [Accept] appends a fresh client, a
    read error tears one client down, and every other step keeps all
    clients and their closed flags. *)
Lemma step_clients e σ r :
  wf σ -> step e σ = Some r ->
  match e with
  | Accept =>
      r = Ok (result_state r)
      /\ server_clients (result_state r) = server_clients σ ++ [length (heap_clients σ)]
      /\ heap_clients (result_state r) = heap_clients σ ++ [fresh_client]
  | ReadError c =>
      exists cl,
        heap_clients σ !! c = Some cl /\ flags cl = (client_conn_closed cl, false, false)
        /\ r = Ok (set_heap_clients (<[c := torn_down cl]> (heap_clients σ)) σ)
  | _ => keeps_clients σ (result_state r)
  end.
Proof.
  intros Hwf. destruct e as [| |c s|c|c|]; cbn [step].
  - intros [= <-]. cbn. auto.
  - intros [= <-]. apply keeps_clients_refl.
  - destruct (heap_clients σ !! c) as [cl|] eqn:Hcl; [|discriminate].
    destruct (client_msg cl); [discriminate|]. unfold chan_send.
    destruct (chan_closed (client_incoming cl)) eqn:Hin; [discriminate|].
    destruct (is_line s); [|discriminate]. intros [= <-]. cbn.
    apply (update_client_keeps σ c cl _ Hcl). unfold flags. cbn. now rewrite Hin.
  - destruct (heap_clients σ !! c) as [cl|] eqn:Hcl; [|discriminate].
    destruct (chan_closed (client_incoming cl)) eqn:Hin; [discriminate|].
    intros [= <-]. pose proof (wf_chans σ Hwf _ _ Hcl) as Hch. rewrite Hin in Hch.
    exists cl. split; [reflexivity|]. split; [unfold flags; now rewrite Hin, <- Hch|].
    now apply Read_error_torn_down.
  - destruct (heap_clients σ !! c) as [cl|] eqn:Hcl; [|discriminate].
    destruct (client_msg cl) as [msg|]; [|discriminate].
    destruct (parseCommand c msg) as [cmd|].
    + destruct (server_cmd σ); [discriminate|]. intros [= <-]. cbn.
      eapply keeps_clients_trans; [apply (set_server_cmd_keeps (Some cmd))|].
      apply clear_msg_keeps.
    + intros [= <-]. rewrite send_push. destruct (live σ c); cbn.
      * eapply keeps_clients_trans; [apply push_keeps | apply clear_msg_keeps].
      * apply keeps_clients_refl.
  - destruct (server_cmd σ) as [cmd|] eqn:Hcmd; [|discriminate]. intros [= <-].
    eapply keeps_clients_trans;
      [apply (Run_keeps cmd σ Hwf (wf_cmd σ Hwf _ Hcmd)) | apply Dispatch_keeps].
Qed.

End Lifecycle.

(** ** The lines handed to clients *)

Section Handing.

Lemma entries_pos_elem d cs : entries d cs <> 0 -> d ∈ cs.
Proof.
  intros H. destruct (decide (d ∈ cs)) as [Hd|Hd]; [exact Hd|].
  now rewrite entries_not_in in H.
Qed.

Lemma Dispatch_delivered cmd σ d :
  delivered (result_state (Run cmd σ >>= fun σ' => Ok (set_server_cmd None σ'))) d
  = delivered (result_state (Run cmd σ)) d.
Proof.
  destruct (Dispatch_state cmd σ) as (_ & _ & H). unfold delivered. now rewrite H.
Qed.

(** Every step appends to the lines handed to a client, appends only if
    the client is live, and appends only lines of [step_lines]. *)
Lemma step_hands e σ r d :
  wf σ -> step e σ = Some r ->
  exists k,
    delivered (result_state r) d = delivered σ d ++ k
    /\ (k <> [] -> live σ d = true)
    /\ (forall x, x ∈ k -> x ∈ step_lines e σ).
Proof.
  intros Hwf Hstep. destruct (decide (e = Dispatch)) as [->|He].
  - apply step_Dispatch_inv in Hstep as (cmd & Hcmd & ->).
    pose proof (wf_cmd σ Hwf _ Hcmd) as Hc.
    rewrite Dispatch_delivered. cbn [step_lines]. rewrite Hcmd.
    assert (Hsame : forall σ1, heap_clients σ1 = heap_clients σ ->
              exists k, delivered σ1 d = delivered σ d ++ k
                /\ (k <> [] -> live σ d = true)
                /\ (forall x, x ∈ k -> x ∈ (@nil string))).
    { intros σ1 H. exists []. unfold delivered. rewrite H, app_nil_r.
      split; [reflexivity|]. split; [congruence|]. auto. }
    destruct cmd as [c n|c name|c name msg]; cbn [cmd_client] in Hc.
    + cbn [Run]. destruct (lookup_lt_is_Some_2 _ _ Hc) as [cl Hcl]. rewrite Hcl. cbn.
      exists []. rewrite app_nil_r. split; [|split; [congruence | auto]].
      unfold delivered. cbn. destruct (decide (d = c)) as [->|Hne].
      * rewrite list_lookup_insert_eq by exact Hc. now rewrite Hcl.
      * now rewrite list_lookup_insert_ne by congruence.
    + cbn [Run]. destruct (JoinRoom_spec name c σ Hwf Hc) as (σ' & -> & _ & Hheap & _).
      cbn. now apply Hsame.
    + cbn [Run]. destruct (Broadcast_result_live name c msg σ)
        as (cs & line & -> & Hlive & Hline).
      exists (replicate (entries d cs) line). split; [|split].
      * apply push_all_delivered. intros x Hx. now apply live_lt, Hlive.
      * intros Hk. apply Hlive, entries_pos_elem. intros E. now rewrite E in Hk.
      * intros x Hx. apply elem_of_replicate in Hx as [-> Hn].
        apply Hline. intros ->. now apply Hn.
  - destruct (step_delivered e σ r d He Hstep) as [H|(l & -> & Hheld & Hp & H)].
    + exists []. rewrite app_nil_r. split; [exact H|]. split; [congruence|].
      intros x Hx. inversion Hx.
    + exists [err_invalid l]. split; [exact H|]. split.
      * intros _. rewrite (step_Ingest_invalid σ d l Hheld Hp) in Hstep.
        destruct (live σ d); [reflexivity|]. injection Hstep as <-. cbn in H.
        apply (f_equal length) in H. rewrite length_app in H. cbn in H. lia.
      * intros x Hx. cbn [step_lines]. now rewrite Hheld.
Qed.

Lemma step_ReadLine_line c s σ r : step (ReadLine c s) σ = Some r -> is_line s = true.
Proof.
  cbn [step]. destruct (heap_clients σ !! c) as [cl|]; [|discriminate].
  destruct (client_msg cl); [discriminate|].
  destruct (chan_send (client_incoming cl) s); [|discriminate].
  now destruct (is_line s).
Qed.

Lemma text_inv_init : text_inv NewChatServer.
Proof.
  constructor; cbn.
  - discriminate.
  - intros c. unfold nick_of. cbn. now rewrite lookup_nil.
  - intros c l. unfold held_line. cbn. now rewrite lookup_nil.
  - intros c x. unfold delivered. cbn. rewrite lookup_nil. now intros ?%elem_of_nil.
  - intros name room H. now rewrite lookup_empty in H.
Qed.

Lemma step_lines_ok e σ x :
  text_inv σ -> x ∈ step_lines e σ -> is_line x = true.
Proof.
  intros Hti. destruct e as [| |c s|c|c|]; cbn [step_lines];
    try (now intros ?%elem_of_nil).
  - destruct (held_line σ c) as [l|] eqn:Hheld; [|now intros ?%elem_of_nil].
    intros ->%list_elem_of_singleton. unfold err_invalid.
    rewrite is_line_prepend by reflexivity. exact (ti_held σ Hti c l Hheld).
  - destruct (server_cmd σ) as [[| |from name msg]|] eqn:Hcmd;
      try (now intros ?%elem_of_nil).
    pose proof (ti_cmd σ Hti _ Hcmd) as (Hname & _ & Hmsg).
    intros Hx. repeat (apply elem_of_cons in Hx as [->|Hx]); try reflexivity.
    + apply msgFmt_is_line; [exact (proj2 Hname) | apply (ti_nick σ Hti) | exact Hmsg].
    + now apply elem_of_nil in Hx.
Qed.

(** The text invariant is kept by every step of the running server. *)
Lemma text_inv_step e σ σ' :
  wf σ -> text_inv σ -> step e σ = Some (Ok σ') -> text_inv σ'.
Proof.
  intros Hwf Hti Hstep.
  pose proof (step_cmd_held e σ σ' Hwf Hstep) as Heff.
  constructor.
  - intros cmd Hcmd. destruct e as [| |c s|c|c|].
    + destruct Heff as (E & _). rewrite E in Hcmd. exact (ti_cmd σ Hti _ Hcmd).
    + destruct Heff.
    + destruct Heff as (E & _). rewrite E in Hcmd. exact (ti_cmd σ Hti _ Hcmd).
    + destruct Heff as (E & _). rewrite E in Hcmd. exact (ti_cmd σ Hti _ Hcmd).
    + destruct Heff as (l & _ & _ & _ & E).
      destruct (parseCommand c l) as [cmd'|] eqn:Hp.
      * destruct E as (_ & E). rewrite E in Hcmd. injection Hcmd as <-.
        now apply parseCommand_ok in Hp.
      * rewrite E in Hcmd. exact (ti_cmd σ Hti _ Hcmd).
    + destruct Heff as (cmd' & _ & E & _). congruence.
  - intros c. pose proof (step_nick_of e σ _ c Hwf Hstep) as Hn. cbn in Hn.
    rewrite Hn. destruct e; try apply (ti_nick σ Hti). unfold pending_cmd.
    destruct (server_cmd σ) as [[c' n| |]|] eqn:Hcmd; try apply (ti_nick σ Hti).
    cbn. case_decide; [|apply (ti_nick σ Hti)].
    exact (proj2 (ti_cmd σ Hti _ Hcmd)).
  - intros c l Hl. destruct e as [| |c' s|c'|c'|].
    + destruct Heff as (_ & E). rewrite E in Hl. exact (ti_held σ Hti c l Hl).
    + destruct Heff.
    + destruct Heff as (_ & _ & E1 & E). destruct (decide (c = c')) as [->|Hne].
      * rewrite E1 in Hl. injection Hl as <-. exact (step_ReadLine_line _ _ _ _ Hstep).
      * rewrite (E c Hne) in Hl. exact (ti_held σ Hti c l Hl).
    + destruct Heff as (_ & E). rewrite E in Hl. exact (ti_held σ Hti c l Hl).
    + destruct Heff as (l' & _ & E1 & E & _). destruct (decide (c = c')) as [->|Hne].
      * congruence.
      * rewrite (E c Hne) in Hl. exact (ti_held σ Hti c l Hl).
    + destruct Heff as (cmd & _ & _ & E). rewrite E in Hl. exact (ti_held σ Hti c l Hl).
  - intros c x Hx. destruct (step_hands e σ _ c Hwf Hstep) as (k & E & _ & Hk).
    cbn in E. rewrite E in Hx. apply elem_of_app in Hx as [Hx|Hx].
    + exact (ti_delivered σ Hti c x Hx).
    + exact (step_lines_ok e σ x Hti (Hk x Hx)).
  - intros name room Hn. destruct (step_effect e σ _ Hwf Hstep) as (_ & _ & _ & Hnew).
    cbn in Hn, Hnew. destruct (server_rooms σ !! name) as [room0|] eqn:Hold.
    + exact (ti_names σ Hti name room0 Hold).
    + destruct (Hnew name Hold (ex_intro _ room Hn)) as (_ & c & Hcmd).
      exact (ti_cmd σ Hti _ Hcmd).
Qed.

Lemma reachable_text_inv σ : reachable σ -> text_inv σ.
Proof.
  induction 1 as [|σ e σ' Hr IH Hstep]; [exact text_inv_init|].
  exact (text_inv_step e σ σ' (reachable_wf σ Hr) IH Hstep).
Qed.

End Handing.

(** ** The registry and the room objects *)

Section RegistryObjects.

Lemma registry_inv_init : registry_inv NewChatServer.
Proof.
  constructor; cbn.
  - intros name room H. now rewrite lookup_empty in H.
  - intros room r H. now rewrite lookup_nil in H.
Qed.

(** After a command every room object is still bound to its name. *)
Lemma Run_bound cmd σ room r :
  wf σ -> cmd_client cmd < length (heap_clients σ) -> registry_inv σ ->
  heap_rooms (result_state (Run cmd σ)) !! room = Some r ->
  server_rooms (result_state (Run cmd σ)) !! room_name r = Some room.
Proof.
  intros Hwf Hc Hri. destruct cmd as [c n|c name|c name msg]; cbn [cmd_client] in Hc.
  - cbn [Run]. destruct (lookup_lt_is_Some_2 _ _ Hc) as [cl ->]. cbn.
    apply (ri_bound σ Hri).
  - cbn [Run]. destruct (server_rooms σ !! name) as [room0|] eqn:Hn.
    + destruct (wf_rooms σ Hwf _ _ Hn) as (r0 & Hr0 & Hname).
      rewrite (JoinRoom_bound name c σ room0 r0 Hn Hr0). cbn.
      intros Hr. apply list_lookup_insert_Some in Hr as [(-> & <- & _)|[_ Hr]].
      * cbn. now rewrite Hname.
      * now apply (ri_bound σ Hri).
    + rewrite (JoinRoom_absent name c σ Hn). cbn.
      intros Hr. apply lookup_app_Some in Hr as [Hr|[Hlen Hr]].
      * pose proof (ri_bound σ Hri _ _ Hr) as Hb.
        rewrite lookup_insert_ne; [exact Hb | congruence].
      * apply list_lookup_singleton_Some in Hr as [Hi <-]. cbn.
        rewrite lookup_insert_eq. f_equal. lia.
  - cbn [Run]. destruct (Broadcast_shared name c msg σ) as (H1 & H2 & _).
    rewrite H1, H2. apply (ri_bound σ Hri).
Qed.

Lemma registry_inv_step e σ σ' :
  wf σ -> registry_inv σ -> step e σ = Some (Ok σ') -> registry_inv σ'.
Proof.
  intros Hwf Hri Hstep.
  destruct (step_effect e σ _ Hwf Hstep) as (Hmem & Hmono & _ & Hnew).
  cbn in Hmem, Hmono, Hnew. constructor.
  - intros name room Hn. rewrite Hmem.
    destruct (server_rooms σ !! name) as [room0|] eqn:Hold.
    + pose proof (ri_nonempty σ Hri _ _ Hold) as Hne.
      destruct (members σ name); [congruence | discriminate].
    + destruct (Hnew name Hold (ex_intro _ room Hn)) as (-> & c & Hcmd).
      unfold pending_cmd. rewrite Hcmd. cbn. rewrite String.eqb_refl.
      now destruct (members σ name).
  - intros room r Hr. destruct (decide (e = Dispatch)) as [->|He].
    + apply step_Dispatch_inv in Hstep as (cmd & Hcmd & Hrun).
      destruct (Dispatch_state cmd σ) as (E1 & E2 & _).
      rewrite <- Hrun in E1, E2. cbn in E1, E2. rewrite E1. rewrite E2 in Hr.
      exact (Run_bound cmd σ room r Hwf (wf_cmd σ Hwf _ Hcmd) Hri Hr).
    + destruct (step_shared e σ _ He Hstep) as (H1 & H2 & _). cbn in H1, H2.
      rewrite H1. rewrite H2 in Hr. exact (ri_bound σ Hri _ _ Hr).
Qed.

Lemma reachable_registry_inv σ : reachable σ -> registry_inv σ.
Proof.
  induction 1 as [|σ e σ' Hr IH Hstep]; [exact registry_inv_init|].
  exact (registry_inv_step e σ σ' (reachable_wf σ Hr) IH Hstep).
Qed.

End RegistryObjects.

(** ** Clients and schedules *)

Section ClientsOfSchedules.

Lemma step_terminated_mono e σ r c :
  wf σ -> step e σ = Some r -> terminated σ c = true ->
  terminated (result_state r) c = true.
Proof.
  intros Hwf Hstep. pose proof (step_clients e σ r Hwf Hstep) as Hcl.
  unfold terminated. destruct (heap_clients σ !! c) as [cl|] eqn:Hc; [|discriminate].
  intros Hterm.
  assert (Hkeep : keeps_clients σ (result_state r) ->
            match heap_clients (result_state r) !! c with
            | Some cl' => chan_closed (client_outgoing cl')
            | None => false
            end = true).
  { intros (_ & _ & H). destruct (H c cl Hc) as (cl' & -> & Hf).
    unfold flags in Hf. injection Hf as _ _ ->. exact Hterm. }
  destruct e as [| |c' s|c'|c'|]; try (now apply Hkeep).
  - destruct Hcl as (_ & _ & ->). now rewrite (lookup_app_l_Some _ _ _ _ Hc).
  - destruct Hcl as (cl0 & Hc0 & _ & ->). cbn.
    destruct (decide (c = c')) as [->|Hne].
    + now rewrite list_lookup_insert_eq by (eapply lookup_lt_Some; eauto).
    + rewrite list_lookup_insert_ne by congruence. now rewrite Hc.
Qed.

(** The clients of the server along a schedule. *)
Lemma exec_clients es σ0 σ :
  wf σ0 -> exec es σ0 = Some (Ok σ) ->
  server_clients σ = server_clients σ0 ++ seq (length (heap_clients σ0)) (accepts es)
  /\ length (heap_clients σ) = length (heap_clients σ0) + accepts es.
Proof.
  revert σ0. induction es as [|e es IH]; intros σ0 Hwf; cbn [exec accepts].
  - intros [= <-]. cbn. rewrite app_nil_r. split; [reflexivity | lia].
  - destruct (step e σ0) as [[σ1|σ1|σ1]|] eqn:Hstep; try discriminate.
    + intros Hexec.
      destruct (IH σ1 (wf_step e σ0 _ Hwf Hstep) Hexec) as (IH1 & IH2).
      pose proof (step_clients e σ0 _ Hwf Hstep) as Hcl. cbn in Hcl.
      assert (Hkeep : keeps_clients σ0 σ1 ->
                server_clients σ1 = server_clients σ0
                /\ length (heap_clients σ1) = length (heap_clients σ0)).
      { intros (H1 & H2 & _). auto. }
      destruct e as [| |c s|c|c|];
        try (destruct (Hkeep Hcl) as (E1 & E2); rewrite IH1, IH2, E1, E2;
             split; reflexivity).
      * destruct Hcl as (_ & E1 & E2). rewrite IH1, IH2, E1, E2, length_app. cbn.
        rewrite <- app_assoc. cbn. rewrite Nat.add_1_r. split; [reflexivity | lia].
      * destruct Hcl as (cl & _ & _ & [= ->]). rewrite IH1, IH2. cbn.
        rewrite length_insert. split; reflexivity.
    + destruct es; discriminate.
    + destruct es; discriminate.
Qed.

End ClientsOfSchedules.

(** X7: every line the server has handed to the writer of a client is one
    line: it ends with a newline and holds no other newline. *)
Theorem delivered_lines_are_lines (σ : State) (c : ClientPtr) (x : string) :
  reachable σ -> x ∈ delivered σ c -> is_line x = true.
Proof. intros Hr. apply (ti_delivered σ (reachable_text_inv σ Hr)). Qed.

Lemma delivered_lines_are_lines_witness :
  is_line ("lobby / alice: hi all" +:+ nl) = true.
Proof.
  apply (delivered_lines_are_lines (after scenario) 1).
  - apply (exec_reachable scenario). vm_compute. reflexivity.
  - assert (E : delivered (after scenario) 1 = ["lobby / alice: hi all" +:+ nl]).
    { vm_compute. reflexivity. }
    rewrite E. left.
Defined.

(** X8: in every reachable state the names of the registry are one or more
    word characters, and the nickname of a client is empty or one or more
    word characters. *)
Theorem names_are_words (σ : State) :
  reachable σ ->
  (forall name room, server_rooms σ !! name = Some room -> word name)
  /\ (forall c, nick_of σ c = "" \/ word (nick_of σ c)).
Proof.
  intros Hr. pose proof (reachable_text_inv σ Hr) as Hti.
  split; [exact (ti_names σ Hti)|].
  intros c. pose proof (ti_nick σ Hti c) as Hn.
  destruct (nick_of σ c) as [|a n] eqn:E; [now left|].
  right. split; [discriminate | exact Hn].
Qed.

Lemma names_are_words_witness :
  let σ := after scenario in
  (forall name room, server_rooms σ !! name = Some room -> word name)
  /\ (forall c, nick_of σ c = "" \/ word (nick_of σ c)).
Proof.
  cbv zeta. apply (names_are_words (after scenario)).
  apply (exec_reachable scenario). vm_compute. reflexivity.
Defined.

(** X9: in every reachable state a room of the registry has at least one
    member: a room is created only to be joined, and nobody ever leaves. *)
Theorem rooms_never_empty (σ : State) (name : string) (room : RoomPtr) :
  reachable σ -> server_rooms σ !! name = Some room -> members σ name <> [].
Proof. intros Hr. apply (ri_nonempty σ (reachable_registry_inv σ Hr)). Qed.

Lemma rooms_never_empty_witness : members (after scenario) "lobby" <> [].
Proof.
  apply (rooms_never_empty (after scenario) "lobby" 0).
  - apply (exec_reachable scenario). vm_compute. reflexivity.
  - vm_compute. reflexivity.
Defined.

(** X10: in every reachable state every room object that was allocated is
    the one the registry binds to the name in its name field: [NewRoom]
    leaves no room behind that the registry does not know. *)
Theorem room_objects_bound (σ : State) (room : RoomPtr) (r : Room) :
  reachable σ -> heap_rooms σ !! room = Some r ->
  server_rooms σ !! room_name r = Some room.
Proof. intros Hr. apply (ri_bound σ (reachable_registry_inv σ Hr)). Qed.

Lemma room_objects_bound_witness :
  server_rooms (after scenario) !! room_name {| room_name := "lobby"; room_clients := [0; 1] |}
  = Some 0.
Proof.
  apply (room_objects_bound (after scenario) 0).
  - apply (exec_reachable scenario). vm_compute. reflexivity.
  - vm_compute. reflexivity.
Defined.

(** X12: termination is for good.  Once the connection of a client has
    terminated, no line is read from it and no second read error occurs,
    it stays terminated, and no further line is handed to it, whatever the
    server does next. *)
Theorem terminated_forever (σ : State) (c : ClientPtr) :
  reachable σ -> terminated σ c = true ->
  (forall e r, step e σ = Some r ->
     (forall s, e <> ReadLine c s) /\ e <> ReadError c
     /\ terminated (result_state r) c = true
     /\ delivered (result_state r) c = delivered σ c)
  /\ (forall σ', steps σ σ' ->
        terminated σ' c = true /\ delivered σ' c = delivered σ c).
Proof.
  intros Hr Hterm. pose proof (reachable_wf σ Hr) as Hwf. clear Hr.
  assert (Hone : forall σ e r, wf σ -> terminated σ c = true -> step e σ = Some r ->
            (forall s, e <> ReadLine c s) /\ e <> ReadError c
            /\ terminated (result_state r) c = true
            /\ delivered (result_state r) c = delivered σ c).
  { clear σ Hterm Hwf. intros σ e r Hwf Hterm Hstep.
    assert (Hin : exists cl, heap_clients σ !! c = Some cl
                    /\ chan_closed (client_incoming cl) = true).
    { unfold terminated in Hterm.
      destruct (heap_clients σ !! c) as [cl|] eqn:Hc; [|discriminate].
      exists cl. split; [reflexivity|]. now rewrite (wf_chans σ Hwf _ _ Hc). }
    destruct Hin as (cl & Hc & Hin).
    split; [|split; [|split]].
    - intros s ->. revert Hstep. cbn [step]. rewrite Hc. unfold chan_send.
      rewrite Hin. now destruct (client_msg cl).
    - intros ->. revert Hstep. cbn [step]. now rewrite Hc, Hin.
    - exact (step_terminated_mono e σ r c Hwf Hstep Hterm).
    - destruct (step_hands e σ r c Hwf Hstep) as (k & E & Hlive & _).
      destruct k as [|x k]; [now rewrite E, app_nil_r|].
      rewrite (terminated_not_live σ c Hterm) in Hlive.
      discriminate Hlive. discriminate. }
  split; [intros e r; now apply Hone|].
  intros σ' Hs. induction Hs as [σ|σ e σ1 σ2 Hstep _ IH]; [auto|].
  destruct (Hone σ e _ Hwf Hterm Hstep) as (_ & _ & Ht & Hd). cbn in Ht, Hd.
  destruct (IH Ht (wf_step e σ _ Hwf Hstep)) as (Ht2 & Hd2).
  split; [exact Ht2 | congruence].
Qed.

Lemma terminated_forever_witness :
  terminated (after broken_member) 1 = true
  /\ (forall σ', steps (after broken_member) σ' ->
        terminated σ' 1 = true
        /\ delivered σ' 1 = delivered (after broken_member) 1).
Proof.
  split; [vm_compute; reflexivity|].
  apply (terminated_forever (after broken_member) 1).
  - apply (exec_reachable broken_member). vm_compute. reflexivity.
  - vm_compute. reflexivity.
Defined.

(** X14: the client list of the server holds one client per accepted
    connection, in the order of acceptance, and nothing ever removes a
    client from it, terminated or not. *)
Theorem accepted_clients (es : list Event) (σ : State) :
  exec es NewChatServer = Some (Ok σ) ->
  server_clients σ = seq 0 (accepts es)
  /\ length (heap_clients σ) = accepts es.
Proof.
  intros Hexec. destruct (exec_clients es _ _ wf_init Hexec) as (H1 & H2).
  cbn in H1, H2. auto.
Qed.

Lemma accepted_clients_witness :
  server_clients (after broken_member) = seq 0 (accepts broken_member)
  /\ length (heap_clients (after broken_member)) = accepts broken_member.
Proof.
  apply (accepted_clients broken_member). vm_compute. reflexivity.
Defined.

(** X15: a nick or join command is always carried out and answered by
    nothing: whatever the state of the sender, connected or not, with or
    without a nickname, the dispatcher completes the command and no line
    is handed to any client. *)
Theorem nick_join_silent (σ : State) (cmd : Command) :
  reachable σ -> server_cmd σ = Some cmd ->
  (forall c r m, cmd <> MsgCommand c r m) ->
  exists σ',
    step Dispatch σ = Some (Ok σ')
    /\ forall d, delivered σ' d = delivered σ d.
Proof.
  intros Hr Hcmd Hno. pose proof (reachable_wf σ Hr) as Hwf.
  destruct (Run_effect cmd σ Hwf (wf_cmd σ Hwf _ Hcmd)) as (_ & _ & _ & _ & _ & _ & Hok).
  assert (Hrun : Run cmd σ = Ok (result_state (Run cmd σ))).
  { destruct cmd as [c n|c name|c name msg]; [exact Hok | exact Hok|].
    now destruct (Hno c name msg). }
  assert (Hstep : step Dispatch σ
                  = Some (Ok (set_server_cmd None (result_state (Run cmd σ))))).
  { cbn [step]. rewrite Hcmd, Hrun. reflexivity. }
  eexists. split; [exact Hstep|]. intros d.
  destruct (step_hands Dispatch σ _ d Hwf Hstep) as (k & E & _ & Hk).
  cbn [result_state] in E. rewrite E.
  destruct k as [|x k]; [apply app_nil_r|].
  specialize (Hk x (list_elem_of_here _ _)). cbn [step_lines] in Hk. rewrite Hcmd in Hk.
  destruct cmd as [c n|c name|c name msg];
    [now apply elem_of_nil in Hk | now apply elem_of_nil in Hk|].
  now destruct (Hno c name msg).
Qed.

Lemma nick_join_silent_witness :
  let σ := after [Accept; ReadLine 0 ("join r" +:+ nl); Ingest 0; ReadError 0] in
  exists σ',
    step Dispatch σ = Some (Ok σ')
    /\ forall d, delivered σ' d = delivered σ d.
Proof.
  cbv zeta.
  apply (nick_join_silent
           (after [Accept; ReadLine 0 ("join r" +:+ nl); Ingest 0; ReadError 0])
           (JoinCommand 0 "r")).
  - apply (exec_reachable [Accept; ReadLine 0 ("join r" +:+ nl); Ingest 0; ReadError 0]).
    vm_compute. reflexivity.
  - vm_compute. reflexivity.
  - discriminate.
Defined.

(** ** What clients are sent *)

Section ServerOutput.

Lemma parseCommand_None_any (c d : ClientPtr) (l : string) :
  parseCommand c l = None -> parseCommand d l = None.
Proof.
  unfold parseCommand.
  destruct (FindStringSubmatch nickRegexp l); [discriminate|].
  destruct (FindStringSubmatch joinRegexp l); [discriminate|].
  destruct (FindStringSubmatch msgRegexp l); [discriminate | reflexivity].
Qed.

(** [Broadcast] ends after handing one line to live clients only; the
    line of a message is formatted with a nickname that is set. *)
Lemma Broadcast_line name from msg σ :
  exists cs line,
    result_state (Broadcast name from msg σ) = push_all cs line σ
    /\ (forall d, d ∈ cs -> live σ d = true)
    /\ (cs <> [] ->
        line = err_no_room \/ line = err_no_nick
        \/ (line = msgFmt name (nick_of σ from) msg /\ nick_of σ from <> "")).
Proof.
  assert (Hsend : forall c l,
             l = err_no_room \/ l = err_no_nick ->
             exists cs line,
               result_state (send c l σ) = push_all cs line σ
               /\ (forall d, d ∈ cs -> live σ d = true)
               /\ (cs <> [] ->
                   line = err_no_room \/ line = err_no_nick
                   \/ (line = msgFmt name (nick_of σ from) msg /\ nick_of σ from <> ""))).
  { intros c l Hl. rewrite send_push. destruct (live σ c) eqn:Hc; cbn.
    - exists [c], l. split; [reflexivity|]. split; [|tauto].
      intros d ->%list_elem_of_singleton. exact Hc.
    - exists [], l. split; [reflexivity|]. split; [|congruence].
      intros d Hd. inversion Hd. }
  assert (Hnone : exists cs line,
             σ = push_all cs line σ
             /\ (forall d, d ∈ cs -> live σ d = true)
             /\ (cs <> [] ->
                 line = err_no_room \/ line = err_no_nick
                 \/ (line = msgFmt name (nick_of σ from) msg /\ nick_of σ from <> ""))).
  { exists [], "". split; [reflexivity|]. split; [|congruence].
    intros d Hd. inversion Hd. }
  rewrite Broadcast_cases.
  destruct (server_rooms σ !! name) as [room|]; [|apply Hsend; now left].
  destruct (heap_clients σ !! from); [|exact Hnone].
  destruct (String.eqb (nick_of σ from) "") eqn:Hnick; [apply Hsend; now right|].
  apply String.eqb_neq in Hnick.
  destruct (heap_rooms σ !! room) as [r|]; [|exact Hnone].
  destruct (send_all_result (room_clients r) (msgFmt name (nick_of σ from) msg) σ)
    as (pre & post & _ & -> & Hlive & _).
  exists pre, (msgFmt name (nick_of σ from) msg). split; [reflexivity|].
  split; [exact Hlive|]. intros _. right. right. now split.
Qed.

(** The lines a step hands to a client are lines of the server. *)
Lemma step_server_line e σ r d x :
  wf σ -> text_inv σ -> step e σ = Some r ->
  x ∈ delivered (result_state r) d -> x ∈ delivered σ d \/ server_line x.
Proof.
  intros Hwf Hti Hstep Hx. destruct (decide (e = Dispatch)) as [->|He].
  - apply step_Dispatch_inv in Hstep as (cmd & Hcmd & ->).
    rewrite Dispatch_delivered in Hx.
    destruct cmd as [c n|c name|c name msg].
    + left. pose proof (wf_cmd σ Hwf _ Hcmd) as Hc. cbn [cmd_client] in Hc.
      revert Hx. cbn [Run]. destruct (lookup_lt_is_Some_2 _ _ Hc) as [cl Hcl].
      rewrite Hcl. cbn. unfold delivered. cbn.
      destruct (decide (d = c)) as [->|Hne].
      * rewrite list_lookup_insert_eq by exact Hc. now rewrite Hcl.
      * now rewrite list_lookup_insert_ne by congruence.
    + left. pose proof (wf_cmd σ Hwf _ Hcmd) as Hc. cbn [cmd_client] in Hc.
      revert Hx. cbn [Run].
      destruct (JoinRoom_spec name c σ Hwf Hc) as (σ' & -> & _ & Hheap & _).
      cbn. unfold delivered. now rewrite Hheap.
    + cbn [Run] in Hx.
      destruct (Broadcast_line name c msg σ) as (cs & line & E & Hlive & Hline).
      rewrite E in Hx.
      rewrite push_all_delivered in Hx by (intros y Hy; now apply live_lt, Hlive).
      apply elem_of_app in Hx as [Hx|Hx]; [now left|]. right.
      apply elem_of_replicate in Hx as [-> Hn].
      assert (Hcs : cs <> []) by (intros ->; now apply Hn).
      destruct (ti_cmd σ Hti _ Hcmd) as (Hname & Hne & Hdot).
      destruct (Hline Hcs) as [->|[->|[-> Hnick]]].
      * now left.
      * right. now left.
      * right. right. right. exists name, (nick_of σ c), msg.
        split; [reflexivity|]. split; [exact Hname|].
        split; [split; [exact Hnick | apply (ti_nick σ Hti)]|]. now split.
  - destruct (step_delivered e σ r d He Hstep) as [H|(l & -> & Hheld & Hp & H)].
    + left. now rewrite <- H.
    + rewrite H in Hx. apply elem_of_app in Hx as [Hx|Hx]; [now left|]. right.
      apply list_elem_of_singleton in Hx as ->. right. right. left.
      exists l. split; [reflexivity|]. split; [exact (ti_held σ Hti d l Hheld)|].
      intros c. exact (parseCommand_None_any d c l Hp).
Qed.

End ServerOutput.

(** ** Schedules without a read error *)

Section NoReadError.

Lemma all_up_init : all_up NewChatServer.
Proof. intros c. unfold terminated. cbn. now rewrite lookup_nil. Qed.

Lemma keeps_clients_all_up σ σ' : keeps_clients σ σ' -> all_up σ -> all_up σ'.
Proof.
  intros (_ & Hlen & Hk) Hup c. specialize (Hup c). unfold terminated in *.
  destruct (heap_clients σ !! c) as [cl|] eqn:Hc.
  - destruct (Hk c cl Hc) as (cl' & -> & Hf). unfold flags in Hf.
    injection Hf as _ _ ->. exact Hup.
  - apply lookup_ge_None in Hc. rewrite <- Hlen in Hc.
    apply lookup_ge_None in Hc. now rewrite Hc.
Qed.

Lemma step_all_up e σ σ' :
  wf σ -> (forall c, e <> ReadError c) -> step e σ = Some (Ok σ') ->
  all_up σ -> all_up σ'.
Proof.
  intros Hwf He Hstep Hup.
  pose proof (step_clients e σ _ Hwf Hstep) as Hcl. cbn [result_state] in Hcl.
  destruct e as [| |c s|c|c|]; try (now apply (keeps_clients_all_up σ)).
  - destruct Hcl as (_ & _ & E). intros c. specialize (Hup c). unfold terminated in *.
    rewrite E. destruct (heap_clients σ !! c) as [cl|] eqn:Hc.
    + now rewrite (lookup_app_l_Some _ _ _ _ Hc).
    + apply lookup_ge_None in Hc. rewrite lookup_app_r by exact Hc.
      destruct (c - length (heap_clients σ)) as [|k]; reflexivity.
  - now destruct (He c).
Qed.

Lemma all_up_no_panic e σ σ' : wf σ -> all_up σ -> step e σ <> Some (Panic σ').
Proof.
  intros Hwf Hup Hstep.
  destruct (step_Panic_inv e σ σ' Hwf Hstep)
    as [(c & l & _ & _ & _ & Ht)|(_ & from & name & msg & _ & [Ht|(d & _ & Ht)])];
    rewrite (Hup _) in Ht; discriminate.
Qed.

Lemma exec_all_up es σ0 r :
  wf σ0 -> all_up σ0 -> (forall c, ReadError c ∉ es) -> exec es σ0 = Some r ->
  all_up (result_state r) /\ forall σ', r <> Panic σ'.
Proof.
  revert σ0. induction es as [|e es IH]; intros σ0 Hwf Hup Hno; cbn [exec].
  - intros [= <-]. split; [exact Hup | discriminate].
  - assert (He : forall c, e <> ReadError c).
    { intros c ->. apply (Hno c). left. }
    assert (Hes : forall c, ReadError c ∉ es).
    { intros c Hc. apply (Hno c). now right. }
    destruct (step e σ0) as [[σ1|σ1|σ1]|] eqn:Hstep; try discriminate.
    + apply IH; [exact (wf_step e σ0 _ Hwf Hstep) | | exact Hes].
      exact (step_all_up e σ0 σ1 Hwf He Hstep Hup).
    + now destruct (all_up_no_panic e σ0 σ1 Hwf Hup).
    + destruct es; [|discriminate]. intros [= <-].
      apply step_Fatal_inv in Hstep as E. subst e. cbn in Hstep.
      injection Hstep as <-. split; [exact Hup | discriminate].
Qed.

(** The list of clients of a reachable state. *)
Lemma reachable_clients σ :
  reachable σ -> server_clients σ = seq 0 (length (heap_clients σ)).
Proof.
  induction 1 as [|σ e σ' Hr IH Hstep]; [reflexivity|].
  pose proof (step_clients e σ _ (reachable_wf σ Hr) Hstep) as Hcl.
  cbn [result_state] in Hcl.
  assert (Hkeep : keeps_clients σ σ' ->
            server_clients σ' = seq 0 (length (heap_clients σ'))).
  { intros (E1 & E2 & _). now rewrite E1, E2. }
  destruct e as [| |c s|c|c|]; try (now apply Hkeep).
  - destruct Hcl as (_ & E1 & E2). rewrite E1, E2, IH, length_app. cbn.
    rewrite Nat.add_1_r, seq_S. reflexivity.
  - destruct Hcl as (cl & _ & _ & [= ->]). cbn. now rewrite length_insert.
Qed.

End NoReadError.

(** X16: every line the server has handed to the writer of a client is
    one of the two error lines of [Broadcast], the reply [Error: Invalid
    cmd: ] followed by a line that was read and is no command, or a
    broadcast line [room / nick: text] whose room and nickname are one or
    more word characters and whose text is non-empty without newline. *)
Theorem delivered_forms (σ : State) (c : ClientPtr) (x : string) :
  reachable σ -> x ∈ delivered σ c -> server_line x.
Proof.
  intros Hr. revert c x. induction Hr as [|σ e σ' Hr IH Hstep]; intros c x Hx.
  - revert Hx. unfold delivered. cbn. rewrite lookup_nil. now intros ?%elem_of_nil.
  - destruct (step_server_line e σ _ c x (reachable_wf σ Hr)
                (reachable_text_inv σ Hr) Hstep Hx) as [H|H]; [|exact H].
    exact (IH c x H).
Qed.

Lemma delivered_forms_witness : server_line ("lobby / alice: hi all" +:+ nl).
Proof.
  apply (delivered_forms (after scenario) 1).
  - apply (exec_reachable scenario). vm_compute. reflexivity.
  - assert (E : delivered (after scenario) 1 = ["lobby / alice: hi all" +:+ nl]).
    { vm_compute. reflexivity. }
    rewrite E. left.
Defined.

(** X17: without a read error the server never panics: a schedule that
    holds no read error does not end in a panic, whatever the clients
    send, and no client has terminated at its end. *)
Theorem no_read_error_no_panic (es : list Event) (r : Result) :
  no_read_error es = true -> exec es NewChatServer = Some r ->
  (forall σ', r <> Panic σ') /\ all_up (result_state r).
Proof.
  intros Hno Hexec.
  assert (Hes : forall c, ReadError c ∉ es).
  { intros c Hc. unfold no_read_error in Hno. rewrite forallb_forall in Hno.
    apply list_elem_of_In in Hc. now specialize (Hno _ Hc). }
  destruct (exec_all_up es _ r wf_init all_up_init Hes Hexec) as (H1 & H2).
  split; assumption.
Qed.

Lemma no_read_error_no_panic_witness :
  (forall σ', Ok (after message_without_read_error) <> Panic σ')
  /\ all_up (result_state (Ok (after message_without_read_error))).
Proof.
  apply (no_read_error_no_panic message_without_read_error).
  - reflexivity.
  - vm_compute. reflexivity.
Defined.

(** X19: the members of a room are clients of the server: every entry of
    a member list is in the list of clients of the server. *)
Theorem members_are_clients (σ : State) (name : string) (c : ClientPtr) :
  reachable σ -> c ∈ members σ name -> c ∈ server_clients σ.
Proof.
  intros Hr Hc. rewrite (reachable_clients σ Hr). apply elem_of_seq.
  split; [lia|]. cbn. unfold members in Hc.
  destruct (server_rooms σ !! name) as [room|]; [|now apply elem_of_nil in Hc].
  destruct (heap_rooms σ !! room) as [rm|] eqn:Hrm; [|now apply elem_of_nil in Hc].
  exact (wf_members σ (reachable_wf σ Hr) room rm c Hrm Hc).
Qed.

Lemma members_are_clients_witness : 1 ∈ server_clients (after scenario).
Proof.
  apply (members_are_clients (after scenario) "lobby" 1).
  - apply (exec_reachable scenario). vm_compute. reflexivity.
  - assert (E : members (after scenario) "lobby" = [0; 1]).
    { vm_compute. reflexivity. }
    rewrite E. right. left.
Defined.

(** X20: only a join changes a member list and only a nick changes a
    nickname.  If a step changes the member list of a room, it is the
    dispatcher running a join for that room, and the joining client is
    appended; if a step changes the nickname of a client, it is the
    dispatcher running a nick of that client, and the nickname is the one
    of the command.  This also holds of a step that panics. *)
Theorem step_frame (σ : State) (e : Event) (r : Result) :
  reachable σ -> step e σ = Some r ->
  (forall n, members (result_state r) n <> members σ n ->
     exists c, e = Dispatch /\ server_cmd σ = Some (JoinCommand c n)
               /\ members (result_state r) n = members σ n ++ [c])
  /\ (forall d, nick_of (result_state r) d <> nick_of σ d ->
     exists n, e = Dispatch /\ server_cmd σ = Some (NickCommand d n)
               /\ nick_of (result_state r) d = n).
Proof.
  intros Hr Hstep. pose proof (reachable_wf σ Hr) as Hwf. split.
  - intros n Hn. destruct (step_effect e σ r Hwf Hstep) as (Hmem & _).
    cbv zeta in Hmem. rewrite Hmem in Hn |- *.
    destruct e as [| |c s|c|c|]; try (now rewrite app_nil_r in Hn).
    unfold pending_cmd in *.
    destruct (server_cmd σ) as [[c n'|c n'|c n' m]|];
      try (now rewrite app_nil_r in Hn).
    cbn [joiners] in *. destruct (String.eqb n' n) eqn:E;
      [|now rewrite app_nil_r in Hn].
    apply String.eqb_eq in E as ->. exists c. auto.
  - intros d Hd. pose proof (step_nick_of e σ r d Hwf Hstep) as Hn.
    rewrite Hn in Hd |- *.
    destruct e as [| |c s|c|c|]; try (now destruct Hd).
    unfold pending_cmd in *.
    destruct (server_cmd σ) as [[c n'|c n'|c n' m]|]; try (now destruct Hd).
    cbn [nick_after] in *. case_decide as Hc; [|now destruct Hd].
    subst c. exists n'. auto.
Qed.

Lemma step_frame_witness :
  let σ := after [Accept; ReadLine 0 ("join r" +:+ nl); Ingest 0] in
  let r := Ok (after [Accept; ReadLine 0 ("join r" +:+ nl); Ingest 0; Dispatch]) in
  (forall n, members (result_state r) n <> members σ n ->
     exists c, Dispatch = Dispatch /\ server_cmd σ = Some (JoinCommand c n)
               /\ members (result_state r) n = members σ n ++ [c])
  /\ (forall d, nick_of (result_state r) d <> nick_of σ d ->
     exists n, Dispatch = Dispatch /\ server_cmd σ = Some (NickCommand d n)
               /\ nick_of (result_state r) d = n).
Proof.
  cbv zeta.
  apply (step_frame (after [Accept; ReadLine 0 ("join r" +:+ nl); Ingest 0]) Dispatch).
  - apply (exec_reachable [Accept; ReadLine 0 ("join r" +:+ nl); Ingest 0]).
    vm_compute. reflexivity.
  - vm_compute. reflexivity.
Defined.
